(** * dir-hasher: inventory, digest pass, manifest and archive

    A shallow embedding of [src/shared/projects/dir-hasher/dir-hasher.go].
    The Go functions [createDirectoryInventory], [generateDirectoryHashes],
    [createTomlFile], [zipDirectory] and [main] are written as Rocq functions
    over an explicit world (log, clock ticks, the two output files) and a
    read-only environment (flags, the directory tree, the clock, the key).
    The libraries the program calls (hash packages, openpgp, time
    formatting, [filepath.Base]) are taken as parameters; [filepath.Walk],
    [filepath.Rel], [os.Open] and [File.Read] are modelled on a tree. *)

From Stdlib Require Import List ZArith Lia Bool String Ascii.
From Stdlib Require Import Strings.Byte.
From Stdlib Require Import Sorted Permutation OrderedTypeEx.
Import ListNotations.

Local Open Scope string_scope.
Local Open Scope Z_scope.

(** ** Go runtime values *)

Module Go.

Definition bytes := list byte.

(** Error numbers of failed system calls. *)
Inductive errno := ENOENT | EACCES | EIO | EISDIR | ENOSPC.

(** Go [error] values met by the program: the sentinels of [io] and
    [path/filepath], [*fs.PathError], library failures, and the wrapping
    done by [fmt.Errorf("...: %v", err)]. *)
Inductive error :=
| EOF
| SkipDir
| SkipAll
| PathError (op path : string) (e : errno)
| LibError (msg : string)
| Errorf (msg subject : string) (cause : error).

Definition IsNotExist (err : option error) : bool :=
  match err with
  | Some (PathError _ _ ENOENT) => true
  | _ => false
  end.

Definition isSkipDir (e : error) : bool :=
  match e with SkipDir => true | _ => false end.

Definition isSkip (e : error) : bool :=
  match e with SkipDir | SkipAll => true | _ => false end.

(** [int64] arithmetic: the value of a sum after wrap-around. *)
Definition wrap64 (z : Z) : Z := (z + 2 ^ 63) mod 2 ^ 64 - 2 ^ 63.

Definition add64 (a b : Z) : Z := wrap64 (a + b).

(** [hex.EncodeToString]: two lower-case digits per byte. *)
Definition hexDigit (upper : bool) (n : N) : ascii :=
  if (n <? 10)%N then ascii_of_N (48 + n)
  else ascii_of_N ((if upper then 55 else 87) + n).

Definition hexByte (b : byte) : string :=
  let n := Byte.to_N b in
  String (hexDigit false (n / 16)) (String (hexDigit false (n mod 16)) "").

Fixpoint EncodeToString (bs : bytes) : string :=
  match bs with
  | [] => ""
  | b :: rest => hexByte b ++ EncodeToString rest
  end.

(** [fmt.Sprintf("%x", u)] and [("%X", u)] for an unsigned 64-bit value:
    no padding, at least one digit. *)
Fixpoint hexDigits (fuel : nat) (upper : bool) (n : N) (acc : string) : string :=
  match fuel with
  | O => acc
  | S fuel' =>
      let acc' := String (hexDigit upper (n mod 16)) acc in
      if (n / 16 =? 0)%N then acc' else hexDigits fuel' upper (n / 16) acc'
  end.

Definition formatHex (upper : bool) (u : Z) : string :=
  hexDigits 16 upper (Z.to_N (u mod 2 ^ 64)) "".

(** [strings.ReplaceAll(s, old, new)] for one-byte [old] and [new], the
    only way the program calls it. *)
Fixpoint ReplaceAll (s : string) (old new : ascii) : string :=
  match s with
  | EmptyString => EmptyString
  | String c rest =>
      String (if Ascii.eqb c old then new else c) (ReplaceAll rest old new)
  end.

(** [strings.HasSuffix(s, suffix)] for a one-byte [suffix]. *)
Fixpoint HasSuffix (s : string) (suffix : ascii) : bool :=
  match s with
  | EmptyString => false
  | String c EmptyString => Ascii.eqb c suffix
  | String _ rest => HasSuffix rest suffix
  end.

Definition bytesOf (s : string) : bytes := list_byte_of_string s.

(** The line feed of Go's ["\n"]. *)
Definition nl : string := String (ascii_of_nat 10) "".

End Go.
Export Go.

(** ** The [hash.Hash] interface

    Every hasher the program creates is used through [Write] and a final
    [Sum(nil)] (or [Read] for the KangarooTwelve XOF).  [hcontract] is the
    contract of [hash.Hash]: the sum after a sequence of writes is the
    digest of the bytes written, in order. *)

Module Hash.

Record Alg := {
  hstate : Type;
  hnew : hstate;
  hwrite : hstate -> bytes -> hstate;
  hsum : hstate -> bytes;
  hdigest : bytes -> bytes;
  hcontract : forall chunks : list bytes,
      hsum (fold_left hwrite chunks hnew) = hdigest (List.concat chunks)
}.

(** A streaming instance: 64-bit FNV-1a, whose state is the running hash. *)
Definition fnvPrime : Z := 1099511628211.
Definition fnvOffset : Z := 14695981039346656037.

Definition fnvStep (h : Z) (b : byte) : Z :=
  (Z.lxor h (Z.of_N (Byte.to_N b)) * fnvPrime) mod 2 ^ 64.

Definition fnvWrite (h : Z) (p : bytes) : Z := fold_left fnvStep p h.

Definition byteOfZ (z : Z) : byte :=
  match Byte.of_N (Z.to_N (z mod 256)) with
  | Some b => b
  | None => x00
  end.

Definition fnvSum (h : Z) : bytes :=
  map (fun i => byteOfZ (Z.shiftr h (8 * Z.of_nat i))) [7; 6; 5; 4; 3; 2; 1; 0]%nat.

(** Writing chunk after chunk is writing their concatenation. *)
Fixpoint fnvWrite_chunks (chunks : list bytes) (h : Z) {struct chunks}
  : fold_left fnvWrite chunks h = fnvWrite h (List.concat chunks) :=
  match chunks with
  | [] => eq_refl
  | c :: cs =>
      eq_trans (fnvWrite_chunks cs (fnvWrite h c))
               (eq_sym (fold_left_app fnvStep c (List.concat cs) h))
  end.

Definition fnv1a : Alg :=
  {| hstate := Z;
     hnew := fnvOffset;
     hwrite := fnvWrite;
     hsum := fnvSum;
     hdigest := fun data => fnvSum (fnvWrite fnvOffset data);
     hcontract := fun chunks => f_equal fnvSum (fnvWrite_chunks chunks fnvOffset) |}.

End Hash.

(** ** The directory tree the program runs on

    What the operating system answers for the root and everything below
    it.  A directory lists its entries in the order the system enumerates
    them.  A non-directory carries the outcome of [os.Open] and of the
    successive [Read] calls on it. *)

Module FS.

Inductive OS := Unix | Windows.

(** [os.PathSeparator]. *)
Definition Separator (o : OS) : ascii :=
  match o with Unix => "/"%char | Windows => "\"%char end.

(** [os.FileInfo], as far as the program looks at it. *)
Record FileStat := { st_size : Z; st_mtime : Z; st_isdir : bool }.

(** One call of [File.Read]: the bytes stored in [buffer[:n]] and the
    error returned with them. *)
Inductive readErr := RNil | REOF | RFail (e : errno).

Definition readOutcome := (bytes * readErr)%type.

(** After the listed outcomes a [Read] returns [0, io.EOF]. *)
Inductive openOutcome :=
| OpenErr (e : errno)
| Opened (reads : list readOutcome).

(** A node of the tree: a non-directory with its size, its modification
    time and what opening and reading it gives; a directory with its
    listing; a directory whose listing fails; an entry whose [lstat]
    fails. *)
#[warnings="-register-all"]
Inductive node :=
| File (size mtime : Z) (h : openOutcome)
| Dir (size mtime : Z) (entries : list (string * node))
| DirUnreadable (size mtime : Z) (e : errno)
| NoStat (e : errno).

Definition isDirNode (n : node) : bool :=
  match n with
  | Dir _ _ _ | DirUnreadable _ _ _ => true
  | _ => false
  end.

(** [os.Lstat]. *)
Definition Lstat (path : string) (n : node) : option FileStat * option error :=
  match n with
  | File sz mt _ => (Some {| st_size := sz; st_mtime := mt; st_isdir := false |}, None)
  | Dir sz mt _ | DirUnreadable sz mt _ =>
      (Some {| st_size := sz; st_mtime := mt; st_isdir := true |}, None)
  | NoStat e => (None, Some (PathError "lstat" path e))
  end.

Fixpoint findEntry (name : string) (es : list (string * node)) : option node :=
  match es with
  | [] => None
  | (k, c) :: rest => if String.eqb k name then Some c else findEntry name rest
  end.

(** The node reached from [n] by a list of names. *)
Fixpoint resolve (n : node) (comps : list string) : option node :=
  match comps with
  | [] => Some n
  | c :: rest =>
      match n with
      | Dir _ _ es =>
          match findEntry c es with
          | Some child => resolve child rest
          | None => None
          end
      | _ => None
      end
  end.

Fixpoint stripPrefix (p s : string) : option string :=
  match p with
  | EmptyString => Some s
  | String a p' =>
      match s with
      | EmptyString => None
      | String b s' => if Ascii.eqb a b then stripPrefix p' s' else None
      end
  end.

Fixpoint splitOn (sep : ascii) (s : string) : list string :=
  match s with
  | EmptyString => [EmptyString]
  | String c rest =>
      if Ascii.eqb c sep then EmptyString :: splitOn sep rest
      else match splitOn sep rest with
           | [] => [String c EmptyString]
           | h :: t => String c h :: t
           end
  end.

(** [filepath.Join(path, name)] for a clean [path] and a plain [name]. *)
Definition Join (o : OS) (path name : string) : string :=
  (path ++ String (Separator o) name)%string.

(** The names leading from [root] to [path], when [path] is [root] or
    lies below it. *)
Definition below (o : OS) (root path : string) : option (list string) :=
  if String.eqb path root then Some []
  else match stripPrefix (root ++ String (Separator o) "") path with
       | Some rest => Some (splitOn (Separator o) rest)
       | None => None
       end.

(** [filepath.Rel(basepath, targpath)] on the paths the walk produces:
    [targpath] is [basepath] or [basepath] joined with names. *)
Definition Rel (o : OS) (basepath targpath : string) : string * option error :=
  if String.eqb targpath basepath then (".", None)
  else match stripPrefix (basepath ++ String (Separator o) "") targpath with
       | Some rest => (rest, None)
       | None => ("", Some (LibError "Rel: can't make relative"))
       end.

(** [os.Open(path)] with the tree mounted at [root]: the read outcomes of
    the opened file, or the error. *)
Definition Open (o : OS) (root : string) (fs : node) (path : string)
  : list readOutcome + error :=
  match below o root path with
  | None => inr (PathError "open" path ENOENT)
  | Some comps =>
      match resolve fs comps with
      | Some (File _ _ (Opened reads)) => inl reads
      | Some (File _ _ (OpenErr e)) => inr (PathError "open" path e)
      | Some (Dir _ _ _) => inl [([], RFail EISDIR)]
      | Some (DirUnreadable _ _ e) => inr (PathError "open" path e)
      | Some (NoStat e) => inr (PathError "open" path e)
      | None => inr (PathError "open" path ENOENT)
      end
  end.

(** [os.Stat(path)] of the root. *)
Definition StatRoot (root : string) (fs : node) : option FileStat * option error :=
  match Lstat root fs with
  | (info, Some (PathError _ p e)) => (info, Some (PathError "stat" p e))
  | r => r
  end.

End FS.
Export FS.

(** ** [path/filepath]: the lexical walk

    [filepath.Walk] as in the Go release named by [go.mod] (1.24): the
    names of a directory are read and sorted before the callback is
    called for it, and the callback is called once per entry. *)

Module Filepath.

(** [slices.Sort(names)] in [readDirNames], carried out on the entries:
    byte-wise order of the names. *)
Fixpoint insertByName {A : Type} (x : string * A) (l : list (string * A))
  : list (string * A) :=
  match l with
  | [] => [x]
  | y :: rest =>
      if String.leb (fst x) (fst y) then x :: l else y :: insertByName x rest
  end.

Definition sortByName {A : Type} (l : list (string * A)) : list (string * A) :=
  fold_right insertByName [] l.

Section Walk.
Context {S : Type}.

(** [filepath.WalkFunc], with the state the closure captures. *)
Definition WalkFunc := string -> option FileStat -> option error -> S -> S * option error.

Variable o : OS.
Variable fn : WalkFunc.

Definition visitor := (string -> S -> S * option error)%type.

(** The loop over the sorted names of one directory.  An entry comes
    with its visit and with whether a returned [SkipDir] is swallowed:
    after a failed [lstat] always, after a walk only for a directory. *)
Fixpoint walkNames (path : string) (l : list (string * (bool * visitor))) (s : S)
  : S * option error :=
  match l with
  | [] => (s, None)
  | (name, (swallow, visit)) :: rest =>
      let filename := Join o path name in
      let '(s', err) := visit filename s in
      match err with
      | None => walkNames path rest s'
      | Some e =>
          if swallow && isSkipDir e then walkNames path rest s'
          else (s', Some e)
      end
  end.

Definition swallowsSkipDir (n : node) : bool :=
  match n with
  | File _ _ _ => false
  | _ => true
  end.

(** [walk], together with the call [walkFn(filename, fileInfo, err)]
    made for an entry whose [lstat] failed. *)
Fixpoint walk (n : node) (path : string) (s : S) {struct n} : S * option error :=
  match n with
  | NoStat e => fn path None (Some (PathError "lstat" path e)) s
  | File sz mt _ => fn path (fst (Lstat path n)) None s
  | DirUnreadable sz mt e =>
      fn path (fst (Lstat path n)) (Some (PathError "open" path e)) s
  | Dir sz mt es =>
      let '(s1, err1) := fn path (fst (Lstat path n)) None s in
      match err1 with
      | Some e => (s1, Some e)
      | None =>
          walkNames path
            (sortByName
               (map (fun nc => match nc with
                               | (name, c) => (name, (swallowsSkipDir c, walk c))
                               end) es)) s1
      end
  end.

(** [filepath.Walk(root, fn)] on the tree [fs] found at [root]. *)
Definition Walk (root : string) (fs : node) (s : S) : S * option error :=
  let '(s', err) := walk fs root s in
  match err with
  | Some SkipDir | Some SkipAll => (s', None)
  | _ => (s', err)
  end.

End Walk.

End Filepath.
Export Filepath.

(** ** The program's data *)

(** [FileInfo]: what the inventory keeps of one entry. *)
Record FileInfo := {
  Path : string;
  Size : Z;
  ModTime : Z;
  IsDir : bool;
  RelPath : string
}.

Record DirectoryInventory := {
  RootDir : string;
  Files : list FileInfo;
  TotalSize : Z;
  TotalFiles : Z;
  TotalDirs : Z;
  InventoryAt : Z
}.

Record HashResult := {
  KangarooTwelve : string;
  Blake3 : string;
  SHA3_256 : string;
  Blake2b : string;
  SHA512 : string;
  Whirlpool : string;
  RIPEMD160 : string;
  XXH3 : string;
  SHA256 : string;
  XXHash64 : string;
  Murmur3 : string;
  GPGKeyID : string;
  GPGSignature : string
}.

(** [HashResult{}]. *)
Definition emptyHashResult : HashResult :=
  {| KangarooTwelve := ""; Blake3 := ""; SHA3_256 := ""; Blake2b := "";
     SHA512 := ""; Whirlpool := ""; RIPEMD160 := ""; XXH3 := ""; SHA256 := "";
     XXHash64 := ""; Murmur3 := ""; GPGKeyID := ""; GPGSignature := "" |}.

(** The eleven digest fields of a result, in the order of the struct. *)
Definition digests (r : HashResult) : list string :=
  [KangarooTwelve r; Blake3 r; SHA3_256 r; Blake2b r; SHA512 r; Whirlpool r;
   RIPEMD160 r; XXH3 r; SHA256 r; XXHash64 r; Murmur3 r].

(** What [log.Printf] and [log.Println] are called with. *)
Inductive LogEvent :=
| LogStarting (dir : string)
| LogMessage (msg : string)
| LogAccessError (path : string) (err : error)
| LogRelError (path : string) (err : error)
| LogInventoryComplete (files dirs size : Z)
| LogProcessing (relPath : string)
| LogProgress (processed total : Z)
| LogProgressDone (total : Z)
| LogCreating (what path : string)
| LogCompleted (elapsed : Z)
| LogFatal (msg : string) (err : option error).

(** The manifest as written: the block formatted from the template and
    one block per file table, each the arguments of its [Sprintf]; and
    what a failed [WriteString] leaves of a block, its first [n] bytes. *)
Record TomlHead := {
  generated_on : string;
  name : string;
  total_files : Z;
  total_directories : Z;
  total_size_bytes : Z;
  inventory_date : string;
  hashes : HashResult
}.

Inductive TomlBlock :=
| TomlHeader (h : TomlHead)
| TomlFileTable (relPath : string) (size : Z) (modified : string)
| TomlTorn (b : TomlBlock) (n : nat).

(** A member of the archive: the header's name and the bytes copied. *)
Record ZipEntry := { ze_name : string; ze_data : bytes }.

(** The archive file: the members handed to the writer, and whether the
    writer and the file were closed without error (the buffer is then
    flushed and the central directory in place). *)
Record ZipFile := { z_entries : list ZipEntry; z_closed : bool }.

(** The mutable world: the log, the number of clock readings taken, the
    manifest and archive files next to the root.  [w_toml] holds what was
    written to the manifest file; [w_tomlClosed] tells whether that file
    was closed without error: when it was not, the file system promises
    nothing about what of [w_toml] is on the disk. *)
Record World := {
  w_log : list LogEvent;
  w_ticks : nat;
  w_toml : option (list TomlBlock);
  w_zip : option ZipFile;
  w_tomlClosed : bool
}.

Definition logf (ev : LogEvent) (w : World) : World :=
  {| w_log := (w_log w ++ [ev])%list; w_ticks := w_ticks w;
     w_toml := w_toml w; w_zip := w_zip w; w_tomlClosed := w_tomlClosed w |}.

(** An OpenPGP entity: its key id and the detached, armored signature it
    makes of a message (or the failure of one of the library calls). *)
Record Entity := { KeyId : Z; signature : string -> string + error }.

(** The outcome of reading, decoding and parsing the key file. *)
Inductive keyFileOutcome :=
| KeyUnreadable (e : error)
| KeyUndecodable (e : error)
| KeyUnparsable (e : error)
| KeyLoaded (entity : Entity).

(** The libraries, as parameters. *)
Record Libs := {
  sha256_New : Hash.Alg;
  whirlpool_New : Hash.Alg;
  ripemd160_New : Hash.Alg;
  sha3_New256 : Hash.Alg;
  blake2b_New256 : Hash.Alg;
  blake3_New : Hash.Alg;
  sha512_New : Hash.Alg;
  xxhash_New : Hash.Alg;
  murmur3_New128 : Hash.Alg;
  k12_NewDraft10 : Hash.Alg;
  xxh3_HashString : string -> Z;
  Format : string -> Z -> string;
  Base : string -> string;
  Dir_ : string -> string
}.

(** The flags and everything the run reads from outside.  [osCreate path]
    is the outcome of [os.Create]; [writeOutcome path k] that of write
    number [k] to the file (for the archive: of [CreateHeader] for member
    number [k]), and [shortCount path k] the bytes a failing write to the
    manifest still got through; [copyOutcome zipPath k j] is the outcome
    of [Write] number [j] on the writer of member number [k]: the error
    and the bytes accepted before it; [closeOutcome path] is the outcome
    of the deferred [Close] calls on the file, whose errors the program
    drops. *)
Record Env := {
  goos : OS;
  dirPath : string;
  verbose : bool;
  showProgress : bool;
  gpgKeyFile : string;
  tree : node;
  clock : nat -> Z;
  keyFile : keyFileOutcome;
  osHostname : string + error;
  NewEntity : string -> string -> Entity + error;
  osCreate : string -> option errno;
  writeOutcome : string -> nat -> option errno;
  shortCount : string -> nat -> nat;
  copyOutcome : string -> nat -> nat -> option (errno * nat);
  closeOutcome : string -> option errno
}.

(** ** The program *)

Section Program.

Variable L : Libs.
Variable env : Env.

(** [time.Now()]: the next reading of the clock. *)
Definition timeNow (w : World) : Z * World :=
  (clock env (w_ticks w),
   {| w_log := w_log w; w_ticks := S (w_ticks w);
      w_toml := w_toml w; w_zip := w_zip w; w_tomlClosed := w_tomlClosed w |}).

(** [time.Since(t)]. *)
Definition timeSince (t : Z) (w : World) : Z * World :=
  let '(n, w') := timeNow w in (n - t, w').

(** The function literal passed to [filepath.Walk] by
    [createDirectoryInventory]; its state is the captured [inventory]
    and the world. *)
Definition inventoryVisit (rootDir : string)
  : WalkFunc (S := DirectoryInventory * World) :=
  fun path info err st =>
    let '(inventory, w) := st in
    match err with
    | Some e => ((inventory, logf (LogAccessError path e) w), None)
    | None =>
        let '(rel, rerr) := Rel (goos env) rootDir path in
        let '(relPath, w1) :=
          match rerr with
          | Some e => (path, logf (LogRelError path e) w)
          | None => (rel, w)
          end in
        if String.eqb path rootDir then ((inventory, w1), None)
        else
          match info with
          | None => ((inventory, w1), Some (LibError "nil FileInfo"))
          | Some info =>
              let fileInfo :=
                {| Path := path; Size := st_size info; ModTime := st_mtime info;
                   IsDir := st_isdir info; RelPath := relPath |} in
              let files := (Files inventory ++ [fileInfo])%list in
              let inventory' :=
                if st_isdir info then
                  {| RootDir := RootDir inventory; Files := files;
                     TotalSize := TotalSize inventory;
                     TotalFiles := TotalFiles inventory;
                     TotalDirs := add64 (TotalDirs inventory) 1;
                     InventoryAt := InventoryAt inventory |}
                else
                  {| RootDir := RootDir inventory; Files := files;
                     TotalSize := add64 (TotalSize inventory) (st_size info);
                     TotalFiles := add64 (TotalFiles inventory) 1;
                     TotalDirs := TotalDirs inventory;
                     InventoryAt := InventoryAt inventory |} in
              ((inventory', w1), None)
          end
    end.

Definition createDirectoryInventory (rootDir : string) (w : World)
  : (DirectoryInventory * option error) * World :=
  let '(t, w0) := timeNow w in
  let inventory :=
    {| RootDir := rootDir; Files := []; TotalSize := 0; TotalFiles := 0;
       TotalDirs := 0; InventoryAt := t |} in
  let '((inventory', w'), err) :=
    Walk (goos env) (inventoryVisit rootDir) rootDir (tree env) (inventory, w0) in
  ((inventory', err), w').

(** The ten hashers created at the top of [generateDirectoryHashes]. *)
Record Hashers := {
  sha256Hasher : Hash.hstate (sha256_New L);
  whirlpoolHasher : Hash.hstate (whirlpool_New L);
  ripemd160Hasher : Hash.hstate (ripemd160_New L);
  sha3_256Hasher : Hash.hstate (sha3_New256 L);
  blake2bHasher : Hash.hstate (blake2b_New256 L);
  blake3Hasher : Hash.hstate (blake3_New L);
  sha512Hasher : Hash.hstate (sha512_New L);
  xxh64Hasher : Hash.hstate (xxhash_New L);
  murmur3Hasher : Hash.hstate (murmur3_New128 L);
  k12Hasher : Hash.hstate (k12_NewDraft10 L)
}.

Definition newHashers : Hashers :=
  {| sha256Hasher := Hash.hnew _; whirlpoolHasher := Hash.hnew _;
     ripemd160Hasher := Hash.hnew _; sha3_256Hasher := Hash.hnew _;
     blake2bHasher := Hash.hnew _; blake3Hasher := Hash.hnew _;
     sha512Hasher := Hash.hnew _; xxh64Hasher := Hash.hnew _;
     murmur3Hasher := Hash.hnew _; k12Hasher := Hash.hnew _ |}.

(** "Update all hash functions": the ten [Write(buffer[:n])] calls, and
    the call of [xxh3.HashString] whose result is dropped. *)
Definition writeAll (h : Hashers) (chunk : bytes) : Hashers :=
  let h' :=
    {| sha256Hasher := Hash.hwrite _ (sha256Hasher h) chunk;
       whirlpoolHasher := Hash.hwrite _ (whirlpoolHasher h) chunk;
       ripemd160Hasher := Hash.hwrite _ (ripemd160Hasher h) chunk;
       sha3_256Hasher := Hash.hwrite _ (sha3_256Hasher h) chunk;
       blake2bHasher := Hash.hwrite _ (blake2bHasher h) chunk;
       blake3Hasher := Hash.hwrite _ (blake3Hasher h) chunk;
       sha512Hasher := Hash.hwrite _ (sha512Hasher h) chunk;
       k12Hasher := Hash.hwrite _ (k12Hasher h) chunk;
       xxh64Hasher := Hash.hwrite _ (xxh64Hasher h) chunk;
       murmur3Hasher := Hash.hwrite _ (murmur3Hasher h) chunk |} in
  let _ := xxh3_HashString L (string_of_list_byte chunk) in
  h'.

(** The variables of the digest pass that change from chunk to chunk. *)
Record PassState := {
  hashers : Hashers;
  bytesProcessed : Z;
  lastProgressUpdate : Z;
  world : World
}.

(** [3 * time.Second], in nanoseconds. *)
Definition progressInterval : Z := 3 * 1000000000.

(** The progress report at the end of the chunk loop's body. *)
Definition reportProgress (inventory : DirectoryInventory) (processed last : Z)
    (w : World) : Z * World :=
  if showProgress env then
    let '(elapsed, w1) := timeSince last w in
    if elapsed >? progressInterval then
      timeNow (logf (LogProgress processed (TotalSize inventory)) w1)
    else (last, w1)
  else (last, w).

(** The chunk loop on an open file: one [Read] per listed outcome. *)
Fixpoint readChunks (inventory : DirectoryInventory) (fileInfo : FileInfo)
    (reads : list readOutcome) (st : PassState) : PassState * option error :=
  match reads with
  | [] => (st, None)
  | (chunk, rerr) :: rest =>
      match rerr with
      | RFail e =>
          (st, Some (Errorf "error reading file" (Path fileInfo)
                       (PathError "read" (Path fileInfo) e)))
      | _ =>
          if (List.length chunk =? 0)%nat then (st, None)
          else
            let h := writeAll (hashers st) chunk in
            let processed := add64 (bytesProcessed st) (Z.of_nat (List.length chunk)) in
            let '(last, w) :=
              reportProgress inventory processed (lastProgressUpdate st) (world st) in
            readChunks inventory fileInfo rest
              {| hashers := h; bytesProcessed := processed;
                 lastProgressUpdate := last; world := w |}
      end
  end.

(** The loop over [inventory.Files]. *)
Fixpoint hashFiles (inventory : DirectoryInventory) (files : list FileInfo)
    (st : PassState) : PassState * option error :=
  match files with
  | [] => (st, None)
  | fileInfo :: rest =>
      if IsDir fileInfo then hashFiles inventory rest st
      else
        let st1 :=
          if verbose env then
            {| hashers := hashers st; bytesProcessed := bytesProcessed st;
               lastProgressUpdate := lastProgressUpdate st;
               world := logf (LogProcessing (RelPath fileInfo)) (world st) |}
          else st in
        match Open (goos env) (dirPath env) (tree env) (Path fileInfo) with
        | inr e => (st1, Some (Errorf "error opening file" (Path fileInfo) e))
        | inl reads =>
            match readChunks inventory fileInfo reads st1 with
            | (st2, Some e) => (st2, Some e)
            | (st2, None) => hashFiles inventory rest st2
            end
        end
  end.

(** [generateGPGKey]: [openpgp.NewEntity] followed by the self-signature
    of each identity, the whole taken from the environment. *)
Definition generateGPGKey (name email : string) : Entity + error :=
  NewEntity env name email.

(** [signData]: the armored detached signature of [data], or the error
    of the first library call that fails. *)
Definition signData (entity : Entity) (data : string) : string + error :=
  signature entity data.

Definition getGPGEntity (w : World) : (Entity + error) * World :=
  if negb (String.eqb (gpgKeyFile env) "") then
    match keyFile env with
    | KeyUnreadable e => (inr (Errorf "error reading GPG key file" "" e), w)
    | KeyUndecodable e => (inr (Errorf "error decoding GPG key" "" e), w)
    | KeyUnparsable e => (inr (Errorf "error reading GPG entity" "" e), w)
    | KeyLoaded entity => (inl entity, w)
    end
  else
    let w1 := logf (LogMessage "No GPG key provided, generating a new one...") w in
    let hostname :=
      match osHostname env with
      | inl h => h
      | inr _ => "unknown"
      end in
    (generateGPGKey "Dir Hasher" ("dir-hasher@" ++ hostname), w1).

Definition generateDirectoryHashes (inventory : DirectoryInventory) (w : World)
  : (HashResult * option error) * World :=
  let '(t0, w0) := timeNow w in
  let st0 := {| hashers := newHashers; bytesProcessed := 0;
                lastProgressUpdate := t0; world := w0 |} in
  match hashFiles inventory (Files inventory) st0 with
  | (st, Some e) => ((emptyHashResult, Some e), world st)
  | (st, None) =>
      let w1 :=
        if showProgress env then logf (LogProgressDone (TotalSize inventory)) (world st)
        else world st in
      let h := hashers st in
      let sha256Hash := EncodeToString (Hash.hsum _ (sha256Hasher h)) in
      let whirlpoolHash := EncodeToString (Hash.hsum _ (whirlpoolHasher h)) in
      let ripemd160Hash := EncodeToString (Hash.hsum _ (ripemd160Hasher h)) in
      let sha3_256Hash := EncodeToString (Hash.hsum _ (sha3_256Hasher h)) in
      let blake2bHash := EncodeToString (Hash.hsum _ (blake2bHasher h)) in
      let blake3Hash := EncodeToString (Hash.hsum _ (blake3Hasher h)) in
      let sha512Hash := EncodeToString (Hash.hsum _ (sha512Hasher h)) in
      let xxh64Hash := EncodeToString (Hash.hsum _ (xxh64Hasher h)) in
      let murmur3Hash := EncodeToString (Hash.hsum _ (murmur3Hasher h)) in
      let k12Hash := EncodeToString (Hash.hsum _ (k12Hasher h)) in
      let xxh3Hash := formatHex false (xxh3_HashString L "Sample for XXH3") in
      let w2 := logf (LogMessage "Generating GPG signature...") w1 in
      match getGPGEntity w2 with
      | (inr e, w3) => ((emptyHashResult, Some (Errorf "error with GPG key" "" e)), w3)
      | (inl entity, w3) =>
          let keyID := "0x" ++ formatHex true (KeyId entity) in
          let '(t, w4) := timeNow w3 in
          let dataToSign :=
            "Directory: " ++ RootDir inventory ++
            nl ++ "SHA256: " ++ sha256Hash ++ nl ++ "SHA512: " ++ sha512Hash ++
            nl ++ "BLAKE2b: " ++ blake2bHash ++ nl ++ "BLAKE3: " ++ blake3Hash ++
            nl ++ "SHA3-256: " ++ sha3_256Hash ++ nl ++ "KangarooTwelve: " ++ k12Hash ++
            nl ++ "Whirlpool: " ++ whirlpoolHash ++ nl ++ "RIPEMD-160: " ++ ripemd160Hash ++
            nl ++ "XXH3: " ++ xxh3Hash ++ nl ++ "XXHash64: " ++ xxh64Hash ++
            nl ++ "Murmur3: " ++ murmur3Hash ++
            nl ++ "Timestamp: " ++ Format L "2006-01-02T15:04:05Z07:00" t in
          match signData entity dataToSign with
          | inr e => ((emptyHashResult, Some (Errorf "error signing data" "" e)), w4)
          | inl sig =>
              (({| KangarooTwelve := k12Hash; Blake3 := blake3Hash;
                   SHA3_256 := sha3_256Hash; Blake2b := blake2bHash;
                   SHA512 := sha512Hash; Whirlpool := whirlpoolHash;
                   RIPEMD160 := ripemd160Hash; XXH3 := xxh3Hash;
                   SHA256 := sha256Hash; XXHash64 := xxh64Hash;
                   Murmur3 := murmur3Hash; GPGKeyID := keyID;
                   GPGSignature := sig |}, None), w4)
          end
      end
  end.

(** The manifest with one more block at its end. *)
Definition appendToml (b : TomlBlock) (w : World) : World :=
  {| w_log := w_log w; w_ticks := w_ticks w;
     w_toml := Some (match w_toml w with Some bs => bs | None => [] end ++ [b])%list;
     w_zip := w_zip w; w_tomlClosed := w_tomlClosed w |}.

(** What a failed [file.WriteString] leaves behind: the program ignores
    the count of bytes written, and the bytes that got through stay in
    the file. *)
Definition shortWrite (tomlPath : string) (k : nat) (b : TomlBlock) (w : World) : World :=
  let n := shortCount env tomlPath k in
  if (n =? 0)%nat then w else appendToml (TomlTorn b n) w.

(** The deferred [file.Close()] of [createTomlFile]; its error is dropped. *)
Definition closeToml (tomlPath : string) (w : World) : World :=
  {| w_log := w_log w; w_ticks := w_ticks w; w_toml := w_toml w; w_zip := w_zip w;
     w_tomlClosed := match closeOutcome env tomlPath with
                     | None => true
                     | Some _ => false
                     end |}.

(** The loop "Add file inventory to TOML"; [k] counts the writes made. *)
Fixpoint writeFileTables (tomlPath : string) (files : list FileInfo) (k : nat)
    (w : World) : option error * World :=
  match files with
  | [] => (None, w)
  | fileInfo :: rest =>
      if negb (IsDir fileInfo) then
        let fileEntry :=
          TomlFileTable (RelPath fileInfo) (Size fileInfo)
            (Format L "2006-01-02 15:04:05" (ModTime fileInfo)) in
        match writeOutcome env tomlPath k with
        | Some e => (Some (PathError "write" tomlPath e), shortWrite tomlPath k fileEntry w)
        | None => writeFileTables tomlPath rest (S k) (appendToml fileEntry w)
        end
      else writeFileTables tomlPath rest k w
  end.

Definition createTomlFile (tomlPath dirName : string)
    (inventory : DirectoryInventory) (hashResult : HashResult) (w : World)
  : option error * World :=
  match osCreate env tomlPath with
  | Some e => (Some (PathError "open" tomlPath e), w)
  | None =>
      let w0 := {| w_log := w_log w; w_ticks := w_ticks w;
                   w_toml := Some []; w_zip := w_zip w; w_tomlClosed := false |} in
      let '(t, w1) := timeNow w0 in
      let currentTime := Format L "2006-01-02 15:04:05" t in
      let tomlContent :=
        TomlHeader
          {| generated_on := currentTime; name := dirName;
             total_files := TotalFiles inventory;
             total_directories := TotalDirs inventory;
             total_size_bytes := TotalSize inventory;
             inventory_date := Format L "2006-01-02 15:04:05" (InventoryAt inventory);
             hashes := hashResult |} in
      let '(err, w2) :=
        match writeOutcome env tomlPath 0 with
        | Some e =>
            (Some (PathError "write" tomlPath e), shortWrite tomlPath 0 tomlContent w1)
        | None =>
            writeFileTables tomlPath (Files inventory) 1 (appendToml tomlContent w1)
        end in
      (err, closeToml tomlPath w2)
  end.

(** [archive/zip] refuses to write a header whose name is longer than
    [uint16max] bytes. *)
Definition longName (name : string) : bool :=
  65535 <? Z.of_nat (String.length name).

(** An [io.Writer]: what call number [j] of [Write] does with a chunk
    that is not empty, the bytes it accepts and the error it returns. *)
Definition Writer : Type := nat -> bytes -> bytes * option error.

(** The writer [CreateHeader] returns for a name that ends in a slash:
    it refuses every byte. *)
Definition dirWriter : Writer :=
  fun _ _ => ([], Some (LibError "zip: write to directory")).

(** The writer [CreateHeader] returns for member number [k] otherwise;
    a failing [Write] reports the error of the write to the archive. *)
Definition fileWriter (zipPath : string) (k : nat) : Writer :=
  fun j chunk =>
    match copyOutcome env zipPath k j with
    | None => (chunk, None)
    | Some (e, n) => (firstn n chunk, Some (PathError "write" zipPath e))
    end.

(** [io.Copy(writer, file)]: the bytes copied and the error, if any.
    Each chunk read is written before the error of its read is looked
    at; [Write] is called for the chunks that are not empty, and [j]
    counts these calls. *)
Fixpoint ioCopy (path : string) (dst : Writer) (reads : list readOutcome) (j : nat)
    (copied : bytes) : bytes * option error :=
  match reads with
  | [] => (copied, None)
  | (chunk, rerr) :: rest =>
      let empty := (List.length chunk =? 0)%nat in
      let '(accepted, werr) := if empty then ([], None) else dst j chunk in
      let copied' := (copied ++ accepted)%list in
      match werr with
      | Some e => (copied', Some e)
      | None =>
          match rerr with
          | RNil => ioCopy path dst rest (if empty then j else S j) copied'
          | REOF => (copied', None)
          | RFail e => (copied', Some (PathError "read" path e))
          end
      end
  end.

Definition zipOf (w : World) : ZipFile :=
  match w_zip w with
  | Some z => z
  | None => {| z_entries := []; z_closed := false |}
  end.

Definition setZip (z : ZipFile) (w : World) : World :=
  {| w_log := w_log w; w_ticks := w_ticks w; w_toml := w_toml w; w_zip := Some z;
     w_tomlClosed := w_tomlClosed w |}.

(** The function literal passed to [filepath.Walk] by [zipDirectory].
    [zip.FileInfoHeader] does not fail; the header's compression method
    plays no part below and is left out.  [CreateHeader] fails when the
    write of the member's header (or of the end of the member before it)
    does; the writer it returns depends on the header's name, not on
    what the entry is.  A failed [CreateHeader] adds no member. *)
Definition zipVisit (sourceDir zipPath : string) : WalkFunc (S := World) :=
  fun path info err w =>
    match err with
    | Some e => (w, Some e)
    | None =>
        match info with
        | None => (w, Some (LibError "nil FileInfo"))
        | Some info =>
            let '(relPath, rerr) := Rel (goos env) sourceDir path in
            match rerr with
            | Some e => (w, Some e)
            | None =>
                if String.eqb relPath "." then (w, None)
                else
                  let name0 := ReplaceAll relPath "\"%char "/"%char in
                  let headerName := if st_isdir info then name0 ++ "/" else name0 in
                  let z := zipOf w in
                  match writeOutcome env zipPath (List.length (z_entries z)) with
                  | Some e => (w, Some (PathError "write" zipPath e))
                  | None =>
                      if longName headerName then
                        (w, Some (LibError "zip: FileHeader.Name too long"))
                      else if st_isdir info then
                        (setZip {| z_entries := (z_entries z ++
                                     [{| ze_name := headerName; ze_data := [] |}])%list;
                                   z_closed := z_closed z |} w, None)
                      else
                        let writer :=
                          if HasSuffix headerName "/" then dirWriter
                          else fileWriter zipPath (List.length (z_entries z)) in
                        match Open (goos env) (dirPath env) (tree env) path with
                        | inr e =>
                            (setZip {| z_entries := (z_entries z ++
                                         [{| ze_name := headerName; ze_data := [] |}])%list;
                                       z_closed := z_closed z |} w, Some e)
                        | inl reads =>
                            let '(data, cerr) := ioCopy path writer reads 0 [] in
                            (setZip {| z_entries := (z_entries z ++
                                         [{| ze_name := headerName; ze_data := data |}])%list;
                                       z_closed := z_closed z |} w, cerr)
                        end
                  end
            end
        end
    end.

(** The deferred [zipWriter.Close()] and [zipFile.Close()] run on every
    return after the file was created; their errors are dropped. *)
Definition zipDirectory (sourceDir zipPath : string) (w : World)
  : option error * World :=
  match osCreate env zipPath with
  | Some e => (Some (PathError "open" zipPath e), w)
  | None =>
      let w0 := setZip {| z_entries := []; z_closed := false |} w in
      let '(w1, err) := Walk (goos env) (zipVisit sourceDir zipPath) sourceDir (tree env) w0 in
      let closed :=
        match closeOutcome env zipPath with
        | None => true
        | Some _ => false
        end in
      (err, setZip {| z_entries := z_entries (zipOf w1); z_closed := closed |} w1)
  end.

(** How the process ends: by returning from [main], or through
    [log.Fatalf] (exit status 1). *)
Inductive Exit := Returned | Fatal.

Definition fatal (msg : string) (err : option error) (w : World) : Exit * World :=
  (Fatal, logf (LogFatal msg err) w).

Definition main (w : World) : Exit * World :=
  let '(startTime, w0) := timeNow w in
  let w1 := logf (LogStarting (dirPath env)) w0 in
  if IsNotExist (snd (StatRoot (dirPath env) (tree env))) then
    fatal "Error: Directory does not exist" None w1
  else
    let dirName0 := Base L (dirPath env) in
    let dirName :=
      if String.eqb dirName0 "." || String.eqb dirName0 ".." ||
         String.eqb dirName0 "/" || String.eqb dirName0 "\"
      then Base L (Dir_ L (dirPath env)) else dirName0 in
    let w2 := logf (LogMessage "Creating directory inventory...") w1 in
    match createDirectoryInventory (dirPath env) w2 with
    | ((_, Some e), w3) => fatal "Error creating directory inventory" (Some e) w3
    | ((inventory, None), w3) =>
        let w4 := logf (LogInventoryComplete (TotalFiles inventory)
                          (TotalDirs inventory) (TotalSize inventory)) w3 in
        let w5 := logf (LogMessage "Generating hashes for all files...") w4 in
        match generateDirectoryHashes inventory w5 with
        | ((_, Some e), w6) => fatal "Error generating hashes" (Some e) w6
        | ((hashResult, None), w6) =>
            let w7 := logf (LogMessage "Hash generation complete") w6 in
            let tomlPath := dirPath env ++ ".toml" in
            let w8 := logf (LogCreating "TOML" tomlPath) w7 in
            match createTomlFile tomlPath dirName inventory hashResult w8 with
            | (Some e, w9) => fatal "Error creating TOML file" (Some e) w9
            | (None, w9) =>
                let w10 := logf (LogMessage "TOML file created successfully") w9 in
                let zipPath := dirPath env ++ ".zip" in
                let w11 := logf (LogCreating "ZIP" zipPath) w10 in
                match zipDirectory (dirPath env) zipPath w11 with
                | (Some e, w12) => fatal "Error creating ZIP file" (Some e) w12
                | (None, w12) =>
                    let w13 := logf (LogMessage "ZIP file created successfully") w12 in
                    let '(duration, w14) := timeSince startTime w13 in
                    (Returned, logf (LogCompleted duration) w14)
                end
            end
        end
    end.

End Program.

(** ** Reading a run

    The definitions below describe a tree and a run; nothing in the
    program uses them. *)

Section Reading.

Variable o : OS.

(** A path below [root], by its names. *)
Definition joinAll (root : string) (comps : list string) : string :=
  fold_left (Join o) comps root.

(** The nodes in the order the walk reaches them, each with the names
    leading to it from the root. *)
Fixpoint walkOrder (n : node) (pre : list string) {struct n}
  : list (list string * node) :=
  match n with
  | Dir sz mt es =>
      (pre, n) ::
      List.concat
        (map (fun kv : string * (list string -> list (list string * node)) =>
                snd kv (pre ++ [fst kv])%list)
           (sortByName
              (map (fun nc => match nc with
                              | (name, c) => (name, walkOrder c)
                              end) es)))
  | _ => [(pre, n)]
  end.

(** What [walk] hands to the callback for a node. *)
Definition callInfo (path : string) (n : node) : option FileStat :=
  fst (Lstat path n).

Definition callErr (path : string) (n : node) : option error :=
  match n with
  | NoStat e => Some (PathError "lstat" path e)
  | DirUnreadable _ _ e => Some (PathError "open" path e)
  | _ => None
  end.

(** The callback applied along a list of nodes, until it returns an error. *)
Fixpoint runVisits {S : Type} (fn : WalkFunc (S := S)) (root : string)
    (l : list (list string * node)) (s : S) : S * option error :=
  match l with
  | [] => (s, None)
  | (comps, n) :: rest =>
      let path := joinAll root comps in
      let '(s', err) := fn path (callInfo path n) (callErr path n) s in
      match err with
      | None => runVisits fn root rest s'
      | Some e => (s', Some e)
      end
  end.

Fixpoint hasChar (c : ascii) (s : string) : bool :=
  match s with
  | EmptyString => false
  | String a rest => Ascii.eqb a c || hasChar c rest
  end.

Fixpoint nodupb (l : list string) : bool :=
  match l with
  | [] => true
  | x :: rest => negb (existsb (String.eqb x) rest) && nodupb rest
  end.

(** A name a directory can list: it holds no separator and is not the
    entry [.] of the directory itself. *)
Definition plainName (name : string) : bool :=
  negb (hasChar (Separator o) name) && negb (String.eqb name ".").

(** Every directory of the tree lists distinct names, each a plain one. *)
Fixpoint wfTree (n : node) : bool :=
  match n with
  | Dir _ _ es =>
      nodupb (map fst es) &&
      forallb plainName (map fst es) &&
      forallb (fun nc => match nc with (_, c) => wfTree c end) es
  | _ => true
  end.

(** The order of relative paths name by name. *)
Fixpoint compsLtb (a b : list string) : bool :=
  match a, b with
  | [], [] => false
  | [], _ :: _ => true
  | _ :: _, [] => false
  | x :: a', y :: b' =>
      match String.compare x y with
      | Lt => true
      | Eq => compsLtb a' b'
      | Gt => false
      end
  end.

End Reading.

(** ** Records, digests, archives and sample trees *)

(** The relative path of a list of names below the root, as
    [filepath.Rel] returns it. *)
Definition relString (o : OS) (comps : list string) : string :=
  match comps with
  | [] => "."
  | c :: cs => fold_left (Join o) cs c
  end.

(** Entries compared by their names. *)
Definition keyLe {A : Type} (a b : string * A) : Prop := String.leb (fst a) (fst b) = true.

Definition keyLt {A : Type} (a b : string * A) : Prop := String.ltb (fst a) (fst b) = true.

(** The non-directory records, the directory records, and a sum of sizes. *)
Definition nonDirs (l : list FileInfo) : list FileInfo :=
  filter (fun f => negb (IsDir f)) l.

Definition dirs (l : list FileInfo) : list FileInfo := filter IsDir l.

Definition sumSizes (l : list FileInfo) : Z :=
  fold_right (fun f acc => Size f + acc) 0 l.

(** The record the inventory keeps for a visited node, if any. *)
Definition recordOf (o : OS) (root : string) (cn : list string * node) : list FileInfo :=
  let path := joinAll o root (fst cn) in
  match fst cn, callErr path (snd cn), callInfo path (snd cn) with
  | _ :: _, None, Some info =>
      [{| Path := path; Size := st_size info; ModTime := st_mtime info;
          IsDir := st_isdir info; RelPath := relString o (fst cn) |}]
  | _, _, _ => []
  end.

(** The line logged for a visited node that could not be accessed. *)
Definition accessErrorOf (o : OS) (root : string) (cn : list string * node)
  : list LogEvent :=
  let path := joinAll o root (fst cn) in
  match callErr path (snd cn) with
  | Some e => [LogAccessError path e]
  | None => []
  end.

(** The aggregates agree with the records, in 64-bit arithmetic. *)
Definition aggregatesOK (inv : DirectoryInventory) : Prop :=
  TotalFiles inv = wrap64 (Z.of_nat (List.length (nonDirs (Files inv)))) /\
  TotalDirs inv = wrap64 (Z.of_nat (List.length (dirs (Files inv)))) /\
  TotalSize inv = wrap64 (sumSizes (nonDirs (Files inv))).

(** [plainName] and [compsLtb] as propositions. *)
Definition plain (o : OS) (name : string) : Prop := plainName o name = true.

Definition compsLt (a b : list string) : Prop := compsLtb a b = true.

(** Sample libraries: every hasher is FNV-1a, [xxh3.HashString] a fold of
    the same step from another start, times are printed as their layout. *)
Definition demoLibs : Libs :=
  {| sha256_New := Hash.fnv1a; whirlpool_New := Hash.fnv1a;
     ripemd160_New := Hash.fnv1a; sha3_New256 := Hash.fnv1a;
     blake2b_New256 := Hash.fnv1a; blake3_New := Hash.fnv1a;
     sha512_New := Hash.fnv1a; xxhash_New := Hash.fnv1a;
     murmur3_New128 := Hash.fnv1a; k12_NewDraft10 := Hash.fnv1a;
     xxh3_HashString := fun s => Hash.fnvWrite 0 (bytesOf s);
     Format := fun layout t => layout;
     Base := fun p => p;
     Dir_ := fun p => p |}.

(** A sample run configuration: no key file, so a key is generated; a
    clock that advances two seconds per reading; outputs that succeed. *)
Definition demoEntity : Entity :=
  {| KeyId := 48879; signature := fun data => inl ("signed:" ++ data) |}.

Definition demoEnv (t : node) : Env :=
  {| goos := Unix; dirPath := "release"; verbose := true; showProgress := true;
     gpgKeyFile := ""; tree := t;
     clock := fun n => Z.of_nat n * 2000000000;
     keyFile := KeyUnreadable (PathError "open" "" ENOENT);
     osHostname := inl "host";
     NewEntity := fun _ _ => inl demoEntity;
     osCreate := fun _ => None;
     writeOutcome := fun _ _ => None;
     shortCount := fun _ _ => 0%nat;
     copyOutcome := fun _ _ _ => None;
     closeOutcome := fun _ => None |}.

Definition freshWorld : World :=
  {| w_log := []; w_ticks := 0; w_toml := None; w_zip := None; w_tomlClosed := false |}.

(** A regular file delivered in one chunk. *)
Definition regular (content : string) (mtime : Z) : node :=
  File (Z.of_nat (String.length content)) mtime (Opened [(bytesOf content, RNil)]).

(** A directory [a] next to a file [a.txt], listed out of order. *)
Definition demoTree : node :=
  Dir 4096 10
    [("b.txt", regular "world" 3);
     ("a.txt", regular "hello" 2);
     ("a", Dir 4096 5 [("x", regular "x" 1)])].

(** Relative paths compared as strings, byte by byte. *)
Definition relPathLe (f g : FileInfo) : Prop :=
  String.leb (RelPath f) (RelPath g) = true.

(** Relative paths compared name by name. *)
Definition relPathNamesLt (o : OS) (f g : FileInfo) : Prop :=
  compsLt (splitOn (Separator o) (RelPath f)) (splitOn (Separator o) (RelPath g)).

(** The chunks the loop on one open file feeds to the hashers. *)
Fixpoint fedChunks (reads : list readOutcome) : list bytes :=
  match reads with
  | [] => []
  | (chunk, rerr) :: rest =>
      match rerr with
      | RFail _ => []
      | _ => if (List.length chunk =? 0)%nat then [] else chunk :: fedChunks rest
      end
  end.

(** The read error the loop runs into, if any. *)
Fixpoint readFailure (reads : list readOutcome) : option errno :=
  match reads with
  | [] => None
  | (chunk, rerr) :: rest =>
      match rerr with
      | RFail e => Some e
      | _ => if (List.length chunk =? 0)%nat then None else readFailure rest
      end
  end.

(** The error returned for a failed read of [f]. *)
Definition readError (f : FileInfo) (e : errno) : error :=
  Errorf "error reading file" (Path f) (PathError "read" (Path f) e).

(** The chunks a record contributes and the I/O failure it causes. *)
Definition fileChunks (env : Env) (f : FileInfo) : list bytes :=
  if IsDir f then []
  else match Open (goos env) (dirPath env) (tree env) (Path f) with
       | inl reads => fedChunks reads
       | inr _ => []
       end.

(** The error the pass returns on the record [f], if it fails there. *)
Definition fileFailure (env : Env) (f : FileInfo) : option error :=
  if IsDir f then None
  else match Open (goos env) (dirPath env) (tree env) (Path f) with
       | inl reads => option_map (readError f) (readFailure reads)
       | inr e => Some (Errorf "error opening file" (Path f) e)
       end.

(** The first failure in a list of records. *)
Fixpoint passFailure (env : Env) (files : list FileInfo) : option error :=
  match files with
  | [] => None
  | f :: rest =>
      match fileFailure env f with
      | Some e => Some e
      | None => passFailure env rest
      end
  end.

(** The chunks fed before the pass ends. *)
Fixpoint passChunks (env : Env) (files : list FileInfo) : list bytes :=
  match files with
  | [] => []
  | f :: rest =>
      match fileFailure env f with
      | Some _ => fileChunks env f
      | None => (fileChunks env f ++ passChunks env rest)%list
      end
  end.

(** The eleven digest fields computed from the bytes [data], with the
    XXH3 field as the program fills it. *)
Definition referenceDigests (L : Libs) (data : bytes) : list string :=
  [EncodeToString (Hash.hdigest (k12_NewDraft10 L) data);
   EncodeToString (Hash.hdigest (blake3_New L) data);
   EncodeToString (Hash.hdigest (sha3_New256 L) data);
   EncodeToString (Hash.hdigest (blake2b_New256 L) data);
   EncodeToString (Hash.hdigest (sha512_New L) data);
   EncodeToString (Hash.hdigest (whirlpool_New L) data);
   EncodeToString (Hash.hdigest (ripemd160_New L) data);
   formatHex false (xxh3_HashString L "Sample for XXH3");
   EncodeToString (Hash.hdigest (sha256_New L) data);
   EncodeToString (Hash.hdigest (xxhash_New L) data);
   EncodeToString (Hash.hdigest (murmur3_New128 L) data)].

(** The key is at hand and signs whatever it is given. *)
Definition gpgReady (env : Env) (entity : Entity) : Prop :=
  (forall w, fst (getGPGEntity env w) = inl entity) /\
  (forall data, exists sig, signData entity data = inl sig).

(** The two output files. *)
Definition disk (w : World) : option (list TomlBlock) * option ZipFile :=
  (w_toml w, w_zip w).

(** What a visited node contributes to the pass: nothing for the root,
    a directory or an inaccessible entry. *)
Definition nodeChunks (cn : list string * node) : list bytes :=
  match fst cn, snd cn with
  | _ :: _, File _ _ (Opened reads) => fedChunks reads
  | _, _ => []
  end.

(** Whether the pass fails on a visited node. *)
Definition nodeFails (cn : list string * node) : bool :=
  match fst cn, snd cn with
  | _ :: _, File _ _ (OpenErr _) => true
  | _ :: _, File _ _ (Opened reads) =>
      match readFailure reads with Some _ => true | None => false end
  | _, _ => false
  end.

(** The bytes of the regular files, in the order of the walk. *)
Definition treeBytes (t : node) : bytes :=
  List.concat (flat_map nodeChunks (walkOrder t [])).

(** Every file of the tree opens and reads to its end. *)
Definition treeReadable (t : node) : bool :=
  forallb (fun cn => negb (nodeFails cn)) (walkOrder t []).

(** The first two phases of [main]: the walk, then the digest pass on
    the inventory it returned. *)
Definition inventoryAndHashes (L : Libs) (env : Env) (w : World)
  : (HashResult * option error) * World :=
  let '((inventory, _), w1) := createDirectoryInventory env (dirPath env) w in
  generateDirectoryHashes L env inventory w1.

(** An entry removed between the listing of the root and its [lstat],
    and a directory that cannot be listed, between accessible entries. *)
Definition brokenTree : node :=
  Dir 4096 10
    [("a.txt", regular "hello" 2);
     ("gone", NoStat ENOENT);
     ("locked", DirUnreadable 4096 7 EACCES);
     ("z.txt", regular "world" 3)].

(** A file whose second read fails, after a readable one. *)
Definition failingTree : node :=
  Dir 4096 10
    [("a.txt", regular "hello" 2);
     ("b.bin", File 8 3 (Opened [(bytesOf "wor", RNil); ([], RFail EIO)]))].

(** A root that lists one file. *)
Definition oneFile (content : string) : node :=
  Dir 4096 10 [("a.txt", regular content 2)].

(** Two trees that agree up to [leaf], the order in which directories
    list their entries, and such differences further down. *)
Inductive similar (leaf : node -> node -> Prop) : node -> node -> Prop :=
| sim_leaf n n' : leaf n n' -> similar leaf n n'
| sim_perm sz mt es es' :
    Permutation es es' -> similar leaf (Dir sz mt es) (Dir sz mt es')
| sim_child sz mt l1 k c c' l2 :
    similar leaf c c' ->
    similar leaf (Dir sz mt (l1 ++ (k, c) :: l2)) (Dir sz mt (l1 ++ (k, c') :: l2))
| sim_refl n : similar leaf n n
| sim_trans n1 n2 n3 :
    similar leaf n1 n2 -> similar leaf n2 n3 -> similar leaf n1 n3.

(** The same tree, its directories enumerated in another order. *)
Definition reordered : node -> node -> Prop := similar (fun _ _ => False).

(** Two nodes that hold the same data: files that read to their end and
    deliver the same bytes, whatever their size field, modification time
    and chunking; a directory with other metadata. *)
Inductive sameData : node -> node -> Prop :=
| same_file sz mt reads sz' mt' reads' :
    readFailure reads = None -> readFailure reads' = None ->
    List.concat (fedChunks reads) = List.concat (fedChunks reads') ->
    sameData (File sz mt (Opened reads)) (File sz' mt' (Opened reads'))
| same_dir sz mt sz' mt' es :
    sameData (Dir sz mt es) (Dir sz' mt' es).

(** Trees with the same names and the same bytes. *)
Definition sameContent : node -> node -> Prop := similar sameData.

(** What the digest pass can tell about a visited node. *)
Definition dataOf (cn : list string * node) : bytes * bool :=
  (List.concat (nodeChunks cn), nodeFails cn).

(** The two files of the sample scenario, listed out of order. *)
Definition pairTree : node :=
  Dir 4096 10 [("b.txt", regular "world" 3); ("a.txt", regular "hello" 2)].

(** [pairTree] again: enumerated in the other order, with other times
    and sizes, and [a.txt] read in two chunks. *)
Definition pairTreeAgain : node :=
  Dir 0 99
    [("a.txt", File 0 77 (Opened [(bytesOf "he", RNil); (bytesOf "llo", REOF)]));
     ("b.txt", regular "world" 3)].

(** Another configuration: a key loaded from a file, another root path,
    another clock, no progress reports. *)
Definition otherEntity : Entity :=
  {| KeyId := 7; signature := fun data => inl "other signature" |}.

Definition otherEnv (t : node) : Env :=
  {| goos := Unix; dirPath := "/srv/mirror"; verbose := false; showProgress := false;
     gpgKeyFile := "key.asc"; tree := t;
     clock := fun n => 1000 + Z.of_nat n;
     keyFile := KeyLoaded otherEntity;
     osHostname := inr (LibError "no hostname");
     NewEntity := fun _ _ => inr (LibError "no entropy");
     osCreate := fun _ => None;
     writeOutcome := fun _ _ => None;
     shortCount := fun _ _ => 0%nat;
     copyOutcome := fun _ _ _ => None;
     closeOutcome := fun _ => None |}.

(** The reads of a file end without error and deliver [content]. *)
Definition delivers (reads : list readOutcome) (content : bytes) : Prop :=
  readFailure reads = None /\ List.concat (fedChunks reads) = content.

(** The member name of an entry below the root. *)
Definition zipName (o : OS) (comps : list string) (isdir : bool) : string :=
  let name0 := ReplaceAll (relString o comps) "\"%char "/"%char in
  if isdir then name0 ++ "/" else name0.

(** The writer of a member when no write to the archive fails. *)
Definition memberWriter (name : string) : Writer :=
  if HasSuffix name "/" then dirWriter else fun _ chunk => (chunk, None).

(** The member written for a visited node when no write to the archive
    fails. *)
Definition memberOf (env : Env) (cn : list string * node) : ZipEntry :=
  let path := joinAll (goos env) (dirPath env) (fst cn) in
  let name := zipName (goos env) (fst cn) (isDirNode (snd cn)) in
  {| ze_name := name;
     ze_data := match snd cn with
                | File _ _ (Opened reads) => fst (ioCopy path (memberWriter name) reads 0 [])
                | _ => []
                end |}.

(** The error that archiving a visited node runs into, if any, when no
    write to the archive fails. *)
Definition nodeError (env : Env) (cn : list string * node) : option error :=
  let path := joinAll (goos env) (dirPath env) (fst cn) in
  let name := zipName (goos env) (fst cn) (isDirNode (snd cn)) in
  match callErr path (snd cn) with
  | Some e => Some e
  | None =>
      match fst cn with
      | [] => None
      | _ :: _ =>
          if longName name then Some (LibError "zip: FileHeader.Name too long")
          else
            match snd cn with
            | File _ _ (OpenErr e) => Some (PathError "open" path e)
            | File _ _ (Opened reads) => snd (ioCopy path (memberWriter name) reads 0 [])
            | _ => None
            end
      end
  end.

(** Whether the deferred [Close] calls on a file succeed. *)
Definition closes (env : Env) (path : string) : bool :=
  match closeOutcome env path with
  | None => true
  | Some _ => false
  end.

(** Every node of the tree can be archived. *)
Definition treeArchivable (env : Env) : bool :=
  forallb (fun cn => match nodeError env cn with Some _ => false | None => true end)
    (walkOrder (tree env) []).

(** The archive with one more member. *)
Definition appendMember (m : ZipEntry) (w : World) : World :=
  setZip {| z_entries := (z_entries (zipOf w) ++ [m])%list;
            z_closed := z_closed (zipOf w) |} w.

(** An empty directory, a file and a nested file. *)
Definition archiveTree : node :=
  Dir 4096 10
    [("src", Dir 4096 6 [("main.go", regular "package main" 4)]);
     ("empty", Dir 4096 5 []);
     ("a.txt", regular "hello" 2)].

(** The first block of the manifest, once written. *)
Definition manifestHead (w : World) : option TomlHead :=
  match w_toml w with
  | Some (TomlHeader h :: _) => Some h
  | _ => None
  end.



(** [addsFile f t t']: [t'] is [t] with the entry [f] added to one of its
    directories; the directories on the way may change size and time. *)
Inductive addsFile (f : node) : node -> node -> Prop :=
| add_here sz mt sz' mt' l1 l2 k :
    addsFile f (Dir sz mt (l1 ++ l2)) (Dir sz' mt' (l1 ++ (k, f) :: l2))
| add_below sz mt sz' mt' l1 l2 k c c' :
    addsFile f c c' ->
    addsFile f (Dir sz mt (l1 ++ (k, c) :: l2)) (Dir sz' mt' (l1 ++ (k, c') :: l2)).

(** The sum of a list of integers. *)
Definition zsum (l : list Z) : Z := fold_right Z.add 0 l.

(** The records of the inventory of a tree. *)
Definition inventoryFiles (env : Env) : list FileInfo :=
  flat_map (recordOf (goos env) (dirPath env)) (walkOrder (tree env) []).

(** [pairTree] with an empty file added to the root. *)
Definition pairTreePlus : node :=
  Dir 4096 11
    [("b.txt", regular "world" 3); ("a.txt", regular "hello" 2);
     ("empty.txt", File 0 9 (Opened []))].

(** ** Further readings: the manifest *)

(** The file table written for a record. *)
Definition tableOf (L : Libs) (f : FileInfo) : TomlBlock :=
  TomlFileTable (RelPath f) (Size f) (Format L "2006-01-02 15:04:05" (ModTime f)).

(** The template block [createTomlFile] formats when the clock reads [t]. *)
Definition headOf (L : Libs) (dirName : string) (inv : DirectoryInventory)
    (r : HashResult) (t : Z) : TomlHead :=
  {| generated_on := Format L "2006-01-02 15:04:05" t; name := dirName;
     total_files := TotalFiles inv; total_directories := TotalDirs inv;
     total_size_bytes := TotalSize inv;
     inventory_date := Format L "2006-01-02 15:04:05" (InventoryAt inv);
     hashes := r |}.

(** The whole manifest: the template block, then one table per
    non-directory record, in the order of the inventory. *)
Definition fullManifest (L : Libs) (dirName : string) (inv : DirectoryInventory)
    (r : HashResult) (t : Z) : list TomlBlock :=
  TomlHeader (headOf L dirName inv r t) :: map (tableOf L) (nonDirs (Files inv)).

(** What a failed write number [k] to the manifest leaves of the block
    [b]: nothing, or its first bytes. *)
Definition tornBlock (env : Env) (tomlPath : string) (k : nat) (b : TomlBlock)
  : list TomlBlock :=
  if (shortCount env tomlPath k =? 0)%nat then []
  else [TomlTorn b (shortCount env tomlPath k)].

(** The key and the size of a file table. *)
Definition tableKey (b : TomlBlock) : string :=
  match b with
  | TomlFileTable k _ _ => k
  | _ => ""
  end.

Definition tableSize (b : TomlBlock) : Z :=
  match b with
  | TomlFileTable _ sz _ => sz
  | _ => 0
  end.

(** The inventory of [demoTree]. *)
Definition demoInventory : DirectoryInventory :=
  fst (fst (createDirectoryInventory (demoEnv demoTree) "release" freshWorld)).

(** A disk that fills up: the write number [k] to any file fails after
    seven bytes. *)
Definition fullDiskEnv (k : nat) (t : node) : Env :=
  {| goos := Unix; dirPath := "release"; verbose := true; showProgress := true;
     gpgKeyFile := ""; tree := t;
     clock := fun n => Z.of_nat n * 2000000000;
     keyFile := KeyUnreadable (PathError "open" "" ENOENT);
     osHostname := inl "host";
     NewEntity := fun _ _ => inl demoEntity;
     osCreate := fun _ => None;
     writeOutcome := fun _ j => if Nat.eqb j k then Some ENOSPC else None;
     shortCount := fun _ _ => 7%nat;
     copyOutcome := fun _ _ _ => None;
     closeOutcome := fun _ => None |}.

(** ** Further readings: the digest pass *)

(** The text the digest pass signs: the root, the values it reports and a
    time stamp. *)
Definition signedText (root : string) (r : HashResult) (stamp : string) : string :=
  "Directory: " ++ root ++
  nl ++ "SHA256: " ++ SHA256 r ++ nl ++ "SHA512: " ++ SHA512 r ++
  nl ++ "BLAKE2b: " ++ Blake2b r ++ nl ++ "BLAKE3: " ++ Blake3 r ++
  nl ++ "SHA3-256: " ++ SHA3_256 r ++ nl ++ "KangarooTwelve: " ++ KangarooTwelve r ++
  nl ++ "Whirlpool: " ++ Whirlpool r ++ nl ++ "RIPEMD-160: " ++ RIPEMD160 r ++
  nl ++ "XXH3: " ++ XXH3 r ++ nl ++ "XXHash64: " ++ XXHash64 r ++
  nl ++ "Murmur3: " ++ Murmur3 r ++
  nl ++ "Timestamp: " ++ stamp.

(** The records the pass opens: the non-directory records up to the
    first one on which it fails, that one included. *)
Fixpoint attempted (env : Env) (files : list FileInfo) : list FileInfo :=
  match files with
  | [] => []
  | f :: rest =>
      if IsDir f then attempted env rest
      else f :: match fileFailure env f with
                | Some _ => []
                | None => attempted env rest
                end
  end.

(** The lines logged when the pass comes to the key. *)
Definition keyLog (env : Env) : list LogEvent :=
  LogMessage "Generating GPG signature..." ::
  (if String.eqb (gpgKeyFile env) "" then
     [LogMessage "No GPG key provided, generating a new one..."]
   else []).

(** A key file that cannot be read, and a key that cannot sign. *)
Definition noKeyEnv (t : node) : Env :=
  {| goos := Unix; dirPath := "release"; verbose := false; showProgress := false;
     gpgKeyFile := "missing.asc"; tree := t;
     clock := fun n => Z.of_nat n;
     keyFile := KeyUnreadable (PathError "open" "missing.asc" ENOENT);
     osHostname := inl "host";
     NewEntity := fun _ _ => inl demoEntity;
     osCreate := fun _ => None;
     writeOutcome := fun _ _ => None;
     shortCount := fun _ _ => 0%nat;
     copyOutcome := fun _ _ _ => None;
     closeOutcome := fun _ => None |}.

(** Progress reports with a clock that stands still. *)
Definition frozenEnv (t : node) : Env :=
  {| goos := Unix; dirPath := "release"; verbose := true; showProgress := true;
     gpgKeyFile := ""; tree := t;
     clock := fun _ => 42;
     keyFile := KeyUnreadable (PathError "open" "" ENOENT);
     osHostname := inl "host";
     NewEntity := fun _ _ => inl demoEntity;
     osCreate := fun _ => None;
     writeOutcome := fun _ _ => None;
     shortCount := fun _ _ => 0%nat;
     copyOutcome := fun _ _ _ => None;
     closeOutcome := fun _ => None |}.

Definition muteEntity : Entity :=
  {| KeyId := 7; signature := fun _ => inr (LibError "openpgp: signing failed") |}.

Definition muteKeyEnv (t : node) : Env :=
  {| goos := Unix; dirPath := "release"; verbose := false; showProgress := false;
     gpgKeyFile := "key.asc"; tree := t;
     clock := fun n => Z.of_nat n;
     keyFile := KeyLoaded muteEntity;
     osHostname := inl "host";
     NewEntity := fun _ _ => inl demoEntity;
     osCreate := fun _ => None;
     writeOutcome := fun _ _ => None;
     shortCount := fun _ _ => 0%nat;
     copyOutcome := fun _ _ _ => None;
     closeOutcome := fun _ => None |}.

(** The inventory of [pairTree]. *)
Definition pairInventory : DirectoryInventory :=
  fst (fst (createDirectoryInventory (demoEnv pairTree) "release" freshWorld)).

(** The digest pass on [pairTree]. *)
Definition pairRun : (HashResult * option error) * World :=
  generateDirectoryHashes demoLibs (demoEnv pairTree) pairInventory freshWorld.

(** A node the walk cannot access: its [lstat] fails, or it is a
    directory that cannot be listed. *)
Definition inaccessible (n : node) : bool :=
  match n with
  | NoStat _ | DirUnreadable _ _ _ => true
  | _ => false
  end.

(** [brokenTree] without the entry that vanished. *)
Definition lockedTree : node :=
  Dir 4096 10
    [("a.txt", regular "hello" 2);
     ("locked", DirUnreadable 4096 7 EACCES);
     ("z.txt", regular "world" 3)].

(** * Properties *)

(** ** Induction on trees *)

Lemma node_induction (P : node -> Prop) :
  (forall sz mt h, P (File sz mt h)) ->
  (forall sz mt es, Forall (fun nc => P (snd nc)) es -> P (Dir sz mt es)) ->
  (forall sz mt e, P (DirUnreadable sz mt e)) ->
  (forall e, P (NoStat e)) ->
  forall n, P n.
Proof.
  intros HF HD HU HN. fix IH 1.
  intros [sz mt h|sz mt es|sz mt e|e];
    [apply HF | apply HD | apply HU | apply HN].
  induction es as [|[k c] es IHes]; constructor; [simpl; apply IH | exact IHes].
Qed.

(** ** The order of names *)

Lemma ltb_lt (a b : string) : String.ltb a b = true <-> String_as_OT.lt a b.
Proof.
  unfold String.ltb. rewrite <- String_as_OT.cmp_lt. unfold String_as_OT.cmp.
  destruct (String.compare a b); split; congruence.
Qed.

Lemma ltb_trans (a b c : string) :
  String.ltb a b = true -> String.ltb b c = true -> String.ltb a c = true.
Proof.
  rewrite !ltb_lt. apply String_as_OT.lt_trans.
Qed.

Lemma ltb_irrefl (a : string) : String.ltb a a = false.
Proof.
  destruct (String.ltb a a) eqn:E; [|reflexivity].
  apply ltb_lt in E. exfalso. exact (String_as_OT.lt_not_eq _ _ E eq_refl).
Qed.

Lemma leb_ltb_or_eq (a b : string) :
  String.leb a b = true <-> String.ltb a b = true \/ a = b.
Proof.
  unfold String.leb, String.ltb. split.
  - destruct (String.compare a b) eqn:E; try discriminate; auto.
    right. now apply String.compare_eq_iff.
  - intros [H| ->].
    + destruct (String.compare a b); congruence.
    + assert (String.compare b b = Eq) as -> by now apply String_as_OT.cmp_eq.
      reflexivity.
Qed.

Lemma leb_trans (a b c : string) :
  String.leb a b = true -> String.leb b c = true -> String.leb a c = true.
Proof.
  rewrite !leb_ltb_or_eq. intros [H1| ->] [H2| ->]; auto.
  left. eapply ltb_trans; eauto.
Qed.

Lemma leb_false_ltb (a b : string) : String.leb a b = false -> String.ltb b a = true.
Proof.
  unfold String.leb, String.ltb. rewrite (String.compare_antisym a b).
  destruct (String.compare b a); simpl; congruence.
Qed.

(** ** Sorting the names of a directory *)

Section Sorting.
Context {A : Type}.
Implicit Types (x : string * A) (l : list (string * A)).

Lemma insertByName_perm x l : Permutation (insertByName x l) (x :: l).
Proof.
  induction l as [|y l IH]; simpl; [reflexivity|].
  destruct (String.leb (fst x) (fst y)); [reflexivity|].
  rewrite IH. apply perm_swap.
Qed.

Lemma sortByName_perm l : Permutation (sortByName l) l.
Proof.
  induction l as [|x l IH]; simpl; [reflexivity|].
  rewrite insertByName_perm. now constructor.
Qed.

Lemma insertByName_sorted x l :
  StronglySorted keyLe l -> StronglySorted keyLe (insertByName x l).
Proof.
  induction 1 as [|y l Hs IH Hall]; simpl.
  - repeat constructor.
  - destruct (String.leb (fst x) (fst y)) eqn:E.
    + constructor; [now constructor|]. constructor; [exact E|].
      eapply Forall_impl; [|exact Hall]. intros z Hz.
      unfold keyLe in *. eapply leb_trans; eauto.
    + constructor; [exact IH|].
      eapply Permutation_Forall; [symmetry; apply insertByName_perm|].
      constructor; [|exact Hall].
      unfold keyLe. apply leb_ltb_or_eq. left. now apply leb_false_ltb.
Qed.

Lemma sortByName_sorted l : StronglySorted keyLe (sortByName l).
Proof.
  induction l; simpl; [constructor|]. now apply insertByName_sorted.
Qed.

Lemma sortByName_strict l :
  NoDup (map fst l) -> StronglySorted keyLt (sortByName l).
Proof.
  intros Hnd.
  assert (Hnd' : NoDup (map fst (sortByName l))).
  { eapply Permutation_NoDup; [|exact Hnd].
    apply Permutation_map. symmetry. apply sortByName_perm. }
  pose proof (sortByName_sorted l) as Hs. revert Hnd'.
  induction Hs as [|y r Hs IH Hall]; intros Hnd'; [constructor|].
  inversion Hnd' as [|? ? Hnotin Hnd'']; subst.
  constructor; [now apply IH|].
  rewrite Forall_forall in *. intros z Hz.
  specialize (Hall z Hz). unfold keyLe, keyLt in *.
  apply leb_ltb_or_eq in Hall. destruct Hall as [Hlt|Heq]; [exact Hlt|].
  exfalso. apply Hnotin. rewrite Heq. now apply in_map.
Qed.

(** Two strictly sorted lists with the same elements are equal. *)
Lemma strict_sorted_unique l1 l2 :
  StronglySorted keyLt l1 -> StronglySorted keyLt l2 ->
  Permutation l1 l2 -> l1 = l2.
Proof.
  intros H1. revert l2. induction H1 as [|a r1 Hs1 IH Hall1]; intros l2 H2 Hp.
  - apply Permutation_nil in Hp. now subst.
  - destruct l2 as [|b r2]; [symmetry in Hp; now apply Permutation_nil in Hp|].
    inversion H2 as [|? ? Hs2 Hall2]; subst.
    assert (a = b) as ->.
    { assert (Ha : In a (b :: r2)) by (eapply Permutation_in; [exact Hp|now left]).
      assert (Hb : In b (a :: r1)) by (eapply Permutation_in; [symmetry; exact Hp|now left]).
      destruct Ha as [Ha|Ha]; [now subst|].
      destruct Hb as [Hb|Hb]; [now subst|].
      rewrite Forall_forall in Hall1, Hall2.
      specialize (Hall1 _ Hb). specialize (Hall2 _ Ha). unfold keyLt in *.
      pose proof (ltb_trans _ _ _ Hall1 Hall2) as Hc.
      rewrite ltb_irrefl in Hc. discriminate. }
    f_equal. apply IH; [exact Hs2|]. eapply Permutation_cons_inv; eauto.
Qed.

Lemma sortByName_unique l s :
  NoDup (map fst l) -> StronglySorted keyLt s -> Permutation s l ->
  sortByName l = s.
Proof.
  intros Hnd Hs Hp. apply strict_sorted_unique; [now apply sortByName_strict|exact Hs|].
  rewrite sortByName_perm. now symmetry.
Qed.

End Sorting.

(** Sorting looks at the names only. *)
Lemma sortByName_map {A B : Type} (g : A -> B) (l : list (string * A)) :
  sortByName (map (fun kv => (fst kv, g (snd kv))) l)
  = map (fun kv => (fst kv, g (snd kv))) (sortByName l).
Proof.
  induction l as [|x l IH]; simpl; [reflexivity|]. rewrite IH.
  generalize (sortByName l). intros s.
  induction s as [|y s IHs]; simpl; [reflexivity|].
  destruct (String.leb (fst x) (fst y)); simpl; [reflexivity|]. now rewrite IHs.
Qed.

(** ** The walk as a list of visits *)

Lemma joinAll_snoc (o : OS) (root : string) (pre : list string) (k : string) :
  joinAll o root (pre ++ [k]) = Join o (joinAll o root pre) k.
Proof. unfold joinAll. now rewrite fold_left_app. Qed.

Section WalkAsList.
Context {S : Type}.
Variable o : OS.
Variable fn : WalkFunc (S := S).
Variable root : string.

(** On what the walk hands it, the callback never answers [SkipDir]. *)
Hypothesis fn_no_skip : forall path n s e,
    snd (fn path (callInfo path n) (callErr path n) s) = Some e ->
    isSkipDir e = false.

Lemma runVisits_app (l1 l2 : list (list string * node)) (s : S) :
  runVisits o fn root (l1 ++ l2) s =
  match runVisits o fn root l1 s with
  | (s', None) => runVisits o fn root l2 s'
  | (s', Some e) => (s', Some e)
  end.
Proof.
  revert s. induction l1 as [|[comps n] l1 IH]; intro s; simpl; [reflexivity|].
  destruct (fn _ _ _ s) as [s' [e|]]; [reflexivity|apply IH].
Qed.

Lemma runVisits_no_skip (l : list (list string * node)) (s s' : S) (e : error) :
  runVisits o fn root l s = (s', Some e) -> isSkipDir e = false.
Proof.
  revert s. induction l as [|[comps n] l IH]; intro s; simpl; [discriminate|].
  destruct (fn _ _ _ s) as [s1 [e1|]] eqn:E.
  - intros H. inversion H; subst. eapply fn_no_skip. rewrite E. reflexivity.
  - apply IH.
Qed.

Lemma walk_runVisits (n : node) :
  forall pre s,
    walk o fn n (joinAll o root pre) s = runVisits o fn root (walkOrder n pre) s.
Proof.
  induction n as [sz mt h|sz mt es IH|sz mt e|e] using node_induction; intros pre s.
  - simpl. unfold callInfo, callErr. simpl.
    destruct (fn _ _ _ s) as [s' [e|]]; reflexivity.
  - simpl.
    change (fst (Lstat (joinAll o root pre) (Dir sz mt es)))
      with (callInfo (joinAll o root pre) (Dir sz mt es)).
    change (@None error) with (callErr (joinAll o root pre) (Dir sz mt es)) at 1.
    destruct (fn _ _ _ s) as [s1 [e|]]; [reflexivity|].
    rewrite (map_ext _ (fun kv => (fst kv, (fun c => (swallowsSkipDir c, walk o fn c)) (snd kv))))
      by (intros [k c]; reflexivity).
    rewrite (map_ext (fun nc : string * node => let (name, c) := nc in (name, walkOrder c))
               (fun kv => (fst kv, walkOrder (snd kv))))
      by (intros [k c]; reflexivity).
    rewrite (sortByName_map (fun c => (swallowsSkipDir c, walk o fn c))).
    rewrite (sortByName_map walkOrder).
    assert (IH' : Forall (fun nc : string * node => forall pre s,
                     walk o fn (snd nc) (joinAll o root pre) s
                     = runVisits o fn root (walkOrder (snd nc) pre) s) (sortByName es)).
    { eapply Permutation_Forall; [symmetry; apply sortByName_perm|exact IH]. }
    clear IH. revert s1. generalize dependent (sortByName es). intros l IH'.
    induction IH' as [|[k c] l Hc _ IHl]; intro s1; simpl.
    + reflexivity.
    + rewrite runVisits_app. rewrite <- joinAll_snoc. simpl in Hc. rewrite Hc.
      destruct (runVisits o fn root (walkOrder c (pre ++ [k])) s1) as [s2 [e|]] eqn:E.
      * rewrite (runVisits_no_skip _ _ _ _ E). rewrite andb_false_r. reflexivity.
      * apply IHl.
  - simpl. unfold callInfo, callErr. simpl.
    destruct (fn _ _ _ s) as [s' [e'|]]; reflexivity.
  - simpl. unfold callInfo, callErr. simpl.
    destruct (fn _ _ _ s) as [s' [e'|]]; reflexivity.
Qed.

End WalkAsList.

Section WalkFromRoot.
Context {S : Type}.
Variable o : OS.
Variable fn : WalkFunc (S := S).
Variable root : string.

(** On what the walk hands it, the callback answers neither [SkipDir]
    nor [SkipAll]. *)
Hypothesis fn_no_skip : forall path n s e,
    snd (fn path (callInfo path n) (callErr path n) s) = Some e ->
    isSkip e = false.

Lemma runVisits_error (l : list (list string * node)) (s s' : S) (e : error) :
  runVisits o fn root l s = (s', Some e) -> isSkip e = false.
Proof.
  revert s. induction l as [|[comps n] l IH]; intro s; simpl; [discriminate|].
  destruct (fn _ _ _ s) as [s1 [e1|]] eqn:E.
  - intros H. inversion H; subst. eapply fn_no_skip. rewrite E. reflexivity.
  - apply IH.
Qed.

Lemma Walk_runVisits (fs : node) (s : S) :
  Walk o fn root fs s = runVisits o fn root (walkOrder fs []) s.
Proof.
  unfold Walk. change root with (joinAll o root []) at 1.
  rewrite (walk_runVisits o fn root).
  - destruct (runVisits o fn root (walkOrder fs []) s) as [s' [e|]] eqn:E; [|reflexivity].
    apply runVisits_error in E. destruct e; try reflexivity; discriminate.
  - intros path n s0 e He. apply fn_no_skip in He. destruct e; try reflexivity; discriminate.
Qed.

End WalkFromRoot.

(** ** Paths as strings *)

Lemma append_assoc (a b c : string) : ((a ++ b) ++ c)%string = (a ++ (b ++ c))%string.
Proof. induction a as [|x a IH]; simpl; [reflexivity|]. now rewrite IH. Qed.

Lemma append_length (a b : string) :
  String.length (a ++ b) = (String.length a + String.length b)%nat.
Proof. induction a as [|x a IH]; simpl; [reflexivity|]. now rewrite IH. Qed.

Lemma stripPrefix_append (p s : string) : stripPrefix p (p ++ s) = Some s.
Proof.
  induction p as [|a p IH]; simpl; [reflexivity|]. now rewrite Ascii.eqb_refl.
Qed.

Section PathStrings.
Variable o : OS.

Lemma fold_Join_append (a b : string) (cs : list string) :
  fold_left (Join o) cs (a ++ b)%string = (a ++ fold_left (Join o) cs b)%string.
Proof.
  revert b. induction cs as [|c cs IH]; intro b; simpl; [reflexivity|].
  unfold Join at 2. rewrite append_assoc. apply (IH (Join o b c)).
Qed.

Lemma joinAll_cons (root c : string) (cs : list string) :
  joinAll o root (c :: cs)
  = (root ++ String (Separator o) (relString o (c :: cs)))%string.
Proof.
  unfold joinAll, relString. simpl. unfold Join at 2.
  rewrite fold_Join_append. f_equal.
  change (String (Separator o) c) with (String (Separator o) "" ++ c)%string.
  now rewrite fold_Join_append.
Qed.

Lemma joinAll_neq_root (root c : string) (cs : list string) :
  String.eqb (joinAll o root (c :: cs)) root = false.
Proof.
  apply String.eqb_neq. intros H. apply (f_equal String.length) in H.
  rewrite joinAll_cons, append_length in H. simpl in H. lia.
Qed.

Lemma Rel_joinAll (root : string) (comps : list string) :
  Rel o root (joinAll o root comps) = (relString o comps, None).
Proof.
  unfold Rel. destruct comps as [|c cs].
  - simpl. now rewrite String.eqb_refl.
  - rewrite joinAll_neq_root, joinAll_cons.
    change (String (Separator o) (relString o (c :: cs)))
      with (String (Separator o) "" ++ relString o (c :: cs))%string.
    rewrite <- append_assoc. now rewrite stripPrefix_append.
Qed.

Lemma splitOn_plain (name : string) :
  hasChar (Separator o) name = false -> splitOn (Separator o) name = [name].
Proof.
  induction name as [|a name IH]; simpl; [reflexivity|].
  intros H. apply orb_false_iff in H. destruct H as [Ha Hn].
  rewrite Ha. now rewrite (IH Hn).
Qed.

Lemma splitOn_append (name rest : string) :
  hasChar (Separator o) name = false ->
  splitOn (Separator o) (name ++ String (Separator o) rest)
  = name :: splitOn (Separator o) rest.
Proof.
  induction name as [|a name IH]; simpl; intros H.
  - now rewrite Ascii.eqb_refl.
  - apply orb_false_iff in H. destruct H as [Ha Hn].
    rewrite Ha. now rewrite (IH Hn).
Qed.

Lemma relString_snoc (c : string) (cs : list string) (k : string) :
  relString o ((c :: cs) ++ [k]) = Join o (relString o (c :: cs)) k.
Proof. unfold relString. simpl. now rewrite fold_left_app. Qed.

(** The names are read back from a relative path. *)
Lemma splitOn_relString (comps : list string) :
  comps <> [] ->
  Forall (fun name => hasChar (Separator o) name = false) comps ->
  splitOn (Separator o) (relString o comps) = comps.
Proof.
  intros Hne Hall. destruct comps as [|c cs]; [congruence|]. clear Hne.
  inversion Hall as [|? ? Hc Hcs]; subst. clear Hall.
  revert c Hc. induction Hcs as [|k cs Hk Hcs IH]; intros c Hc; simpl.
  - now apply splitOn_plain.
  - unfold relString in IH. simpl in IH.
    assert (E : fold_left (Join o) cs (Join o c k)
                = (c ++ String (Separator o) (fold_left (Join o) cs k))%string).
    { unfold Join at 2. rewrite fold_Join_append. f_equal.
      change (String (Separator o) k) with (String (Separator o) "" ++ k)%string.
      now rewrite fold_Join_append. }
    rewrite E. rewrite (splitOn_append _ _ Hc). f_equal. now apply IH.
Qed.

Lemma below_joinAll (root : string) (comps : list string) :
  Forall (fun name => hasChar (Separator o) name = false) comps ->
  below o root (joinAll o root comps) = Some comps.
Proof.
  intros Hall. unfold below. destruct comps as [|c cs].
  - simpl. now rewrite String.eqb_refl.
  - rewrite joinAll_neq_root, joinAll_cons.
    change (String (Separator o) (relString o (c :: cs)))
      with (String (Separator o) "" ++ relString o (c :: cs))%string.
    rewrite <- append_assoc, stripPrefix_append.
    f_equal. apply splitOn_relString; [discriminate|exact Hall].
Qed.

End PathStrings.

(** ** The inventory as a list of visits *)

Lemma wrap64_small (z : Z) : - 2 ^ 63 <= z < 2 ^ 63 -> wrap64 z = z.
Proof. intros H. unfold wrap64. rewrite Z.mod_small; lia. Qed.

Lemma add64_wrap64 (a b : Z) : add64 (wrap64 a) b = wrap64 (a + b).
Proof.
  unfold add64, wrap64. f_equal.
  replace ((a + 2 ^ 63) mod 2 ^ 64 - 2 ^ 63 + b + 2 ^ 63)
    with ((a + 2 ^ 63) mod 2 ^ 64 + b) by ring.
  rewrite Zplus_mod_idemp_l. f_equal. ring.
Qed.

Lemma sumSizes_app (l1 l2 : list FileInfo) :
  sumSizes (l1 ++ l2) = sumSizes l1 + sumSizes l2.
Proof. induction l1 as [|f l1 IH]; simpl; [reflexivity|]. rewrite IH. ring. Qed.

Section InventoryFacts.
Variable env : Env.
Variable root : string.

Let o := goos env.
Let visit := inventoryVisit env root.

Local Ltac facts :=
  split; [|split; [|split; [|split; [|split; [|split; [|split]]]]]]; auto.

Lemma inventoryVisit_step (cn : list string * node) (inv : DirectoryInventory) (w : World) :
  let path := joinAll o root (fst cn) in
  exists inv' w',
    visit path (callInfo path (snd cn)) (callErr path (snd cn)) (inv, w)
      = ((inv', w'), None) /\
    Files inv' = (Files inv ++ recordOf o root cn)%list /\
    w_log w' = (w_log w ++ accessErrorOf o root cn)%list /\
    RootDir inv' = RootDir inv /\ InventoryAt inv' = InventoryAt inv /\
    w_ticks w' = w_ticks w /\ w_toml w' = w_toml w /\ w_zip w' = w_zip w /\
    (aggregatesOK inv -> aggregatesOK inv').
Proof.
  destruct cn as [comps n]. simpl.
  unfold visit, inventoryVisit, recordOf, accessErrorOf. simpl.
  destruct (callErr (joinAll o root comps) n) as [e|] eqn:Ee.
  - eexists _, _. split; [reflexivity|].
    destruct comps; simpl; rewrite ?app_nil_r; facts.
  - fold o. rewrite Rel_joinAll.
    destruct comps as [|c cs].
    + simpl. rewrite String.eqb_refl.
      eexists _, _. split; [reflexivity|]. simpl. rewrite !app_nil_r. facts.
    + rewrite joinAll_neq_root.
      destruct n as [sz mt h|sz mt es|sz mt e|e]; simpl in Ee; try discriminate;
        unfold callInfo; simpl;
        (eexists _, _; split; [reflexivity|]; simpl; rewrite app_nil_r; facts).
      * intros (HF & HD & HS). unfold aggregatesOK, nonDirs, dirs in *. simpl.
        rewrite !filter_app. simpl. rewrite !app_nil_r, !length_app. simpl.
        rewrite HF, HD, HS, !add64_wrap64, sumSizes_app. simpl.
        repeat split; f_equal; lia.
      * intros (HF & HD & HS). unfold aggregatesOK, nonDirs, dirs in *. simpl.
        rewrite !filter_app. simpl. rewrite !app_nil_r, !length_app. simpl.
        rewrite HF, HD, HS, !add64_wrap64.
        repeat split; f_equal; lia.
Qed.

Lemma inventory_visits (l : list (list string * node)) (inv : DirectoryInventory) (w : World) :
  exists inv' w',
    runVisits o visit root l (inv, w) = ((inv', w'), None) /\
    Files inv' = (Files inv ++ flat_map (recordOf o root) l)%list /\
    w_log w' = (w_log w ++ flat_map (accessErrorOf o root) l)%list /\
    RootDir inv' = RootDir inv /\ InventoryAt inv' = InventoryAt inv /\
    w_ticks w' = w_ticks w /\ w_toml w' = w_toml w /\ w_zip w' = w_zip w /\
    (aggregatesOK inv -> aggregatesOK inv').
Proof.
  revert inv w. induction l as [|cn l IH]; intros inv w.
  - exists inv, w. simpl. rewrite !app_nil_r. split; [reflexivity|]. facts.
  - destruct (inventoryVisit_step cn inv w)
      as (inv1 & w1 & E & HF & HL & HR & HI & HT & HM & HZ & HA).
    destruct (IH inv1 w1)
      as (inv2 & w2 & E2 & HF2 & HL2 & HR2 & HI2 & HT2 & HM2 & HZ2 & HA2).
    exists inv2, w2. destruct cn as [comps n]. simpl in *.
    rewrite E, E2. rewrite HF2, HF, HL2, HL, <- !app_assoc.
    split; [reflexivity|]. facts; congruence.
Qed.

Lemma inventoryVisit_no_skip (path : string) (n : node)
    (s : DirectoryInventory * World) (e : error) :
  snd (visit path (callInfo path n) (callErr path n) s) = Some e ->
  isSkipDir e = false.
Proof.
  destruct s as [inv w]. unfold visit, inventoryVisit.
  destruct n as [sz mt h|sz mt es|sz mt e'|e']; unfold callInfo, callErr; simpl;
    try discriminate;
    destruct (Rel (goos env) root path) as [rel [re|]];
    destruct (String.eqb path root); simpl; discriminate.
Qed.

(** [createDirectoryInventory] returns no error; it keeps one record
    per accessible node below the root, in the order of the walk, and
    logs one line per node it could not access. *)
Lemma inventory_run (w : World) :
  exists inv w',
    createDirectoryInventory env root w = ((inv, None), w') /\
    Files inv = flat_map (recordOf o root) (walkOrder (tree env) []) /\
    w_log w' = (w_log w ++ flat_map (accessErrorOf o root) (walkOrder (tree env) []))%list /\
    RootDir inv = root /\ InventoryAt inv = clock env (w_ticks w) /\
    w_ticks w' = S (w_ticks w) /\ w_toml w' = w_toml w /\ w_zip w' = w_zip w /\
    aggregatesOK inv.
Proof.
  unfold createDirectoryInventory, Walk. simpl.
  change root with (joinAll (goos env) root []) at 2.
  rewrite (walk_runVisits (goos env) (inventoryVisit env root) root inventoryVisit_no_skip).
  match goal with |- context [runVisits _ _ _ ?l (?i, ?w0)] =>
    destruct (inventory_visits l i w0)
      as (inv & w' & E & HF & HL & HR & HI & HT & HM & HZ & HA) end.
  fold o visit. rewrite E. exists inv, w'.
  split; [reflexivity|]. facts.
  apply HA. unfold aggregatesOK. simpl. repeat split; reflexivity.
Qed.

End InventoryFacts.

(** ** The order of the walk *)

Lemma walkOrder_Dir (sz mt : Z) (es : list (string * node)) (pre : list string) :
  walkOrder (Dir sz mt es) pre
  = (pre, Dir sz mt es)
    :: flat_map (fun kc => walkOrder (snd kc) (pre ++ [fst kc])) (sortByName es).
Proof.
  simpl. f_equal.
  rewrite (map_ext (fun nc : string * node => let (name, c) := nc in (name, walkOrder c))
             (fun kv => (fst kv, walkOrder (snd kv))))
    by (intros [k c]; reflexivity).
  rewrite (sortByName_map walkOrder), map_map, flat_map_concat_map. reflexivity.
Qed.

Lemma walkOrder_head (n : node) (pre : list string) :
  exists rest, walkOrder n pre = (pre, n) :: rest.
Proof.
  destruct n; [eexists; reflexivity| |eexists; reflexivity|eexists; reflexivity].
  rewrite walkOrder_Dir. eexists; reflexivity.
Qed.

Lemma nodupb_NoDup (l : list string) : nodupb l = true <-> NoDup l.
Proof.
  induction l as [|x l IH]; simpl.
  - split; [constructor|reflexivity].
  - rewrite andb_true_iff, IH, negb_true_iff. split.
    + intros [Hx Hl]. constructor; [|exact Hl]. intros Hin.
      assert (existsb (String.eqb x) l = true) as E.
      { apply existsb_exists. exists x. split; [exact Hin|apply String.eqb_refl]. }
      congruence.
    + intros H. inversion H as [|? ? Hx Hl]; subst. split; [|exact Hl].
      destruct (existsb (String.eqb x) l) eqn:E; [|reflexivity].
      apply existsb_exists in E. destruct E as (y & Hy & Exy).
      apply String.eqb_eq in Exy. now subst.
Qed.

Lemma plain_hasChar (o : OS) (name : string) :
  plain o name -> hasChar (Separator o) name = false.
Proof.
  unfold plain, plainName. rewrite andb_true_iff, !negb_true_iff. tauto.
Qed.

Lemma plain_not_dot (o : OS) (name : string) : plain o name -> name <> ".".
Proof.
  unfold plain, plainName. rewrite andb_true_iff, !negb_true_iff.
  intros [_ H]. now apply String.eqb_neq.
Qed.

Lemma plain_names (o : OS) (comps : list string) :
  Forall (plain o) comps ->
  Forall (fun name => hasChar (Separator o) name = false) comps.
Proof. apply Forall_impl. apply plain_hasChar. Qed.

Lemma wfTree_Dir (o : OS) (sz mt : Z) (es : list (string * node)) :
  wfTree o (Dir sz mt es) = true <->
  NoDup (map fst es) /\ Forall (plain o) (map fst es) /\
  Forall (fun kc => wfTree o (snd kc) = true) es.
Proof.
  simpl. rewrite !andb_true_iff, nodupb_NoDup, !forallb_forall, !Forall_forall.
  unfold plain. split.
  - intros [[H1 H2] H3]. repeat split; auto.
    intros [k c] Hx. exact (H3 (k, c) Hx).
  - intros (H1 & H2 & H3). repeat split; auto.
    intros [k c] Hx. exact (H3 (k, c) Hx).
Qed.

Lemma findEntry_In (k : string) (c : node) (es : list (string * node)) :
  NoDup (map fst es) -> In (k, c) es -> findEntry k es = Some c.
Proof.
  induction es as [|[k' c'] es IH]; simpl; [tauto|].
  intros Hnd [Heq|Hin].
  - inversion Heq; subst. now rewrite String.eqb_refl.
  - inversion Hnd as [|? ? Hnotin Hnd']; subst.
    destruct (String.eqb k' k) eqn:E.
    + apply String.eqb_eq in E. subst. exfalso. apply Hnotin.
      change k with (fst (k, c)). now apply in_map.
    + now apply IH.
Qed.

(** Every node the walk reaches is found again from the root by its
    names, which hold no separator. *)
Lemma walkOrder_resolve (o : OS) (n : node) :
  forall pre, wfTree o n = true ->
    Forall (fun cm => exists suf, fst cm = (pre ++ suf)%list /\
                      resolve n suf = Some (snd cm) /\ Forall (plain o) suf)
           (walkOrder n pre).
Proof.
  induction n as [sz mt h|sz mt es IH|sz mt e|e] using node_induction; intros pre Hwf;
    try (constructor; [|constructor]; exists []; rewrite app_nil_r; simpl; auto).
  rewrite walkOrder_Dir. apply wfTree_Dir in Hwf. destruct Hwf as (Hnd & Hpl & Hwf).
  constructor.
  { exists []. rewrite app_nil_r. simpl. auto. }
  rewrite Forall_forall. intros [comps m] Hin.
  apply in_flat_map in Hin. destruct Hin as ([k c] & Hkc & Hin). simpl in Hin.
  assert (Hkc' : In (k, c) es).
  { eapply Permutation_in; [apply sortByName_perm|exact Hkc]. }
  rewrite Forall_forall in IH, Hwf, Hpl.
  specialize (IH (k, c) Hkc' (pre ++ [k])%list (Hwf (k, c) Hkc')).
  rewrite Forall_forall in IH. destruct (IH _ Hin) as (suf & E1 & E2 & E3).
  simpl in *. exists (k :: suf). split; [|split].
  - rewrite E1, <- app_assoc. reflexivity.
  - simpl. now rewrite (findEntry_In k c es Hnd Hkc').
  - constructor; [|exact E3]. apply Hpl. change k with (fst (k, c)). now apply in_map.
Qed.

(** ** Relative paths come out in the order of their names *)

Lemma compare_refl (s : string) : String.compare s s = Eq.
Proof. now apply String_as_OT.cmp_eq. Qed.

Lemma compsLtb_prefix (pre suf : list string) (k : string) :
  compsLtb pre (pre ++ k :: suf) = true.
Proof.
  induction pre as [|x pre IH]; simpl; [reflexivity|]. now rewrite compare_refl.
Qed.

Lemma compsLtb_branch (pre s1 s2 : list string) (k1 k2 : string) :
  String.ltb k1 k2 = true -> compsLtb (pre ++ k1 :: s1) (pre ++ k2 :: s2) = true.
Proof.
  intros H. induction pre as [|x pre IH]; simpl.
  - unfold String.ltb in H. destruct (String.compare k1 k2); congruence.
  - now rewrite compare_refl.
Qed.

Lemma StronglySorted_app {A : Type} (R : A -> A -> Prop) (l1 l2 : list A) :
  StronglySorted R l1 -> StronglySorted R l2 ->
  (forall x y, In x l1 -> In y l2 -> R x y) ->
  StronglySorted R (l1 ++ l2).
Proof.
  induction 1 as [|a l1 Hs IH Hall]; intros H2 Hx; simpl; [exact H2|].
  constructor.
  - apply IH; [exact H2|]. intros x y Hx1 Hy. apply Hx; [now right|exact Hy].
  - apply Forall_app. split; [exact Hall|].
    rewrite Forall_forall. intros y Hy. apply Hx; [now left|exact Hy].
Qed.

Lemma walkOrder_below (o : OS) (n : node) (pre : list string) (cm : list string * node) :
  In cm (walkOrder n pre) -> exists suf, fst cm = (pre ++ suf)%list.
Proof.
  revert pre cm.
  induction n as [sz mt h|sz mt es IH|sz mt e|e] using node_induction; intros pre cm;
    try (intros [<-|[]]; exists []; now rewrite app_nil_r).
  rewrite walkOrder_Dir. intros [<-|Hin].
  - exists []. now rewrite app_nil_r.
  - apply in_flat_map in Hin. destruct Hin as ([k c] & Hkc & Hin). simpl in Hin.
    assert (Hkc' : In (k, c) es).
    { eapply Permutation_in; [apply sortByName_perm|exact Hkc]. }
    rewrite Forall_forall in IH. destruct (IH (k, c) Hkc' _ _ Hin) as (suf & E).
    exists (k :: suf). rewrite E, <- app_assoc. reflexivity.
Qed.

Lemma walkOrder_sorted (o : OS) (n : node) :
  forall pre, wfTree o n = true ->
    StronglySorted compsLt (map fst (walkOrder n pre)).
Proof.
  induction n as [sz mt h|sz mt es IH|sz mt e|e] using node_induction; intros pre Hwf;
    try solve [simpl; repeat constructor].
  rewrite walkOrder_Dir. apply wfTree_Dir in Hwf. destruct Hwf as (Hnd & _ & Hwf).
  assert (Hs : StronglySorted keyLt (sortByName es)) by now apply sortByName_strict.
  assert (IH' : Forall (fun kc => forall pre, StronglySorted compsLt
                          (map fst (walkOrder (snd kc) pre))) (sortByName es)).
  { eapply Permutation_Forall; [symmetry; apply sortByName_perm|].
    rewrite Forall_forall in *. intros kc Hkc p. apply IH; auto. }
  clear IH Hwf Hnd. simpl. constructor.
  - induction Hs as [|[k c] l Hs IHs Hall]; simpl; [constructor|].
    inversion IH' as [|? ? Hc IHl]; subst. rewrite map_app.
    apply StronglySorted_app; [apply Hc|now apply IHs|].
    intros x y Hx Hy. apply in_map_iff in Hx, Hy.
    destruct Hx as (cx & <- & Hx). destruct Hy as (cy & <- & Hy).
    apply (walkOrder_below o) in Hx. destruct Hx as (sx & ->).
    apply in_flat_map in Hy. destruct Hy as ([k2 c2] & Hk2 & Hy).
    apply (walkOrder_below o) in Hy. destruct Hy as (sy & ->). simpl.
    rewrite Forall_forall in Hall. specialize (Hall _ Hk2). unfold keyLt in Hall.
    simpl in Hall. unfold compsLt. rewrite <- !app_assoc. simpl.
    now apply compsLtb_branch.
  - rewrite Forall_forall. intros x Hx. apply in_map_iff in Hx.
    destruct Hx as (cx & <- & Hx). apply in_flat_map in Hx.
    destruct Hx as ([k c] & _ & Hx). apply (walkOrder_below o) in Hx.
    destruct Hx as (sx & ->). simpl. unfold compsLt. rewrite <- app_assoc. simpl.
    apply compsLtb_prefix.
Qed.

(** ** C10: the aggregates of the inventory *)

(** C10.  For every inventory the walker returns, [TotalFiles] is the
    number of non-directory records, [TotalDirs] the number of directory
    records and [TotalSize] the sum of the sizes of the non-directory
    records: as 64-bit integers in every case, and as plain numbers
    whenever these fit in 63 bits. *)
Theorem C10_inventory_aggregates (env : Env) (root : string) (w : World) :
  let inv := fst (fst (createDirectoryInventory env root w)) in
  let nFiles := Z.of_nat (List.length (nonDirs (Files inv))) in
  let nDirs := Z.of_nat (List.length (dirs (Files inv))) in
  let total := sumSizes (nonDirs (Files inv)) in
  (TotalFiles inv = wrap64 nFiles /\ TotalDirs inv = wrap64 nDirs /\
   TotalSize inv = wrap64 total) /\
  (nFiles < 2 ^ 63 -> nDirs < 2 ^ 63 -> - 2 ^ 63 <= total < 2 ^ 63 ->
   TotalFiles inv = nFiles /\ TotalDirs inv = nDirs /\ TotalSize inv = total).
Proof.
  destruct (inventory_run env root w) as (inv & w' & E & _ & _ & _ & _ & _ & _ & _ & HA).
  rewrite E. simpl. split; [exact HA|].
  destruct HA as (HF & HD & HS). intros H1 H2 H3.
  rewrite HF, HD, HS, !wrap64_small; auto; lia.
Qed.

Lemma C10_inventory_aggregates_witness :
  let inv := fst (fst (createDirectoryInventory (demoEnv demoTree) "release" freshWorld)) in
  TotalFiles inv = 3 /\ TotalDirs inv = 1 /\ TotalSize inv = 11.
Proof.
  exact (proj2 (C10_inventory_aggregates (demoEnv demoTree) "release" freshWorld)
           ltac:(vm_compute; reflexivity) ltac:(vm_compute; reflexivity)
           ltac:(vm_compute; split; [discriminate|reflexivity])).
Defined.

(** ** C3: the order of the records *)

Lemma StronglySorted_map_inv {A B : Type} (R : B -> B -> Prop) (f : A -> B) (l : list A) :
  StronglySorted R (map f l) -> StronglySorted (fun a b => R (f a) (f b)) l.
Proof.
  induction l as [|a l IH]; simpl; intros H; [constructor|].
  inversion H as [|? ? Hs Hall]; subst. constructor; [now apply IH|].
  rewrite Forall_forall in *. intros b Hb. apply Hall. now apply in_map.
Qed.

Lemma StronglySorted_flat_map {A B : Type} (R : A -> A -> Prop) (R' : B -> B -> Prop)
    (f : A -> list B) (l : list A) :
  StronglySorted R l ->
  (forall x, In x l -> f x = [] \/ exists y, f x = [y]) ->
  (forall x x' y y', In x l -> In x' l -> R x x' -> In y (f x) -> In y' (f x') -> R' y y') ->
  StronglySorted R' (flat_map f l).
Proof.
  induction 1 as [|a l Hs IH Hall]; intros H1 H2; simpl; [constructor|].
  apply StronglySorted_app.
  - destruct (H1 a (or_introl eq_refl)) as [->|[y ->]]; repeat constructor.
  - apply IH; intros; [apply H1; now right|].
    eapply (H2 x x'); eauto; now right.
  - intros y y' Hy Hy'. apply in_flat_map in Hy'. destruct Hy' as (x' & Hx' & Hy').
    rewrite Forall_forall in Hall.
    apply (H2 a x'); auto; [now left|now right].
Qed.

Lemma inventory_sorted (env : Env) (root : string) (w : World) :
  wfTree (goos env) (tree env) = true ->
  StronglySorted (relPathNamesLt (goos env))
    (Files (fst (fst (createDirectoryInventory env root w)))).
Proof.
  intros Hwf.
  destruct (inventory_run env root w) as (inv & w' & E & HF & _). rewrite E. simpl.
  rewrite HF. clear E HF.
  pose proof (walkOrder_resolve (goos env) (tree env) [] Hwf) as Hres.
  pose proof (walkOrder_sorted (goos env) (tree env) [] Hwf) as Hs.
  apply StronglySorted_map_inv in Hs.
  eapply StronglySorted_flat_map; [exact Hs| |].
  - intros [comps n] _. unfold recordOf. simpl.
    destruct comps; [now left|].
    destruct (callErr _ n); [now left|]. destruct (callInfo _ n); [right; eauto|now left].
  - rewrite Forall_forall in Hres.
    assert (Hrec : forall x y, In x (walkOrder (tree env) []) ->
                     In y (recordOf (goos env) root x) ->
                     splitOn (Separator (goos env)) (RelPath y) = fst x).
    { intros [comps n] y Hx Hy. destruct (Hres _ Hx) as (suf & E1 & _ & Hpl).
      simpl in E1. subst suf. unfold recordOf in Hy. simpl in Hy.
      destruct comps as [|c cs]; [destruct Hy|].
      destruct (callErr _ n); [destruct Hy|].
      destruct (callInfo _ n); [|destruct Hy].
      destruct Hy as [<-|[]].
      apply (splitOn_relString (goos env) (c :: cs)); [discriminate|].
      now apply plain_names. }
    intros x x' y y' Hx Hx' HR Hy Hy'. unfold relPathNamesLt.
    now rewrite (Hrec x y Hx Hy), (Hrec x' y' Hx' Hy').
Qed.

(** C3, on the code.  [demoTree] lists distinct plain names, and its
    records come out as [a], [a/x], [a.txt], [b.txt]: [a.txt] follows
    [a/x] although ["a.txt"] is the smaller string. *)
Lemma C3_counterexample :
  wfTree Unix demoTree = true /\
  ~ Sorted relPathLe
      (Files (fst (fst (createDirectoryInventory (demoEnv demoTree) "release" freshWorld)))).
Proof.
  split; [reflexivity|]. intros H.
  remember (Files _) as l eqn:El. vm_compute in El. subst l.
  inversion H as [|? ? H1 _]; subst. inversion H1 as [|? ? _ H3]; subst.
  inversion H3 as [|? ? H4]; subst. vm_compute in H4. discriminate.
Qed.

(** ** The digest pass *)

Section DigestPass.
Variable L : Libs.
Variable env : Env.

Lemma reportProgress_disk inv processed last w :
  disk (snd (reportProgress env inv processed last w)) = disk w.
Proof.
  unfold reportProgress. destruct (showProgress env); [|reflexivity].
  simpl. destruct (_ >? _); reflexivity.
Qed.

Lemma readChunks_spec inv f reads st :
  hashers L (fst (readChunks L env inv f reads st))
    = fold_left (writeAll L) (fedChunks reads) (hashers L st) /\
  snd (readChunks L env inv f reads st) = option_map (readError f) (readFailure reads) /\
  disk (world L (fst (readChunks L env inv f reads st))) = disk (world L st).
Proof.
  revert st. induction reads as [|[chunk rerr] reads IH]; intro st; simpl; [auto|].
  destruct rerr; try (simpl; auto; fail);
    (destruct (List.length chunk =? 0)%nat; [simpl; auto|];
     destruct (reportProgress env inv _ _ _) as [last w1] eqn:E;
     match goal with |- context [readChunks L env inv f reads ?s] =>
       destruct (IH s) as (H1 & H2 & H3) end;
     simpl in *; rewrite H1, H2, H3;
     repeat split; auto;
     pose proof (reportProgress_disk inv
                   (add64 (bytesProcessed L st) (Z.of_nat (List.length chunk)))
                   (lastProgressUpdate L st) (world L st)) as Hd;
     rewrite E in Hd; exact Hd).
Qed.

Lemma hashFiles_spec inv files st :
  hashers L (fst (hashFiles L env inv files st))
    = fold_left (writeAll L) (passChunks env files) (hashers L st) /\
  snd (hashFiles L env inv files st) = passFailure env files /\
  disk (world L (fst (hashFiles L env inv files st))) = disk (world L st).
Proof.
  revert st. induction files as [|f files IH]; intro st; simpl; [auto|].
  unfold fileFailure, fileChunks. destruct (IsDir f); [apply IH|].
  set (st1 := if verbose env then _ else st).
  assert (Hst1 : hashers L st1 = hashers L st /\ disk (world L st1) = disk (world L st)).
  { subst st1. destruct (verbose env); auto. }
  destruct Hst1 as [Hh Hd].
  destruct (Open _ _ _ _) as [reads|e]; [|simpl; rewrite Hh, Hd; auto].
  destruct (readChunks_spec inv f reads st1) as (H1 & H2 & H3).
  destruct (readChunks L env inv f reads st1) as [st2 [e|]]; simpl in *.
  - rewrite <- H2. simpl. rewrite H1, H3, Hh, Hd. auto.
  - rewrite <- H2. simpl. destruct (IH st2) as (I1 & I2 & I3).
    rewrite I1, I2, I3, H1, H3, Hh, Hd, fold_left_app. auto.
Qed.

End DigestPass.

Section DigestResult.
Variable L : Libs.
Variable env : Env.

Local Ltac component :=
  let chunks := fresh "chunks" in let h := fresh "h" in let IH := fresh "IH" in
  intros chunks; induction chunks as [|c chunks IH]; intro h; simpl;
  [reflexivity|rewrite IH; reflexivity].

Lemma fold_sha256 : forall chunks h,
  sha256Hasher L (fold_left (writeAll L) chunks h)
  = fold_left (Hash.hwrite _) chunks (sha256Hasher L h).
Proof. component. Qed.
Lemma fold_whirlpool : forall chunks h,
  whirlpoolHasher L (fold_left (writeAll L) chunks h)
  = fold_left (Hash.hwrite _) chunks (whirlpoolHasher L h).
Proof. component. Qed.
Lemma fold_ripemd160 : forall chunks h,
  ripemd160Hasher L (fold_left (writeAll L) chunks h)
  = fold_left (Hash.hwrite _) chunks (ripemd160Hasher L h).
Proof. component. Qed.
Lemma fold_sha3_256 : forall chunks h,
  sha3_256Hasher L (fold_left (writeAll L) chunks h)
  = fold_left (Hash.hwrite _) chunks (sha3_256Hasher L h).
Proof. component. Qed.
Lemma fold_blake2b : forall chunks h,
  blake2bHasher L (fold_left (writeAll L) chunks h)
  = fold_left (Hash.hwrite _) chunks (blake2bHasher L h).
Proof. component. Qed.
Lemma fold_blake3 : forall chunks h,
  blake3Hasher L (fold_left (writeAll L) chunks h)
  = fold_left (Hash.hwrite _) chunks (blake3Hasher L h).
Proof. component. Qed.
Lemma fold_sha512 : forall chunks h,
  sha512Hasher L (fold_left (writeAll L) chunks h)
  = fold_left (Hash.hwrite _) chunks (sha512Hasher L h).
Proof. component. Qed.
Lemma fold_xxh64 : forall chunks h,
  xxh64Hasher L (fold_left (writeAll L) chunks h)
  = fold_left (Hash.hwrite _) chunks (xxh64Hasher L h).
Proof. component. Qed.
Lemma fold_murmur3 : forall chunks h,
  murmur3Hasher L (fold_left (writeAll L) chunks h)
  = fold_left (Hash.hwrite _) chunks (murmur3Hasher L h).
Proof. component. Qed.
Lemma fold_k12 : forall chunks h,
  k12Hasher L (fold_left (writeAll L) chunks h)
  = fold_left (Hash.hwrite _) chunks (k12Hasher L h).
Proof. component. Qed.

(** A failing file: the pass returns the zero result and the error, and
    leaves the output files alone. *)
Lemma generateDirectoryHashes_failure inv w e :
  passFailure env (Files inv) = Some e ->
  exists w', generateDirectoryHashes L env inv w = ((emptyHashResult, Some e), w') /\
             disk w' = disk w.
Proof.
  intros Hf. unfold generateDirectoryHashes. simpl.
  match goal with |- context [hashFiles L env inv (Files inv) ?s] =>
    destruct (hashFiles_spec L env inv (Files inv) s) as (_ & H2 & H3);
    destruct (hashFiles L env inv (Files inv) s) as [st err] end.
  simpl in *. subst err. rewrite Hf. eexists. split; [reflexivity|exact H3].
Qed.

(** No failing file and a ready key: the ten hashers' fields are the
    digests of the concatenated chunks. *)
Lemma generateDirectoryHashes_success inv w entity :
  passFailure env (Files inv) = None ->
  gpgReady env entity ->
  exists r w', generateDirectoryHashes L env inv w = ((r, None), w') /\
    digests r = referenceDigests L (List.concat (passChunks env (Files inv))) /\
    disk w' = disk w.
Proof.
  intros Hf [Hkey Hsign]. unfold generateDirectoryHashes. simpl.
  match goal with |- context [hashFiles L env inv (Files inv) ?s] =>
    destruct (hashFiles_spec L env inv (Files inv) s) as (H1 & H2 & H3);
    destruct (hashFiles L env inv (Files inv) s) as [st err] end.
  simpl in *. subst err. rewrite Hf.
  match goal with |- context [getGPGEntity env ?w1] =>
    pose proof (Hkey w1) as Hk;
    assert (Hd : disk (snd (getGPGEntity env w1)) = disk w1)
      by (unfold getGPGEntity; destruct (negb _); [destruct (keyFile env)|]; reflexivity);
    destruct (getGPGEntity env w1) as [[ent|ee] w3] end.
  2: { simpl in Hk. discriminate. }
  simpl in Hk. inversion Hk; subst ent. clear Hk.
  match goal with |- context [signData entity ?d] =>
    destruct (Hsign d) as (sig & Hs); rewrite Hs end.
  eexists _, _. split; [reflexivity|]. split.
  - unfold digests, referenceDigests. simpl. rewrite H1.
    rewrite fold_sha256, fold_whirlpool, fold_ripemd160, fold_sha3_256, fold_blake2b,
      fold_blake3, fold_sha512, fold_xxh64, fold_murmur3, fold_k12.
    simpl. rewrite !Hash.hcontract. reflexivity.
  - change (disk w3 = disk w). simpl in Hd. rewrite Hd.
    destruct (showProgress env); simpl; exact H3.
Qed.

End DigestResult.

(** ** The digest pass on a walked tree *)

Arguments joinAll : simpl never.

Section TreeDigest.
Variable L : Libs.
Variable env : Env.

Let o := goos env.
Let root := dirPath env.

Hypothesis Hwf : wfTree o (tree env) = true.

Lemma Open_walked (cn : list string * node) :
  In cn (walkOrder (tree env) []) ->
  below o root (joinAll o root (fst cn)) = Some (fst cn) /\
  resolve (tree env) (fst cn) = Some (snd cn).
Proof.
  intros Hin. pose proof (walkOrder_resolve o (tree env) [] Hwf) as H.
  rewrite Forall_forall in H. destruct (H _ Hin) as (suf & E1 & E2 & E3).
  simpl in E1. subst suf. split; [apply below_joinAll; now apply plain_names|exact E2].
Qed.

Lemma record_of_node (cn : list string * node) (f : FileInfo) :
  In cn (walkOrder (tree env) []) -> In f (recordOf o root cn) ->
  fileChunks env f = nodeChunks cn /\
  (fileFailure env f = None <-> nodeFails cn = false).
Proof.
  intros Hin Hf. destruct (Open_walked cn Hin) as [Hb Hr].
  destruct cn as [comps n]. unfold recordOf in Hf. simpl in *.
  destruct comps as [|c cs]; [destruct Hf|].
  destruct n as [sz mt h|sz mt es|sz mt e|e]; simpl in Hf; try destruct Hf as [<-|[]];
    try contradiction;
    unfold fileChunks, fileFailure, nodeChunks, nodeFails, Open; simpl;
    fold o root; try rewrite Hb, Hr.
  - destruct h as [e|reads]; simpl.
    + split; [reflexivity|]. split; discriminate.
    + split; [reflexivity|]. destruct (readFailure reads); simpl; split; congruence.
  - split; [reflexivity|]. split; reflexivity.
Qed.

Lemma pass_of_nodes (l : list (list string * node)) :
  (forall cn, In cn l -> In cn (walkOrder (tree env) [])) ->
  forallb (fun cn => negb (nodeFails cn)) l = true ->
  passFailure env (flat_map (recordOf o root) l) = None /\
  passChunks env (flat_map (recordOf o root) l) = flat_map nodeChunks l.
Proof.
  induction l as [|cn l IH]; intros Hsub Hok; simpl; [auto|].
  simpl in Hok. apply andb_true_iff in Hok. destruct Hok as [Hcn Hl].
  apply negb_true_iff in Hcn.
  destruct IH as [IH1 IH2]; [intros; apply Hsub; now right|exact Hl|].
  assert (Hcn' : In cn (walkOrder (tree env) [])) by (apply Hsub; now left).
  assert (Hone : recordOf o root cn = [] \/ exists f, recordOf o root cn = [f]).
  { unfold recordOf. destruct (fst cn); [now left|].
    destruct (callErr _ _); [now left|]. destruct (callInfo _ _); [right; eauto|now left]. }
  destruct Hone as [E|[f E]]; rewrite E; simpl.
  - split; [exact IH1|]. rewrite IH2.
    assert (nodeChunks cn = []) as ->; [|reflexivity].
    destruct cn as [comps n]. unfold recordOf, nodeChunks in *. simpl in *.
    destruct comps; [reflexivity|].
    destruct n as [sz mt h|sz mt es|sz mt e|e]; simpl in E; try discriminate; reflexivity.
  - destruct (record_of_node cn f Hcn') as [Hc Hf]; [rewrite E; now left|].
    apply Hf in Hcn. rewrite Hcn, Hc, IH2. auto.
Qed.

(** On a readable tree with a ready key the walk and the pass succeed
    and the digest fields are those of [treeBytes]. *)
Lemma digests_of_tree (entity : Entity) (w : World) :
  treeReadable (tree env) = true ->
  gpgReady env entity ->
  exists r w',
    inventoryAndHashes L env w = ((r, None), w') /\
    digests r = referenceDigests L (treeBytes (tree env)) /\
    disk w' = disk w.
Proof.
  intros Hread Hgpg. unfold inventoryAndHashes.
  destruct (inventory_run env root w) as (inv & w1 & E & HF & _ & _ & _ & _ & HT & HZ & _).
  fold root. rewrite E.
  destruct (pass_of_nodes (walkOrder (tree env) []) (fun cn H => H) Hread) as [P1 P2].
  fold o in HF. rewrite <- HF in P1, P2.
  destruct (generateDirectoryHashes_success L env inv w1 entity P1 Hgpg)
    as (r & w' & E2 & Hd & Hdisk).
  exists r, w'. split; [exact E2|]. split.
  - rewrite Hd, P2. reflexivity.
  - rewrite Hdisk. unfold disk. now rewrite HT, HZ.
Qed.

End TreeDigest.

(** ** C6: errors during the walk *)

(** C6.  The inventory walk returns no error.  A visited entry whose
    [lstat] or directory listing failed is logged and gets no record;
    every other visited entry below the root gets its record, whatever
    failed before it.  When the root does not exist, [main] ends fatally
    right after its first log line, before any walk. *)
Theorem C6_walk_skips_failed_entries (L : Libs) (env : Env) (w : World) :
  let root := dirPath env in
  let o := goos env in
  let visited := walkOrder (tree env) [] in
  let run := createDirectoryInventory env root w in
  (snd (fst run) = None /\
   Files (fst (fst run)) = flat_map (recordOf o root) visited /\
   w_log (snd run) = (w_log w ++ flat_map (accessErrorOf o root) visited)%list) /\
  (forall cn e, callErr (joinAll o root (fst cn)) (snd cn) = Some e ->
     recordOf o root cn = [] /\
     accessErrorOf o root cn = [LogAccessError (joinAll o root (fst cn)) e]) /\
  (forall cn, callErr (joinAll o root (fst cn)) (snd cn) = None -> fst cn <> [] ->
     exists f, recordOf o root cn = [f] /\ Path f = joinAll o root (fst cn)) /\
  (IsNotExist (snd (StatRoot root (tree env))) = true ->
   main L env w
   = (Fatal, logf (LogFatal "Error: Directory does not exist" None)
               (logf (LogStarting root) (snd (timeNow env w))))).
Proof.
  intros root o visited run. split; [|split; [|split]].
  - subst run. destruct (inventory_run env root w) as (inv & w' & E & HF & HL & _).
    rewrite E. simpl. auto.
  - intros [comps n] e He. unfold recordOf, accessErrorOf. simpl in *. rewrite He.
    destruct comps; auto.
  - intros [comps n] He Hne. unfold recordOf. simpl in *. rewrite He.
    destruct comps as [|c cs]; [congruence|].
    destruct n as [sz mt h|sz mt es|sz mt e|e]; simpl in He; try discriminate;
      unfold callInfo; simpl; eexists; split; reflexivity.
  - intros Hmissing. unfold main. simpl. fold root. rewrite Hmissing. reflexivity.
Qed.

Lemma C6_walk_skips_failed_entries_witness :
  map RelPath (Files (fst (fst (createDirectoryInventory (demoEnv brokenTree) "release" freshWorld))))
    = ["a.txt"; "z.txt"] /\
  w_log (snd (createDirectoryInventory (demoEnv brokenTree) "release" freshWorld))
    = [LogAccessError "release/gone" (PathError "lstat" "release/gone" ENOENT);
       LogAccessError "release/locked" (PathError "open" "release/locked" EACCES)] /\
  fst (main demoLibs (demoEnv (NoStat ENOENT)) freshWorld) = Fatal.
Proof.
  pose proof (C6_walk_skips_failed_entries demoLibs (demoEnv brokenTree) freshWorld) as H1.
  pose proof (C6_walk_skips_failed_entries demoLibs (demoEnv (NoStat ENOENT)) freshWorld) as H2.
  cbv zeta in H1, H2.
  destruct H1 as ((_ & HF & HL) & _). destruct H2 as (_ & _ & _ & HM).
  split; [|split].
  - etransitivity; [exact (f_equal (map RelPath) HF)|reflexivity].
  - etransitivity; [exact HL|reflexivity].
  - exact (f_equal fst (HM eq_refl)).
Defined.

(** ** C5: a failing file *)

Lemma passFailure_Exists (env : Env) (files : list FileInfo) :
  Exists (fun f => fileFailure env f <> None) files ->
  exists e, passFailure env files = Some e.
Proof.
  induction 1 as [f files Hf|f files _ IH]; simpl.
  - destruct (fileFailure env f) as [e|]; [eauto|congruence].
  - destruct (fileFailure env f) as [e|]; [eauto|exact IH].
Qed.

(** C5.  When some file of the inventory cannot be opened, or a read on
    it fails with an error other than end-of-file, the digest pass
    returns the zero result together with an error, and [main] ends
    fatally without touching the manifest or the archive. *)
Theorem C5_read_failure_aborts (L : Libs) (env : Env) :
  (forall inventory w,
     Exists (fun f => fileFailure env f <> None) (Files inventory) ->
     exists e w',
       generateDirectoryHashes L env inventory w = ((emptyHashResult, Some e), w') /\
       disk w' = disk w) /\
  (forall w,
     IsNotExist (snd (StatRoot (dirPath env) (tree env))) = false ->
     Exists (fun f => fileFailure env f <> None)
       (Files (fst (fst (createDirectoryInventory env (dirPath env) w)))) ->
     exists e w',
       main L env w = (Fatal, logf (LogFatal "Error generating hashes" (Some e)) w') /\
       disk w' = disk w).
Proof.
  split.
  - intros inventory w Hex. destruct (passFailure_Exists env _ Hex) as (e & He).
    destruct (generateDirectoryHashes_failure L env inventory w e He) as (w' & E & Hd).
    eauto.
  - intros w Hroot Hex.
    destruct (inventory_run env (dirPath env) w) as (inv0 & w0 & E0 & HF0 & _).
    rewrite E0 in Hex. simpl in Hex. rewrite HF0 in Hex.
    unfold main. simpl. rewrite Hroot.
    match goal with |- context [createDirectoryInventory env (dirPath env) ?w2] =>
      destruct (inventory_run env (dirPath env) w2)
        as (inv & w3 & E & HF & _ & _ & _ & _ & HT & HZ & _) end.
    rewrite E. rewrite <- HF in Hex.
    destruct (passFailure_Exists env _ Hex) as (e & He).
    match goal with |- context [generateDirectoryHashes L env inv ?w5] =>
      destruct (generateDirectoryHashes_failure L env inv w5 e He) as (w6 & E6 & Hd) end.
    rewrite E6. exists e, w6. split; [reflexivity|].
    rewrite Hd. unfold disk. simpl. now rewrite HT, HZ.
Qed.

Lemma C5_read_failure_aborts_witness :
  let env := demoEnv failingTree in
  let inventory := fst (fst (createDirectoryInventory env "release" freshWorld)) in
  (exists e w',
     generateDirectoryHashes demoLibs env inventory freshWorld
       = ((emptyHashResult, Some e), w') /\ disk w' = disk freshWorld) /\
  (exists e w',
     main demoLibs env freshWorld
       = (Fatal, logf (LogFatal "Error generating hashes" (Some e)) w') /\
     disk w' = disk freshWorld).
Proof.
  intros env inventory.
  assert (Hex : Exists (fun f => fileFailure env f <> None) (Files inventory)).
  { apply Exists_cons_tl, Exists_cons_hd. vm_compute. discriminate. }
  split.
  - exact (proj1 (C5_read_failure_aborts demoLibs env) inventory freshWorld Hex).
  - exact (proj2 (C5_read_failure_aborts demoLibs env) freshWorld eq_refl Hex).
Defined.

(** ** C1: the XXH3 field *)

(** Whenever the pass succeeds, the XXH3 field is the hash of the sample
    string, whatever was read. *)
Lemma XXH3_field_constant (L : Libs) (env : Env) (inventory : DirectoryInventory)
    (w w' : World) (r : HashResult) :
  generateDirectoryHashes L env inventory w = ((r, None), w') ->
  XXH3 r = formatHex false (xxh3_HashString L "Sample for XXH3").
Proof.
  unfold generateDirectoryHashes. simpl.
  destruct (hashFiles _ _ _ _ _) as [st [e|]]; [discriminate|].
  destruct (getGPGEntity _ _) as [[entity|e] w3]; [|discriminate].
  destruct (signData _ _) as [sig|e]; [|discriminate].
  intros H. inversion H. reflexivity.
Qed.

(** C1, on the code.  Two trees whose only file holds ["hello"] in one
    and ["world"] in the other get the same XXH3 field, the hash of the
    sample string, although [xxh3.HashString] tells the two contents
    apart and the SHA-256 fields differ. *)
Theorem C1_xxh3_field_ignores_content :
  let r1 := fst (fst (inventoryAndHashes demoLibs (demoEnv (oneFile "hello")) freshWorld)) in
  let r2 := fst (fst (inventoryAndHashes demoLibs (demoEnv (oneFile "world")) freshWorld)) in
  snd (fst (inventoryAndHashes demoLibs (demoEnv (oneFile "hello")) freshWorld)) = None /\
  snd (fst (inventoryAndHashes demoLibs (demoEnv (oneFile "world")) freshWorld)) = None /\
  XXH3 r1 = formatHex false (xxh3_HashString demoLibs "Sample for XXH3") /\
  XXH3 r2 = XXH3 r1 /\
  SHA256 r1 <> SHA256 r2 /\
  xxh3_HashString demoLibs "hello" <> xxh3_HashString demoLibs "world".
Proof.
  vm_compute. repeat split; try reflexivity; discriminate.
Qed.

(** ** Trees that differ in their listings *)

Lemma keyLt_keys {A B : Type} (l : list (string * A)) (l' : list (string * B)) :
  map fst l = map fst l' -> StronglySorted keyLt l -> StronglySorted keyLt l'.
Proof.
  revert l'. induction l as [|x l IH]; intros [|y l'] E H; try discriminate; [constructor|].
  simpl in E. inversion E as [[E1 E2]]. inversion H as [|? ? Hs Hall]; subst.
  constructor; [now apply IH|].
  rewrite Forall_forall in *. intros z Hz. unfold keyLt in *. rewrite <- E1.
  assert (Hk : In (fst z) (map fst l)) by (rewrite E2; now apply in_map).
  apply in_map_iff in Hk. destruct Hk as (z0 & Ez & Hz0). rewrite <- Ez. now apply Hall.
Qed.

Lemma StronglySorted_remove {A : Type} (R : A -> A -> Prop) (l1 l2 : list A) (x : A) :
  StronglySorted R (l1 ++ x :: l2) -> StronglySorted R (l1 ++ l2).
Proof.
  induction l1 as [|a l1 IH]; simpl; intros H; inversion H as [|? ? Hs Hall]; subst.
  - exact Hs.
  - constructor; [now apply IH|].
    rewrite Forall_forall in *. intros y Hy. apply Hall.
    apply in_app_iff in Hy. apply in_app_iff. destruct Hy; [now left|right; now right].
Qed.

Lemma sort_replace {A : Type} (l1 l2 : list (string * A)) (k : string) (c : A) :
  NoDup (map fst (l1 ++ (k, c) :: l2)) ->
  exists s1 s2,
    sortByName (l1 ++ (k, c) :: l2) = (s1 ++ (k, c) :: s2)%list /\
    sortByName (l1 ++ l2) = (s1 ++ s2)%list /\
    forall c', sortByName (l1 ++ (k, c') :: l2) = (s1 ++ (k, c') :: s2)%list.
Proof.
  intros Hnd.
  assert (Hin : In (k, c) (sortByName (l1 ++ (k, c) :: l2))).
  { eapply Permutation_in; [symmetry; apply sortByName_perm|].
    apply in_app_iff. right. now left. }
  apply in_split in Hin. destruct Hin as (s1 & s2 & E). exists s1, s2.
  pose proof (sortByName_strict _ Hnd) as Hs. rewrite E in Hs.
  pose proof (sortByName_perm (l1 ++ (k, c) :: l2)) as Hp. rewrite E in Hp.
  assert (Hp' : Permutation (s1 ++ s2) (l1 ++ l2)) by (eapply Permutation_app_inv; eauto).
  assert (Hkeys : forall c', map fst (l1 ++ (k, c') :: l2) = map fst (l1 ++ (k, c) :: l2)).
  { intros c'. rewrite !map_app. reflexivity. }
  split; [exact E|]. split.
  - apply sortByName_unique; [|now apply StronglySorted_remove in Hs|exact Hp'].
    rewrite map_app in *. simpl in Hnd. now apply NoDup_remove_1 in Hnd.
  - intros c'. apply sortByName_unique.
    + now rewrite Hkeys.
    + eapply keyLt_keys; [|exact Hs]. rewrite !map_app. reflexivity.
    + now apply Permutation_elt.
Qed.

Lemma wfTree_replace (o : OS) (sz mt sz' mt' : Z) (l1 l2 : list (string * node))
    (k : string) (c c' : node) :
  wfTree o (Dir sz mt (l1 ++ (k, c) :: l2)) = true -> wfTree o c' = true ->
  wfTree o (Dir sz' mt' (l1 ++ (k, c') :: l2)) = true.
Proof.
  rewrite !wfTree_Dir, !map_app, !Forall_app. simpl.
  intros (H1 & (H2 & H2') & H3 & H4) Hc.
  inversion H4; subst. repeat split; auto.
Qed.

Lemma wfTree_child (o : OS) (sz mt : Z) (l1 l2 : list (string * node))
    (k : string) (c : node) :
  wfTree o (Dir sz mt (l1 ++ (k, c) :: l2)) = true -> wfTree o c = true.
Proof.
  rewrite wfTree_Dir, Forall_app. intros (_ & _ & _ & H). now inversion H.
Qed.

Section WalkViews.
Variable o : OS.
Context {X : Type}.
Variable g : list string * node -> X.

(** The view ignores what a directory lists. *)
Hypothesis g_dir : forall comps sz mt es es',
    g (comps, Dir sz mt es) = g (comps, Dir sz mt es').

Lemma view_perm sz mt es es' pre :
  NoDup (map fst es) -> Permutation es es' ->
  map g (walkOrder (Dir sz mt es) pre) = map g (walkOrder (Dir sz mt es') pre).
Proof.
  intros Hnd Hp. rewrite !walkOrder_Dir. simpl. rewrite (g_dir pre sz mt es es').
  f_equal. f_equal. f_equal. apply sortByName_unique.
  - exact Hnd.
  - apply sortByName_strict. eapply Permutation_NoDup; [|exact Hnd].
    now apply Permutation_map.
  - rewrite sortByName_perm. now symmetry.
Qed.

Lemma view_child sz mt l1 k c c' l2 pre :
  NoDup (map fst (l1 ++ (k, c) :: l2)) ->
  (forall p, map g (walkOrder c p) = map g (walkOrder c' p)) ->
  map g (walkOrder (Dir sz mt (l1 ++ (k, c) :: l2)) pre)
  = map g (walkOrder (Dir sz mt (l1 ++ (k, c') :: l2)) pre).
Proof.
  intros Hnd Hc. rewrite !walkOrder_Dir.
  destruct (sort_replace l1 l2 k c Hnd) as (s1 & s2 & E & _ & E').
  rewrite E, (E' c'). simpl. rewrite (g_dir pre sz mt _ (l1 ++ (k, c') :: l2)).
  f_equal. rewrite !flat_map_app, !map_app. simpl. rewrite !map_app, Hc. reflexivity.
Qed.

Variable leaf : node -> node -> Prop.

Hypothesis leaf_view : forall n n', leaf n n' -> wfTree o n = true ->
    wfTree o n' = true /\ forall p, map g (walkOrder n p) = map g (walkOrder n' p).

(** Similar trees are seen alike by the walk. *)
Lemma similar_view (t t' : node) :
  similar leaf t t' -> wfTree o t = true ->
  wfTree o t' = true /\ forall p, map g (walkOrder t p) = map g (walkOrder t' p).
Proof.
  induction 1 as [n n' Hl|sz mt es es' Hp|sz mt l1 k c c' l2 Hs IH|n|n1 n2 n3 H1 IH1 H2 IH2];
    intros Hwf.
  - now apply leaf_view.
  - pose proof Hwf as Hwf0. apply wfTree_Dir in Hwf. destruct Hwf as (Hnd & Hpl & Hch).
    split.
    + apply wfTree_Dir. repeat split.
      * eapply Permutation_NoDup; [|exact Hnd]. now apply Permutation_map.
      * eapply Permutation_Forall; [|exact Hpl]. now apply Permutation_map.
      * eapply Permutation_Forall; [|exact Hch]. exact Hp.
    + intros p. now apply view_perm.
  - destruct (IH (wfTree_child _ _ _ _ _ _ _ Hwf)) as [Hc' Hv]. split.
    + eapply wfTree_replace; eauto.
    + intros p. apply view_child; [|exact Hv].
      apply wfTree_Dir in Hwf. tauto.
  - auto.
  - destruct (IH1 Hwf) as [Hwf2 Hv1]. destruct (IH2 Hwf2) as [Hwf3 Hv2].
    split; [exact Hwf3|]. intros p. now rewrite Hv1.
Qed.

End WalkViews.

Lemma recordOf_dir (o : OS) (root : string) comps sz mt es es' :
  recordOf o root (comps, Dir sz mt es) = recordOf o root (comps, Dir sz mt es').
Proof. reflexivity. Qed.

(** C3, as the code has it.  On a tree whose directories list distinct
    names without separator, the records are in strictly increasing order
    of their relative paths compared name by name, and they are the same
    records in the same order however the directories are enumerated. *)
Theorem C3_inventory_sorted_by_names (env : Env) (w : World) :
  wfTree (goos env) (tree env) = true ->
  StronglySorted (relPathNamesLt (goos env))
    (Files (fst (fst (createDirectoryInventory env (dirPath env) w)))) /\
  forall env' w',
    goos env' = goos env -> dirPath env' = dirPath env ->
    reordered (tree env) (tree env') ->
    Files (fst (fst (createDirectoryInventory env' (dirPath env') w')))
    = Files (fst (fst (createDirectoryInventory env (dirPath env) w))).
Proof.
  intros Hwf. split; [now apply inventory_sorted|].
  intros env' w' Ho Hr Hsim.
  destruct (inventory_run env (dirPath env) w) as (inv & w1 & E & HF & _).
  destruct (inventory_run env' (dirPath env') w') as (inv' & w1' & E' & HF' & _).
  rewrite E, E'. simpl. rewrite HF, HF', Ho, Hr, !flat_map_concat_map.
  f_equal. symmetry.
  apply (similar_view (goos env) (recordOf (goos env) (dirPath env))
           (recordOf_dir _ _) (fun _ _ => False)); [intros ? ? []|exact Hsim|exact Hwf].
Qed.

Lemma C3_inventory_sorted_by_names_witness :
  StronglySorted (relPathNamesLt Unix)
    (Files (fst (fst (createDirectoryInventory (demoEnv demoTree) "release" freshWorld)))) /\
  forall env' w',
    goos env' = Unix -> dirPath env' = "release" ->
    reordered demoTree (tree env') ->
    Files (fst (fst (createDirectoryInventory env' (dirPath env') w')))
    = Files (fst (fst (createDirectoryInventory (demoEnv demoTree) "release" freshWorld))).
Proof.
  exact (C3_inventory_sorted_by_names (demoEnv demoTree) freshWorld eq_refl).
Defined.

(** ** C4: the digests depend on names and bytes only *)

Lemma concat_flat_map {A B : Type} (f : A -> list (list B)) (l : list A) :
  List.concat (flat_map f l) = List.concat (map (fun x => List.concat (f x)) l).
Proof.
  induction l as [|x l IH]; simpl; [reflexivity|]. now rewrite concat_app, IH.
Qed.

Lemma treeBytes_dataOf (t : node) :
  treeBytes t = List.concat (map fst (map dataOf (walkOrder t []))).
Proof.
  unfold treeBytes. rewrite (concat_flat_map (B := byte) nodeChunks), map_map. reflexivity.
Qed.

Lemma treeReadable_dataOf (t : node) :
  treeReadable t = forallb (fun d => negb (snd d)) (map dataOf (walkOrder t [])).
Proof.
  unfold treeReadable. induction (walkOrder t []) as [|cn l IH]; simpl; [reflexivity|].
  now rewrite IH.
Qed.

Lemma sameData_view (o : OS) (n n' : node) :
  sameData n n' -> wfTree o n = true ->
  wfTree o n' = true /\ forall p, map dataOf (walkOrder n p) = map dataOf (walkOrder n' p).
Proof.
  intros [sz mt reads sz' mt' reads' H1 H2 H3|sz mt sz' mt' es] Hwf.
  - split; [reflexivity|]. intros p. simpl. unfold dataOf, nodeChunks, nodeFails. simpl.
    destruct p; [reflexivity|]. rewrite H1, H2, H3. reflexivity.
  - split; [exact Hwf|]. intros p. rewrite !walkOrder_Dir. reflexivity.
Qed.

Lemma sameContent_data (o : OS) (t t' : node) :
  sameContent t t' -> wfTree o t = true ->
  wfTree o t' = true /\ treeBytes t' = treeBytes t /\ treeReadable t' = treeReadable t.
Proof.
  intros Hs Hwf.
  destruct (similar_view o dataOf (fun _ _ _ _ _ => eq_refl) sameData
              (fun n n' => sameData_view o n n') t t' Hs Hwf) as [Hwf' Hv].
  split; [exact Hwf'|]. rewrite !treeBytes_dataOf, !treeReadable_dataOf, (Hv []). auto.
Qed.

(** C4.  Two runs on trees with the same names and the same bytes, one
    of them readable, both succeed and yield the same eleven digest
    fields, those of the bytes of the files in the order of the walk:
    sizes, modification times, the chunks the reads come in, the order of
    enumeration, the clock, the flags, the key and the root path play
    no part. *)
Theorem C4_digests_deterministic (L : Libs) (env1 env2 : Env) (w1 w2 : World)
    (entity1 entity2 : Entity) :
  goos env2 = goos env1 ->
  sameContent (tree env1) (tree env2) ->
  wfTree (goos env1) (tree env1) = true ->
  treeReadable (tree env1) = true ->
  gpgReady env1 entity1 -> gpgReady env2 entity2 ->
  exists r1 r2 w1' w2',
    inventoryAndHashes L env1 w1 = ((r1, None), w1') /\
    inventoryAndHashes L env2 w2 = ((r2, None), w2') /\
    digests r1 = digests r2 /\
    digests r1 = referenceDigests L (treeBytes (tree env1)).
Proof.
  intros Ho Hs Hwf Hread Hg1 Hg2.
  destruct (sameContent_data (goos env1) _ _ Hs Hwf) as (Hwf2 & Hb & Hr).
  rewrite <- Ho in Hwf2. rewrite Hread in Hr.
  destruct (digests_of_tree L env1 Hwf entity1 w1 Hread Hg1) as (r1 & w1' & E1 & D1 & _).
  destruct (digests_of_tree L env2 Hwf2 entity2 w2 Hr Hg2) as (r2 & w2' & E2 & D2 & _).
  exists r1, r2, w1', w2'. repeat split; auto. now rewrite D1, D2, Hb.
Qed.

Lemma demoEnv_ready (t : node) : gpgReady (demoEnv t) demoEntity.
Proof. split; [intros; reflexivity|intros; eexists; reflexivity]. Qed.

Lemma otherEnv_ready (t : node) : gpgReady (otherEnv t) otherEntity.
Proof. split; [intros; reflexivity|intros; eexists; reflexivity]. Qed.

Lemma pairTree_sameContent : sameContent pairTree pairTreeAgain.
Proof.
  unfold sameContent, pairTree, pairTreeAgain.
  eapply sim_trans; [apply sim_perm; apply perm_swap|].
  eapply sim_trans; [apply sim_leaf; apply (same_dir 4096 10 0 99)|].
  apply (sim_child sameData 0 99 [] "a.txt" _ _ [("b.txt", regular "world" 3)]).
  apply sim_leaf. apply same_file; reflexivity.
Qed.

Lemma C4_digests_deterministic_witness :
  exists r1 r2 w1' w2',
    inventoryAndHashes demoLibs (demoEnv pairTree) freshWorld = ((r1, None), w1') /\
    inventoryAndHashes demoLibs (otherEnv pairTreeAgain) freshWorld = ((r2, None), w2') /\
    digests r1 = digests r2 /\
    digests r1 = referenceDigests demoLibs (treeBytes pairTree).
Proof.
  exact (C4_digests_deterministic demoLibs (demoEnv pairTree) (otherEnv pairTreeAgain)
           freshWorld freshWorld demoEntity otherEntity eq_refl pairTree_sameContent
           eq_refl eq_refl (demoEnv_ready pairTree) (otherEnv_ready pairTreeAgain)).
Defined.

(** ** C2: the tree of [a.txt] and [b.txt] *)

Lemma SHA256_of_digests (L : Libs) (r : HashResult) (data : bytes) :
  digests r = referenceDigests L data ->
  SHA256 r = EncodeToString (Hash.hdigest (sha256_New L) data).
Proof. unfold digests, referenceDigests. intros H. now inversion H. Qed.

(** C2.  A root directory that lists exactly [a.txt] and [b.txt], in
    either order, whose reads deliver ["hello"] and ["world"]: the walk
    and the digest pass succeed and the SHA-256 field is the hex form
    of the SHA-256 digest of ["helloworld"]. *)
Theorem C2_sha256_of_hello_world (L : Libs) (env : Env) (w : World) (entity : Entity)
    (sz mt sa ma sb mb : Z) (es : list (string * node)) (ra rb : list readOutcome) :
  tree env = Dir sz mt es ->
  Permutation es [("a.txt", File sa ma (Opened ra)); ("b.txt", File sb mb (Opened rb))] ->
  delivers ra (bytesOf "hello") ->
  delivers rb (bytesOf "world") ->
  gpgReady env entity ->
  exists r w',
    inventoryAndHashes L env w = ((r, None), w') /\
    SHA256 r = EncodeToString (Hash.hdigest (sha256_New L) (bytesOf "helloworld")).
Proof.
  intros Htree Hp [Fa Ca] [Fb Cb] Hgpg.
  set (t0 := Dir sz mt [("a.txt", File sa ma (Opened ra)); ("b.txt", File sb mb (Opened rb))]).
  assert (Hs : sameContent t0 (tree env)).
  { rewrite Htree. apply sim_perm. now symmetry. }
  assert (Hwf0 : wfTree (goos env) t0 = true) by (destruct (goos env); reflexivity).
  assert (Hb0 : treeBytes t0 = bytesOf "helloworld").
  { unfold treeBytes, t0. simpl. unfold nodeChunks. simpl.
    rewrite app_nil_r, concat_app, Ca, Cb. reflexivity. }
  assert (Hr0 : treeReadable t0 = true).
  { unfold treeReadable, t0. simpl. unfold nodeFails. simpl. now rewrite Fa, Fb. }
  destruct (sameContent_data (goos env) _ _ Hs Hwf0) as (Hwf & Hb & Hr).
  rewrite Hr0 in Hr. rewrite Hb0 in Hb.
  destruct (digests_of_tree L env Hwf entity w Hr Hgpg) as (r & w' & E & D & _).
  exists r, w'. split; [exact E|]. apply SHA256_of_digests. now rewrite D, Hb.
Qed.

Lemma C2_sha256_of_hello_world_witness :
  exists r w',
    inventoryAndHashes demoLibs (demoEnv pairTree) freshWorld = ((r, None), w') /\
    SHA256 r = EncodeToString (Hash.hdigest Hash.fnv1a (bytesOf "helloworld")).
Proof.
  refine (C2_sha256_of_hello_world demoLibs (demoEnv pairTree) freshWorld demoEntity
            4096 10 5 2 5 3 _ _ _ eq_refl _ _ _ (demoEnv_ready pairTree)).
  - apply perm_swap.
  - split; reflexivity.
  - split; reflexivity.
Defined.

(** ** The archive *)

Lemma hasChar_append (c : ascii) (a b : string) :
  hasChar c (a ++ b) = hasChar c a || hasChar c b.
Proof. induction a as [|x a IH]; simpl; [reflexivity|]. now rewrite IH, orb_assoc. Qed.

Lemma ReplaceAll_clean (s : string) (old new : ascii) :
  old <> new -> hasChar old (ReplaceAll s old new) = false.
Proof.
  intros Hne. induction s as [|c s IH]; simpl; [reflexivity|]. rewrite IH, orb_false_r.
  destruct (Ascii.eqb c old) eqn:E; [now apply Ascii.eqb_neq; congruence|exact E].
Qed.

Lemma zipName_no_backslash (o : OS) (comps : list string) (isdir : bool) :
  hasChar "\"%char (zipName o comps isdir) = false.
Proof.
  unfold zipName. destruct isdir; [rewrite hasChar_append|];
    rewrite ReplaceAll_clean by discriminate; reflexivity.
Qed.

Lemma relString_not_dot (o : OS) (comps : list string) :
  comps <> [] -> Forall (plain o) comps -> relString o comps <> ".".
Proof.
  intros Hne Hpl E.
  pose proof (splitOn_relString o comps Hne (plain_names o comps Hpl)) as Hs.
  rewrite E in Hs. assert (comps = ["."]) as -> by (destruct o; simpl in Hs; congruence).
  inversion Hpl; subst. now apply (plain_not_dot o ".").
Qed.

Lemma walkOrder_tail_below (o : OS) (n : node) (pre : list string) (cm : list string * node) :
  In cm (tl (walkOrder n pre)) -> exists k suf, fst cm = (pre ++ k :: suf)%list.
Proof.
  destruct n as [sz mt h|sz mt es|sz mt e|e]; try (simpl; tauto).
  rewrite walkOrder_Dir. simpl. intros Hin. apply in_flat_map in Hin.
  destruct Hin as ([k c] & _ & Hin). apply (walkOrder_below o) in Hin.
  destruct Hin as (suf & E). exists k, suf. rewrite E, <- app_assoc. reflexivity.
Qed.

Lemma ioCopy_no_skip (path : string) (dst : Writer) (reads : list readOutcome)
    (j : nat) (acc : bytes) (e : error) :
  (forall i c e', snd (dst i c) = Some e' -> isSkip e' = false) ->
  snd (ioCopy path dst reads j acc) = Some e -> isSkip e = false.
Proof.
  intros Hdst. revert j acc.
  induction reads as [|[chunk rerr] reads IH]; intros j acc; simpl; [discriminate|].
  destruct (List.length chunk =? 0)%nat.
  - destruct rerr; simpl; [apply IH|discriminate|intros H; now inversion H].
  - destruct (dst j chunk) as [accepted [we|]] eqn:Ed.
    + simpl. intros H. inversion H; subst. apply (Hdst j chunk). now rewrite Ed.
    + destruct rerr; simpl; [apply IH|discriminate|intros H; now inversion H].
Qed.

(** A copy that returns no error made only writes that succeeded: it is
    the copy through any writer that agrees with its own where that one
    does not fail. *)
Lemma ioCopy_agree (path : string) (dst dst' : Writer) (reads : list readOutcome) :
  forall j acc,
    (forall i c, dst i c = dst' i c \/ snd (dst i c) <> None) ->
    snd (ioCopy path dst reads j acc) = None ->
    ioCopy path dst' reads j acc = ioCopy path dst reads j acc.
Proof.
  induction reads as [|[chunk rerr] reads IH]; intros j acc Hd; simpl; [reflexivity|].
  destruct (List.length chunk =? 0)%nat.
  - destruct rerr; simpl; auto.
  - destruct (Hd j chunk) as [E|E].
    + rewrite <- E. destruct (dst j chunk) as [accepted [we|]]; [discriminate|].
      destruct rerr; simpl; auto.
    + destruct (dst j chunk) as [accepted [we|]]; [discriminate|]. now contradict E.
Qed.

Lemma ioCopy_ext (path : string) (dst dst' : Writer) (reads : list readOutcome) :
  forall j acc,
    (forall i c, dst i c = dst' i c) ->
    ioCopy path dst reads j acc = ioCopy path dst' reads j acc.
Proof.
  induction reads as [|[chunk rerr] reads IH]; intros j acc Hd; simpl; [reflexivity|].
  rewrite (Hd j chunk). destruct (List.length chunk =? 0)%nat.
  - destruct rerr; simpl; auto.
  - destruct (dst' j chunk) as [accepted [we|]]; [reflexivity|].
    destruct rerr; simpl; auto.
Qed.

(** The writer of a name ending in a slash lets a copy end without
    error only if nothing was to be written. *)
Lemma ioCopy_dirWriter (path : string) (reads : list readOutcome) :
  forall j acc,
    snd (ioCopy path dirWriter reads j acc) = None ->
    fst (ioCopy path dirWriter reads j acc) = acc.
Proof.
  induction reads as [|[chunk rerr] reads IH]; intros j acc; simpl; [reflexivity|].
  destruct (List.length chunk =? 0)%nat; simpl; [|discriminate].
  rewrite app_nil_r. destruct rerr; simpl; [apply IH|reflexivity|discriminate].
Qed.

(** Through a writer that accepts every chunk, a copy of reads that all
    succeed delivers their bytes, in order. *)
Lemma ioCopy_plain (path : string) (reads : list readOutcome) :
  forall j acc,
    Forall (fun rd => snd rd = RNil) reads ->
    ioCopy path (fun _ chunk => (chunk, None)) reads j acc
    = ((acc ++ List.concat (map fst reads))%list, None).
Proof.
  induction reads as [|[chunk rerr] reads IH]; intros j acc Hall; simpl.
  - now rewrite app_nil_r.
  - inversion Hall as [|? ? Hr Hrest]; subst. simpl in Hr. subst rerr.
    destruct (List.length chunk =? 0)%nat eqn:El.
    + apply Nat.eqb_eq in El. destruct chunk; [|discriminate].
      rewrite IH by exact Hrest. now rewrite app_nil_r.
    + rewrite IH by exact Hrest. now rewrite <- app_assoc.
Qed.

Lemma dirWriter_no_skip (i : nat) (c : bytes) (e : error) :
  snd (dirWriter i c) = Some e -> isSkip e = false.
Proof. intros H. inversion H. reflexivity. Qed.

Lemma fileWriter_no_skip (env : Env) (zipPath : string) (k i : nat) (c : bytes) (e : error) :
  snd (fileWriter env zipPath k i c) = Some e -> isSkip e = false.
Proof.
  unfold fileWriter. destruct (copyOutcome env zipPath k i) as [[e0 n]|]; simpl;
    [|discriminate]. intros H. inversion H. reflexivity.
Qed.

Section Archive.
Variable env : Env.
Variable zipPath : string.

Let o := goos env.
Let root := dirPath env.
Let visit := zipVisit env root zipPath.

Lemma zipVisit_no_skip (path : string) (n : node) (w : World) (e : error) :
  snd (visit path (callInfo path n) (callErr path n) w) = Some e -> isSkip e = false.
Proof.
  unfold visit, zipVisit.
  destruct (callErr path n) as [e0|] eqn:Ee.
  - destruct n; simpl in Ee; try discriminate; inversion Ee; subst;
      intros H; inversion H; reflexivity.
  - destruct n as [sz mt h|sz mt es|sz mt e'|e']; simpl in Ee; try discriminate;
      unfold callInfo; simpl;
      destruct (Rel (goos env) root path) as [rel [re|]] eqn:ER; simpl;
      try (unfold Rel in ER; destruct (String.eqb path root);
           [inversion ER|destruct (stripPrefix _ _); inversion ER; subst];
           intros H; inversion H; reflexivity);
      destruct (String.eqb rel "."); simpl; try discriminate;
      destruct (writeOutcome env zipPath _); simpl;
      try (intros H; inversion H; reflexivity);
      destruct (longName _); simpl;
      try (intros H; inversion H; reflexivity); try discriminate.
    unfold Open. destruct (below _ _ _) as [comps|]; simpl;
      [|intros H; inversion H; reflexivity].
    destruct (resolve (tree env) comps) as [[? ? [?|reads]|? ? ?|? ? ?|?]|]; simpl;
      try (intros H; inversion H; reflexivity).
    match goal with |- context [ioCopy path ?wr reads 0 []] =>
      destruct (ioCopy path wr reads 0 []) as [data cerr] eqn:EC; simpl; intros H;
      apply (ioCopy_no_skip path wr reads 0 []); [|now rewrite EC] end.
    destruct (HasSuffix _ _); [apply dirWriter_no_skip|apply fileWriter_no_skip].
Qed.

(** Whatever it is called with, the callback leaves the log, the clock
    and the manifest alone, and never reopens the archive. *)
Lemma zipVisit_frame path info err (w : World) :
  let w' := fst (visit path info err w) in
  w_log w' = w_log w /\ w_ticks w' = w_ticks w /\ w_toml w' = w_toml w /\
  z_closed (zipOf w') = z_closed (zipOf w) /\ w_tomlClosed w' = w_tomlClosed w.
Proof.
  unfold visit, zipVisit. destruct err; [now auto|]. destruct info as [info|]; [|now auto].
  destruct (Rel (goos env) root path) as [rel [re|]]; [now auto|].
  destruct (String.eqb rel "."); [now auto|].
  destruct (writeOutcome env zipPath _); [now auto|].
  destruct (longName _); [now auto|].
  destruct (st_isdir info); [simpl; now auto|].
  destruct (Open _ _ _ _) as [reads|e]; [|simpl; now auto].
  destruct (ioCopy path _ reads 0 []); simpl; now auto.
Qed.

Lemma zipVisits_frame (l : list (list string * node)) (w : World) :
  let w' := fst (runVisits o visit root l w) in
  w_log w' = w_log w /\ w_ticks w' = w_ticks w /\ w_toml w' = w_toml w /\
  z_closed (zipOf w') = z_closed (zipOf w) /\ w_tomlClosed w' = w_tomlClosed w.
Proof.
  revert w. induction l as [|[comps n] l IH]; intro w; simpl; [now auto|].
  pose proof (zipVisit_frame (joinAll o root comps) (callInfo (joinAll o root comps) n)
                (callErr (joinAll o root comps) n) w) as H.
  destruct (visit _ _ _ w) as [w1 [e|]]; simpl in *; [exact H|].
  specialize (IH w1). simpl in IH.
  destruct H as (H1 & H2 & H3 & H4 & H5). destruct IH as (I1 & I2 & I3 & I4 & I5).
  rewrite I1, I2, I3, I4, I5. now auto.
Qed.

(** Whatever happens, the archive phase leaves the manifest's state
    alone; when it cannot create the archive file it changes nothing, and
    otherwise it leaves an archive file, closed or not as the deferred
    [Close] calls succeeded. *)
Lemma zipDirectory_left (w : World) :
  let r := zipDirectory env root zipPath w in
  w_toml (snd r) = w_toml w /\ w_tomlClosed (snd r) = w_tomlClosed w /\
  match osCreate env zipPath with
  | Some e => r = (Some (PathError "open" zipPath e), w)
  | None => exists entries,
      w_zip (snd r) = Some {| z_entries := entries; z_closed := closes env zipPath |}
  end.
Proof.
  unfold zipDirectory. destruct (osCreate env zipPath) as [e|]; simpl; [auto|].
  rewrite (Walk_runVisits (goos env) (zipVisit env root zipPath) root zipVisit_no_skip).
  set (w0 := setZip {| z_entries := []; z_closed := false |} w).
  pose proof (zipVisits_frame (walkOrder (tree env) []) w0) as Hframe.
  simpl in Hframe. destruct Hframe as (_ & _ & F3 & _ & F5).
  fold visit o. fold root in F3, F5 |- *.
  destruct (runVisits o visit root (walkOrder (tree env) []) w0) as [w1 err].
  simpl in *. split; [exact F3|]. split; [exact F5|]. eexists. reflexivity.
Qed.

End Archive.

Section ArchiveMembers.
Variable env : Env.
Variable zipPath : string.

Let o := goos env.
Let root := dirPath env.
Let visit := zipVisit env root zipPath.

Hypothesis Hwf : wfTree o (tree env) = true.

Lemma writer_agree (name : string) (k i : nat) (c : bytes) :
  (if HasSuffix name "/" then dirWriter else fileWriter env zipPath k) i c
  = memberWriter name i c \/
  snd ((if HasSuffix name "/" then dirWriter else fileWriter env zipPath k) i c) <> None.
Proof.
  unfold memberWriter. destruct (HasSuffix name "/"); [now left|].
  unfold fileWriter. destruct (copyOutcome env zipPath k i) as [[e n]|]; [right|now left].
  discriminate.
Qed.

Lemma writer_ideal (name : string) (k : nat) :
  (forall j, copyOutcome env zipPath k j = None) ->
  forall i c, (if HasSuffix name "/" then dirWriter else fileWriter env zipPath k) i c
              = memberWriter name i c.
Proof.
  intros Hc i c. unfold memberWriter. destruct (HasSuffix name "/"); [reflexivity|].
  unfold fileWriter. now rewrite Hc.
Qed.

Lemma zipVisit_member (cn : list string * node) (w : World) :
  In cn (walkOrder (tree env) []) -> fst cn <> [] ->
  let path := joinAll o root (fst cn) in
  let r := visit path (callInfo path (snd cn)) (callErr path (snd cn)) w in
  let k := List.length (z_entries (zipOf w)) in
  (snd r = None ->
   fst r = appendMember (memberOf env cn) w /\ nodeError env cn = None /\
   writeOutcome env zipPath k = None) /\
  (nodeError env cn = None -> writeOutcome env zipPath k = None ->
   (forall j, copyOutcome env zipPath k j = None) ->
   r = (appendMember (memberOf env cn) w, None)).
Proof.
  intros Hin Hne.
  pose proof (walkOrder_resolve o (tree env) [] Hwf) as Hres.
  rewrite Forall_forall in Hres. destruct (Hres _ Hin) as (suf & E1 & E2 & E3).
  simpl in E1. subst suf. destruct cn as [comps n]. simpl in *.
  pose proof (relString_not_dot o comps Hne E3) as Hdot.
  apply String.eqb_neq in Hdot.
  pose proof (below_joinAll o root comps (plain_names o comps E3)) as Hb.
  destruct comps as [|c cs]; [congruence|].
  unfold visit, zipVisit, nodeError, memberOf, appendMember, Open. simpl.
  fold o root. rewrite Hb, E2.
  destruct n as [sz mt h|sz mt es|sz mt e|e]; simpl;
    try (split; [discriminate|discriminate]);
    rewrite Rel_joinAll, Hdot;
    destruct (writeOutcome env zipPath _) as [we|]; simpl;
    try (split; [discriminate|intros _ H; discriminate]);
    destruct (longName _); simpl; try (split; [discriminate|discriminate]).
  - destruct h as [e|reads]; simpl; [split; discriminate|].
    set (name := ReplaceAll (fold_left (Join o) cs c) "\"%char "/"%char).
    set (k := List.length (z_entries (zipOf w))).
    set (path := joinAll o root (c :: cs)).
    split.
    + intros Hnone.
      pose proof (ioCopy_agree path _ (memberWriter name) reads 0 []
                    (writer_agree name k)) as Hag.
      destruct (ioCopy path (if HasSuffix name "/" then dirWriter
                             else fileWriter env zipPath k) reads 0 [])
        as [data [ce|]] eqn:EC; simpl in Hnone; [discriminate|].
      rewrite (Hag eq_refl). simpl. auto.
    + intros Hn _ Hcopy.
      rewrite (ioCopy_ext path _ (memberWriter name) reads 0 [] (writer_ideal name k Hcopy)).
      destruct (ioCopy path (memberWriter name) reads 0 []) as [data [ce|]];
        simpl in *; [discriminate|reflexivity].
  - split; auto.
Qed.

Lemma zipVisits_members (l : list (list string * node)) (w : World) :
  (forall cn, In cn l -> In cn (walkOrder (tree env) []) /\ fst cn <> []) ->
  let r := runVisits o visit root l w in
  (snd r = None ->
   z_entries (zipOf (fst r)) = (z_entries (zipOf w) ++ map (memberOf env) l)%list /\
   forallb (fun cn => match nodeError env cn with Some _ => false | None => true end) l = true) /\
  (forallb (fun cn => match nodeError env cn with Some _ => false | None => true end) l = true ->
   (forall k, writeOutcome env zipPath k = None) ->
   (forall k j, copyOutcome env zipPath k j = None) -> snd r = None).
Proof.
  revert w. induction l as [|cn l IH]; intros w Hl; simpl.
  - rewrite app_nil_r. auto.
  - destruct (Hl cn (or_introl eq_refl)) as [Hin Hne].
    destruct (zipVisit_member cn w Hin Hne) as [Hfwd Hbwd].
    destruct cn as [comps n]. simpl in *.
    destruct (visit _ _ _ w) as [w1 [e|]] eqn:Ev; simpl in *.
    + split; [discriminate|]. intros Hall Hwr Hcp.
      apply andb_true_iff in Hall. destruct Hall as [Hn _].
      destruct (nodeError env (comps, n)); [discriminate|].
      specialize (Hbwd eq_refl (Hwr _) (Hcp _)). discriminate.
    + destruct (Hfwd eq_refl) as (-> & Hn & _).
      destruct (IH (appendMember (memberOf env (comps, n)) w)) as [I1 I2];
        [intros; apply Hl; now right|].
      rewrite Hn. simpl. split.
      * intros H. destruct (I1 H) as [Hent Hall]. split; [|exact Hall].
        rewrite Hent. unfold appendMember. simpl. now rewrite <- app_assoc.
      * exact I2.
Qed.

End ArchiveMembers.

Section ArchiveRun.
Variable env : Env.
Variable zipPath : string.

Let o := goos env.
Let root := dirPath env.

Hypothesis Hwf : wfTree o (tree env) = true.

Lemma zipVisit_root (w : World) :
  zipVisit env root zipPath root (callInfo root (tree env)) (callErr root (tree env)) w
  = (w, nodeError env ([], tree env)).
Proof.
  unfold zipVisit, nodeError. simpl. change (joinAll (goos env) (dirPath env) []) with root.
  destruct (callErr root (tree env)) as [e|] eqn:Ee; [reflexivity|].
  destruct (tree env) as [sz mt h|sz mt es|sz mt e|e]; simpl in Ee; try discriminate;
    unfold callInfo; simpl; unfold Rel; rewrite String.eqb_refl; reflexivity.
Qed.

(** The archive phase: when it returns no error the archive holds one
    member per node below the root, in the order of the walk, and is
    closed if the deferred [Close] calls succeeded; it returns no error
    when every node can be archived and every write succeeds. *)
Lemma zipDirectory_run (w : World) :
  let r := zipDirectory env root zipPath w in
  (fst r = None ->
   w_zip (snd r) = Some {| z_entries := map (memberOf env) (tl (walkOrder (tree env) []));
                           z_closed := closes env zipPath |} /\
   treeArchivable env = true) /\
  (treeArchivable env = true -> osCreate env zipPath = None ->
   (forall k, writeOutcome env zipPath k = None) ->
   (forall k j, copyOutcome env zipPath k j = None) -> fst r = None) /\
  w_toml (snd r) = w_toml w /\ w_log (snd r) = w_log w /\ w_ticks (snd r) = w_ticks w.
Proof.
  unfold zipDirectory. destruct (osCreate env zipPath) as [e|]; simpl.
  { split; [discriminate|]. split; [discriminate|auto]. }
  rewrite (Walk_runVisits (goos env) (zipVisit env root zipPath) root
             (zipVisit_no_skip env zipPath)).
  set (w0 := setZip {| z_entries := []; z_closed := false |} w).
  pose proof (zipVisits_frame env zipPath (walkOrder (tree env) []) w0) as Hframe.
  fold o root in Hframe. simpl in Hframe. destruct Hframe as (F1 & F2 & F3 & F4 & _).
  unfold treeArchivable.
  destruct (walkOrder_head (tree env) []) as (rest & Ewalk).
  assert (Hrest : forall cn, In cn rest -> In cn (walkOrder (tree env) []) /\ fst cn <> []).
  { intros cn Hcn. split; [rewrite Ewalk; now right|].
    destruct (walkOrder_tail_below o (tree env) [] cn) as (k & suf & E);
      [rewrite Ewalk; exact Hcn|]. rewrite E. discriminate. }
  destruct (zipVisits_members env zipPath Hwf rest w0 Hrest) as [M1 M2].
  fold o root in M1, M2. simpl in M1, M2. clear Hrest.
  fold o in F1, F2, F3, F4 |- *. rewrite Ewalk in *. simpl tl. simpl forallb.
  simpl runVisits in *. change (joinAll o root []) with root in *.
  rewrite (zipVisit_root w0) in *.
  destruct (nodeError env ([], tree env)) as [e0|] eqn:E0; simpl in *.
  { split; [discriminate|]. split; [discriminate|auto]. }
  destruct (runVisits o (zipVisit env root zipPath) root rest w0) as [w1 [e1|]] eqn:Er;
    simpl in *.
  - split; [discriminate|]. split; [|auto].
    intros Hall _ Hwr Hcp. specialize (M2 Hall Hwr Hcp). discriminate.
  - split; [|split; [reflexivity|auto]].
    intros _. destruct (M1 eq_refl) as [Hent Hall]. split; [|exact Hall].
    unfold setZip. simpl. rewrite Hent. subst w0. reflexivity.
Qed.

End ArchiveRun.

(** ** C8: the members of the archive *)

Lemma findEntry_Some (k : string) (c : node) (es : list (string * node)) :
  findEntry k es = Some c -> In (k, c) es.
Proof.
  induction es as [|[k' c'] es IH]; simpl; [discriminate|].
  destruct (String.eqb k' k) eqn:E.
  - apply String.eqb_eq in E. intros H. inversion H; subst. now left.
  - intros H. right. now apply IH.
Qed.

(** The walk reaches every node that can be named from the root. *)
Lemma walkOrder_complete (suf : list string) :
  forall n pre m, resolve n suf = Some m -> In ((pre ++ suf)%list, m) (walkOrder n pre).
Proof.
  induction suf as [|c suf IH]; intros n pre m; simpl.
  - intros H. inversion H; subst. rewrite app_nil_r.
    destruct (walkOrder_head m pre) as (rest & ->). now left.
  - destruct n as [sz mt h|sz mt es|sz mt e|e]; try discriminate.
    destruct (findEntry c es) as [child|] eqn:E; [|discriminate].
    intros H. rewrite walkOrder_Dir. right. apply in_flat_map.
    exists (c, child). split.
    + eapply Permutation_in; [symmetry; apply sortByName_perm|now apply findEntry_Some].
    + simpl. specialize (IH child (pre ++ [c])%list m H).
      now rewrite <- app_assoc in IH.
Qed.

Lemma ReplaceAll_append (a b : string) (old new : ascii) :
  ReplaceAll (a ++ b) old new = (ReplaceAll a old new ++ ReplaceAll b old new)%string.
Proof. induction a as [|c a IH]; simpl; [reflexivity|]. now rewrite IH. Qed.

Lemma ReplaceAll_absent (s : string) (old new : ascii) :
  hasChar old s = false -> ReplaceAll s old new = s.
Proof.
  induction s as [|c s IH]; simpl; [reflexivity|]. intros H.
  apply orb_false_iff in H. destruct H as [Hc Hs]. now rewrite Hc, IH.
Qed.

Lemma relString_cons (o : OS) (c k : string) (cs : list string) :
  relString o (c :: k :: cs) = (c ++ String (Separator o) (relString o (k :: cs)))%string.
Proof.
  unfold relString. simpl. unfold Join at 2. rewrite fold_Join_append. f_equal.
  change (String (Separator o) k) with (String (Separator o) "" ++ k)%string.
  now rewrite fold_Join_append.
Qed.

(** Names without backslash are joined by forward slashes. *)
Lemma zipName_slashes (o : OS) (comps : list string) (isdir : bool) :
  comps <> [] ->
  Forall (fun name => hasChar "\"%char name = false) comps ->
  zipName o comps isdir
  = (String.concat "/" comps ++ (if isdir then "/" else ""))%string.
Proof.
  intros Hne Hall. unfold zipName.
  assert (E : ReplaceAll (relString o comps) "\"%char "/"%char = String.concat "/" comps).
  { destruct comps as [|c cs]; [congruence|]. clear Hne. revert c Hall.
    induction cs as [|k cs IH]; intros c Hall; inversion Hall as [|? ? Hc Hcs]; subst.
    - simpl. now apply ReplaceAll_absent.
    - rewrite relString_cons, ReplaceAll_append.
      change (ReplaceAll (String (Separator o) (relString o (k :: cs))) "\"%char "/"%char)
        with (String (if Ascii.eqb (Separator o) "\"%char then "/"%char else Separator o)
                (ReplaceAll (relString o (k :: cs)) "\"%char "/"%char)).
      rewrite (ReplaceAll_absent c) by exact Hc. rewrite (IH k Hcs).
      destruct o; reflexivity. }
  rewrite E. destruct isdir; [reflexivity|].
  generalize (String.concat "/" comps). intros s.
  induction s as [|a s IHs]; simpl; [reflexivity|]. now rewrite <- IHs.
Qed.

(** C8.  On a tree whose directories list distinct plain names, an
    archive phase that returns no error has written one member per node
    below the root, in the order of the walk, and the archive is closed
    exactly when the deferred [Close] calls succeeded (their errors are
    dropped): every file and every directory that can be named from the
    root is among the members, an empty directory with a name ending in
    a slash and no data; no member name holds a backslash, and names
    free of backslashes are joined by forward slashes; the root, the
    head of the walk, is not a member.  A member whose name ends in a
    slash holds no data, also when it stands for a regular file: the
    phase fails on such a file when it holds a byte.  Any other member
    of a file whose reads all succeed holds the bytes read, in order.
    The phase returns no error when every node can be archived, the
    archive file can be created and every write succeeds. *)
Theorem C8_archive_members (env : Env) (zipPath : string) (w : World) :
  wfTree (goos env) (tree env) = true ->
  let r := zipDirectory env (dirPath env) zipPath w in
  let walked := tl (walkOrder (tree env) []) in
  let members := map (memberOf env) walked in
  (fst r = None ->
   w_zip (snd r) = Some {| z_entries := members; z_closed := closes env zipPath |}) /\
  (forall comps n, comps <> [] -> resolve (tree env) comps = Some n ->
     In (memberOf env (comps, n)) members) /\
  (forall comps sz mt, comps <> [] -> resolve (tree env) comps = Some (Dir sz mt []) ->
     In {| ze_name := zipName (goos env) comps true; ze_data := [] |} members) /\
  Forall (fun m => hasChar "\"%char (ze_name m) = false) members /\
  (forall cn, In cn walked ->
     Forall (fun name => hasChar "\"%char name = false) (fst cn) ->
     ze_name (memberOf env cn)
     = (String.concat "/" (fst cn) ++ (if isDirNode (snd cn) then "/" else ""))%string) /\
  (walkOrder (tree env) [] = ([], tree env) :: walked /\
   Forall (fun cn => fst cn <> []) walked) /\
  (fst r = None ->
   Forall (fun m => HasSuffix (ze_name m) "/" = true -> ze_data m = []) members) /\
  (forall cn sz mt reads, In cn walked -> snd cn = File sz mt (Opened reads) ->
     HasSuffix (ze_name (memberOf env cn)) "/" = false ->
     Forall (fun rd => snd rd = RNil) reads ->
     ze_data (memberOf env cn) = List.concat (map fst reads)) /\
  (treeArchivable env = true -> osCreate env zipPath = None ->
   (forall k, writeOutcome env zipPath k = None) ->
   (forall k j, copyOutcome env zipPath k j = None) -> fst r = None).
Proof.
  intros Hwf r walked members.
  destruct (zipDirectory_run env zipPath Hwf w) as (Hrun & Hex & _).
  assert (Hhead : walkOrder (tree env) [] = ([], tree env) :: walked).
  { subst walked. destruct (walkOrder_head (tree env) []) as (rest & ->). reflexivity. }
  assert (Hbelow : Forall (fun cn => fst cn <> []) walked).
  { rewrite Forall_forall. intros cn Hcn.
    destruct (walkOrder_tail_below (goos env) (tree env) [] cn Hcn) as (k & suf & E).
    rewrite E. discriminate. }
  assert (Hall : forall comps n, comps <> [] -> resolve (tree env) comps = Some n ->
                   In (memberOf env (comps, n)) members).
  { intros comps n Hne Hres. apply in_map.
    pose proof (walkOrder_complete comps (tree env) [] n Hres) as Hin.
    rewrite Hhead in Hin. destruct Hin as [Heq|Hin]; [inversion Heq; congruence|exact Hin]. }
  split; [intros Hok; apply Hrun; exact Hok|].
  split; [exact Hall|].
  split; [intros comps sz mt Hne Hres; exact (Hall comps _ Hne Hres)|].
  split.
  { subst members. rewrite Forall_map, Forall_forall. intros cn _. apply zipName_no_backslash. }
  split.
  { intros cn Hcn Hnames. rewrite Forall_forall in Hbelow.
    apply zipName_slashes; [now apply Hbelow|exact Hnames]. }
  split; [split; [exact Hhead|exact Hbelow]|].
  split; [|split; [|exact Hex]].
  2: { intros [comps n] sz mt reads _ Hn Hslash Hreads. simpl in Hn. subst n.
       unfold memberOf in Hslash |- *. simpl in Hslash |- *.
       unfold memberWriter. rewrite Hslash.
       now rewrite (ioCopy_plain _ reads 0 [] Hreads). }
  intros Hok. destruct (Hrun Hok) as [_ Harch]. unfold treeArchivable in Harch.
  rewrite Hhead in Harch. simpl in Harch. apply andb_true_iff in Harch.
  destruct Harch as [_ Harch]. rewrite forallb_forall in Harch.
  subst members. rewrite Forall_map, Forall_forall. intros [comps n] Hcn Hslash.
  specialize (Harch _ Hcn). rewrite Forall_forall in Hbelow. specialize (Hbelow _ Hcn).
  clear Hrun Hex Hall Hcn Hhead Hok.
  simpl in Hbelow. unfold memberOf in Hslash |- *. simpl in Hslash |- *.
  destruct n as [sz mt [e|reads]|sz mt es|sz mt e|e]; try reflexivity.
  unfold nodeError in Harch. simpl in Harch, Hslash.
  destruct comps as [|c cs]; [congruence|].
  destruct (longName _); [discriminate|].
  change (zipName (goos env) (c :: cs) (isDirNode (File sz mt (Opened reads))))
    with (ReplaceAll (relString (goos env) (c :: cs)) "\"%char "/"%char).
  unfold memberWriter in Harch |- *. rewrite Hslash in Harch |- *.
  apply ioCopy_dirWriter.
  destruct (snd (ioCopy _ dirWriter reads 0 [])); [discriminate|reflexivity].
Qed.

Lemma C8_archive_members_witness :
  option_map (fun z => (map ze_name (z_entries z), z_closed z))
    (w_zip (snd (zipDirectory (demoEnv archiveTree) "release" "release.zip" freshWorld)))
  = Some (["a.txt"; "empty/"; "src/"; "src/main.go"], true).
Proof.
  pose proof (C8_archive_members (demoEnv archiveTree) "release.zip" freshWorld eq_refl) as H.
  cbv zeta in H. destruct H as (_ & _ & _ & _ & _ & _ & _ & _ & Hok).
  pose proof (C8_archive_members (demoEnv archiveTree) "release.zip" freshWorld eq_refl) as H.
  cbv zeta in H. destruct H as (Hrun & _).
  specialize (Hrun (Hok eq_refl eq_refl (fun _ => eq_refl) (fun _ _ => eq_refl))).
  etransitivity; [exact (f_equal (option_map _) Hrun)|reflexivity].
Defined.

(** ** The phases of [main] and the output files *)

Section Phases.
Variable L : Libs.
Variable env : Env.


Lemma appendToml_head (b : TomlBlock) (w : World) (h : TomlHead) :
  manifestHead w = Some h -> manifestHead (appendToml b w) = Some h.
Proof.
  unfold manifestHead, appendToml. simpl.
  destruct (w_toml w) as [[|[h0| |] bs]|]; try discriminate. exact (fun H => H).
Qed.

Lemma shortWrite_frame tomlPath k (b : TomlBlock) (w : World) :
  let w' := shortWrite env tomlPath k b w in
  w_zip w' = w_zip w /\ w_log w' = w_log w /\ w_ticks w' = w_ticks w /\
  (forall h, manifestHead w = Some h -> manifestHead w' = Some h).
Proof.
  unfold shortWrite. destruct (_ =? _)%nat; simpl; [now auto|].
  repeat split; auto. intros h. apply appendToml_head.
Qed.

Lemma writeFileTables_frame tomlPath files k (w : World) :
  let w' := snd (writeFileTables L env tomlPath files k w) in
  w_zip w' = w_zip w /\
  (forall h, manifestHead w = Some h -> manifestHead w' = Some h).
Proof.
  revert k w. induction files as [|f files IH]; intros k w; simpl; [auto|].
  destruct (IsDir f); simpl; [apply IH|].
  destruct (writeOutcome env tomlPath k); simpl.
  { match goal with |- context [shortWrite env tomlPath k ?b w] =>
      destruct (shortWrite_frame tomlPath k b w) as (S1 & _ & _ & S4) end.
    auto. }
  match goal with |- context [writeFileTables L env tomlPath files ?k' ?w'] =>
    destruct (IH k' w') as [I1 I2] end.
  split; [rewrite I1; reflexivity|].
  intros h Hh. apply I2. now apply appendToml_head.
Qed.


(** When the manifest file can be created and its first write succeeds,
    the template block is in the file with the aggregates of the
    inventory and the result of the digest pass, whatever happens later. *)
Lemma createTomlFile_head tomlPath dirName inv r (w : World) :
  osCreate env tomlPath = None -> writeOutcome env tomlPath 0 = None ->
  exists h, manifestHead (snd (createTomlFile L env tomlPath dirName inv r w)) = Some h /\
            total_files h = TotalFiles inv /\ total_directories h = TotalDirs inv /\
            total_size_bytes h = TotalSize inv /\ hashes h = r.
Proof.
  intros Hc Hw. unfold createTomlFile. rewrite Hc. simpl. rewrite Hw.
  match goal with |- context [writeFileTables L env tomlPath ?fs ?k ?w'] =>
    destruct (writeFileTables_frame tomlPath fs k w') as [_ I2];
    destruct (writeFileTables L env tomlPath fs k w') as [err w2] end.
  eexists. split; [apply (I2 _ eq_refl)|]. simpl. auto.
Qed.

End Phases.

(** ** The manifest writer *)

Lemma first_failure (f : nat -> option errno) (n : nat) :
  (forall j, (j < n)%nat -> f j = None) \/
  (exists j e, (j < n)%nat /\ f j = Some e /\ forall i, (i < j)%nat -> f i = None).
Proof.
  induction n as [|n IH].
  - left. intros j Hj. inversion Hj.
  - destruct IH as [Hall|(j & e & Hj & He & Hb)].
    + destruct (f n) as [e|] eqn:En.
      * right. exists n, e. repeat split; auto.
      * left. intros j Hj. assert (j = n \/ j < n)%nat as [->|Hlt] by lia; auto.
    + right. exists j, e. repeat split; auto.
Qed.

Section ManifestWriter.
Variable L : Libs.
Variable env : Env.
Variable tomlPath : string.

Lemma shortWrite_toml (k : nat) (b : TomlBlock) (w : World) (bs : list TomlBlock) :
  w_toml w = Some bs ->
  w_toml (shortWrite env tomlPath k b w) = Some (bs ++ tornBlock env tomlPath k b)%list /\
  w_tomlClosed (shortWrite env tomlPath k b w) = w_tomlClosed w.
Proof.
  intros Hbs. unfold shortWrite, tornBlock.
  destruct (shortCount env tomlPath k =? 0)%nat; simpl.
  - now rewrite app_nil_r.
  - now rewrite Hbs.
Qed.

Lemma writeFileTables_run (files : list FileInfo) :
  forall (k : nat) (w : World) (bs : list TomlBlock),
    w_toml w = Some bs ->
    let tables := map (tableOf L) (nonDirs files) in
    let r := writeFileTables L env tomlPath files k w in
    (w_log (snd r) = w_log w /\ w_ticks (snd r) = w_ticks w /\ w_zip (snd r) = w_zip w /\
     w_tomlClosed (snd r) = w_tomlClosed w) /\
    ((forall j, (j < List.length tables)%nat -> writeOutcome env tomlPath (k + j) = None) ->
     fst r = None /\ w_toml (snd r) = Some (bs ++ tables)%list) /\
    (forall j e b, nth_error tables j = Some b ->
       writeOutcome env tomlPath (k + j) = Some e ->
       (forall i, (i < j)%nat -> writeOutcome env tomlPath (k + i) = None) ->
       fst r = Some (PathError "write" tomlPath e) /\
       w_toml (snd r)
       = Some (bs ++ firstn j tables ++ tornBlock env tomlPath (k + j) b)%list).
Proof.
  induction files as [|f files IH]; intros k w bs Hbs; simpl.
  - split; [auto|]. split.
    + intros _. rewrite app_nil_r. auto.
    + intros [|j] e b Hj; discriminate.
  - unfold nonDirs in *. simpl. destruct (IsDir f) eqn:Ed; simpl; [now apply IH|].
    fold (tableOf L f).
    destruct (writeOutcome env tomlPath k) as [e0|] eqn:Ek; simpl.
    + destruct (shortWrite_frame env tomlPath k (tableOf L f) w) as (S1 & S2 & S3 & _).
      destruct (shortWrite_toml k (tableOf L f) w bs Hbs) as [S4 S5].
      split; [auto|]. split.
      * intros Hall. specialize (Hall 0%nat ltac:(lia)). rewrite Nat.add_0_r in Hall.
        congruence.
      * intros j e b Hj He Hbefore. destruct j as [|j].
        -- rewrite Nat.add_0_r in He |- *. rewrite Ek in He. inversion He; subst.
           simpl in Hj. inversion Hj; subst. simpl. auto.
        -- specialize (Hbefore 0%nat ltac:(lia)). rewrite Nat.add_0_r in Hbefore.
           congruence.
    + assert (Hbs' : w_toml (appendToml (tableOf L f) w) = Some (bs ++ [tableOf L f])%list)
        by (unfold appendToml; simpl; now rewrite Hbs).
      destruct (IH (S k) (appendToml (tableOf L f) w) _ Hbs') as (Hfr & Hok & Hfail).
      split; [exact Hfr|]. split.
      * intros Hall.
        assert (Hall' : forall j,
                   (j < List.length (map (tableOf L) (filter (fun f0 => negb (IsDir f0)) files)))%nat ->
                   writeOutcome env tomlPath (S k + j) = None).
        { intros j Hj. replace (S k + j)%nat with (k + S j)%nat by lia. apply Hall.
          simpl. lia. }
        destruct (Hok Hall') as [H1 H2]. split; [exact H1|].
        rewrite H2, <- app_assoc. reflexivity.
      * intros j e b Hj He Hbefore. destruct j as [|j].
        -- rewrite Nat.add_0_r in He. congruence.
        -- simpl firstn. simpl in Hj.
           assert (He' : writeOutcome env tomlPath (S k + j) = Some e)
             by now replace (S k + j)%nat with (k + S j)%nat by lia.
           assert (Hb' : forall i, (i < j)%nat -> writeOutcome env tomlPath (S k + i) = None).
           { intros i Hi. replace (S k + i)%nat with (k + S i)%nat by lia.
             apply Hbefore. lia. }
           destruct (Hfail j e b Hj He' Hb') as [H1 H2]. split; [exact H1|].
           rewrite H2, <- app_assoc. simpl.
           now replace (S (k + j)) with (k + S j)%nat by lia.
Qed.

Variable dirName : string.
Variable inv : DirectoryInventory.
Variable r : HashResult.
Variable w : World.

Lemma createTomlFile_run :
  osCreate env tomlPath = None ->
  let full := fullManifest L dirName inv r (clock env (w_ticks w)) in
  let out := createTomlFile L env tomlPath dirName inv r w in
  (w_log (snd out) = w_log w /\ w_ticks (snd out) = S (w_ticks w) /\
   w_zip (snd out) = w_zip w /\ w_tomlClosed (snd out) = closes env tomlPath) /\
  ((forall j, (j < List.length full)%nat -> writeOutcome env tomlPath j = None) ->
   fst out = None /\ w_toml (snd out) = Some full) /\
  (forall j e b, nth_error full j = Some b ->
     writeOutcome env tomlPath j = Some e ->
     (forall i, (i < j)%nat -> writeOutcome env tomlPath i = None) ->
     fst out = Some (PathError "write" tomlPath e) /\
     w_toml (snd out) = Some (firstn j full ++ tornBlock env tomlPath j b)%list).
Proof.
  intros Hc. unfold createTomlFile, fullManifest. rewrite Hc. simpl.
  fold (headOf L dirName inv r (clock env (w_ticks w))).
  set (h := headOf L dirName inv r (clock env (w_ticks w))).
  destruct (writeOutcome env tomlPath 0) as [e0|] eqn:E0; simpl.
  - match goal with |- context [shortWrite env tomlPath 0 ?b ?w1] =>
      destruct (shortWrite_frame env tomlPath 0 b w1) as (S1 & S2 & S3 & _);
      destruct (shortWrite_toml 0 b w1 [] eq_refl) as [S4 S5] end.
    simpl in *. split; [auto|]. split.
    + intros Hall. specialize (Hall 0%nat ltac:(lia)). congruence.
    + intros j e b Hj He Hb. destruct j as [|j].
      * rewrite E0 in He. inversion He; subst. simpl in Hj. inversion Hj; subst. auto.
      * specialize (Hb 0%nat ltac:(lia)). congruence.
  - match goal with |- context [writeFileTables L env tomlPath ?fs 1 ?w1] =>
      destruct (writeFileTables_run fs 1 w1 [TomlHeader h] eq_refl)
        as (Hfr & Hok & Hfail);
      destruct (writeFileTables L env tomlPath fs 1 w1) as [err w2] end.
    simpl in *. split; [tauto|]. split.
    + intros Hall. apply Hok. intros j Hj. apply (Hall (S j)). lia.
    + intros j e b Hj He Hb. destruct j as [|j]; [congruence|].
      simpl firstn. apply (Hfail j e b).
      * exact Hj.
      * exact He.
      * intros i Hi. apply (Hb (S i)). lia.
Qed.


End ManifestWriter.

(** ** C7: what a fatal run leaves behind *)





(** ** C9: adding an empty file *)

Section WalkInsert.
Variable o : OS.
Context {X : Type}.
Variable g : list string * node -> X.

(** The view ignores what a directory lists and its metadata. *)
Hypothesis g_dir : forall comps sz mt es sz' mt' es',
    g (comps, Dir sz mt es) = g (comps, Dir sz' mt' es').

Variable f : node.
Hypothesis f_leaf : forall p, walkOrder f p = [(p, f)].

Lemma view_insert (t t' : node) :
  addsFile f t t' -> wfTree o t' = true ->
  forall pre, exists a b suf,
    suf <> [] /\
    map g (walkOrder t pre) = (a ++ b)%list /\
    map g (walkOrder t' pre) = (a ++ g ((pre ++ suf)%list, f) :: b)%list.
Proof.
  induction 1 as [sz mt sz' mt' l1 l2 k|sz mt sz' mt' l1 l2 k c c' Hadd IH];
    intros Hwf pre.
  - pose proof Hwf as Hwf0. apply wfTree_Dir in Hwf0. destruct Hwf0 as (Hnd & _ & _).
    destruct (sort_replace l1 l2 k f Hnd) as (s1 & s2 & E & Erm & _).
    rewrite !walkOrder_Dir, E, Erm.
    exists (g (pre, Dir sz mt (l1 ++ l2))
            :: map g (flat_map (fun kc => walkOrder (snd kc) (pre ++ [fst kc])) s1)),
           (map g (flat_map (fun kc => walkOrder (snd kc) (pre ++ [fst kc])) s2)), [k].
    split; [discriminate|]. split.
    + simpl. now rewrite flat_map_app, map_app.
    + simpl. rewrite (g_dir pre sz' mt' _ sz mt (l1 ++ l2)).
      rewrite flat_map_app, map_app. simpl. rewrite f_leaf. reflexivity.
  - pose proof Hwf as Hwf0. apply wfTree_Dir in Hwf0. destruct Hwf0 as (Hnd & _ & _).
    destruct (IH (wfTree_child _ _ _ _ _ _ _ Hwf) (pre ++ [k])%list)
      as (a & b & suf & Hne & Ea & Eb).
    destruct (sort_replace l1 l2 k c' Hnd) as (s1 & s2 & E & _ & Eall).
    rewrite !walkOrder_Dir, E, (Eall c).
    exists (g (pre, Dir sz mt (l1 ++ (k, c) :: l2))
            :: map g (flat_map (fun kc => walkOrder (snd kc) (pre ++ [fst kc])) s1) ++ a)%list,
           (b ++ map g (flat_map (fun kc => walkOrder (snd kc) (pre ++ [fst kc])) s2))%list,
           (k :: suf).
    split; [discriminate|]. split.
    + simpl. rewrite flat_map_app, map_app. simpl. rewrite map_app, Ea, <- !app_assoc.
      reflexivity.
    + simpl. rewrite (g_dir pre sz' mt' _ sz mt (l1 ++ (k, c) :: l2)).
      rewrite flat_map_app, map_app. simpl. rewrite map_app, Eb, <- !app_assoc. simpl.
      reflexivity.
Qed.

End WalkInsert.

Lemma nonDirs_count (o : OS) (root : string) (l : list (list string * node)) :
  List.length (nonDirs (flat_map (recordOf o root) l))
  = list_sum (map (fun cn => List.length (nonDirs (recordOf o root cn))) l).
Proof.
  induction l as [|cn l IH]; simpl; [reflexivity|].
  unfold nonDirs in *. now rewrite filter_app, length_app, IH.
Qed.

Lemma dirs_count (o : OS) (root : string) (l : list (list string * node)) :
  List.length (dirs (flat_map (recordOf o root) l))
  = list_sum (map (fun cn => List.length (dirs (recordOf o root cn))) l).
Proof.
  induction l as [|cn l IH]; simpl; [reflexivity|].
  unfold dirs in *. now rewrite filter_app, length_app, IH.
Qed.

Lemma nonDirs_sizes (o : OS) (root : string) (l : list (list string * node)) :
  sumSizes (nonDirs (flat_map (recordOf o root) l))
  = zsum (map (fun cn => sumSizes (nonDirs (recordOf o root cn))) l).
Proof.
  induction l as [|cn l IH]; simpl; [reflexivity|].
  unfold nonDirs in *. now rewrite filter_app, sumSizes_app, IH.
Qed.

Lemma list_sum_insert (a b : list nat) (x : nat) :
  list_sum (a ++ x :: b) = (list_sum (a ++ b) + x)%nat.
Proof. rewrite !list_sum_app. simpl. lia. Qed.

Lemma zsum_insert (a b : list Z) (x : Z) : zsum (a ++ x :: b) = zsum (a ++ b) + x.
Proof.
  induction a as [|y a IH]; simpl; [unfold zsum; simpl; lia|]. rewrite IH.
  unfold zsum. simpl. lia.
Qed.

Lemma wrap64_lower (z : Z) : - 2 ^ 63 <= wrap64 z < 2 ^ 63.
Proof.
  unfold wrap64. pose proof (Z.mod_pos_bound (z + 2 ^ 63) (2 ^ 64) ltac:(lia)). lia.
Qed.

(** The manifest of a run on a readable tree. *)
Lemma main_manifest (L : Libs) (env : Env) (w : World) (entity : Entity) :
  IsNotExist (snd (StatRoot (dirPath env) (tree env))) = false ->
  wfTree (goos env) (tree env) = true ->
  treeReadable (tree env) = true ->
  gpgReady env entity ->
  osCreate env (dirPath env ++ ".toml") = None ->
  writeOutcome env (dirPath env ++ ".toml") 0 = None ->
  exists h,
    manifestHead (snd (main L env w)) = Some h /\
    total_files h = wrap64 (Z.of_nat (List.length (nonDirs (inventoryFiles env)))) /\
    total_directories h = wrap64 (Z.of_nat (List.length (dirs (inventoryFiles env)))) /\
    total_size_bytes h = wrap64 (sumSizes (nonDirs (inventoryFiles env))) /\
    digests (hashes h) = referenceDigests L (treeBytes (tree env)).
Proof.
  intros Hroot Hwf Hread Hgpg Hc Hw. unfold main. simpl. rewrite Hroot.
  match goal with |- context [createDirectoryInventory env (dirPath env) ?w2] =>
    destruct (inventory_run env (dirPath env) w2)
      as (inv & w3 & E & HF & _ & _ & _ & _ & _ & _ & HA) end.
  rewrite E.
  destruct (pass_of_nodes env Hwf (walkOrder (tree env) []) (fun cn H => H) Hread) as [P1 P2].
  rewrite <- HF in P1, P2.
  match goal with |- context [generateDirectoryHashes L env inv ?w5] =>
    destruct (generateDirectoryHashes_success L env inv w5 entity P1 Hgpg)
      as (r & w6 & E2 & D & _) end.
  rewrite E2.
  match goal with |- context [createTomlFile L env ?p ?d inv r ?w8] =>
    destruct (createTomlFile_head L env p d inv r w8 Hc Hw) as (h & Hh & H1 & H2 & H3 & H4);
    destruct (createTomlFile L env p d inv r w8) as [[e|] w9] end;
    simpl in Hh; exists h.
  - split; [exact Hh|]. destruct HA as (A1 & A2 & A3). unfold inventoryFiles.
    rewrite <- HF, H1, H2, H3, H4, D, P2. auto.
  - split.
    + match goal with |- context [zipDirectory env (dirPath env) ?zp ?w11] =>
        destruct (zipDirectory_run env zp Hwf w11) as (_ & _ & Htoml & _);
        destruct (zipDirectory env (dirPath env) zp w11) as [[e|] w12] end;
        simpl in Htoml; unfold manifestHead in *; simpl; rewrite Htoml; exact Hh.
    + destruct HA as (A1 & A2 & A3). unfold inventoryFiles.
      rewrite <- HF, H1, H2, H3, H4, D, P2. auto.
Qed.

(** C9.  Adding to a directory of a readable tree a regular file of
    size zero whose first read returns no byte: both runs write their
    manifest, and in the second [total_files] is one more (in 64-bit
    arithmetic; exactly one more below the top of the range) while
    [total_size_bytes], [total_directories] and the eleven digest values
    are the same. *)
Theorem C9_empty_file_neutral (L : Libs) (env env' : Env) (w w' : World)
    (entity entity' : Entity) (mt : Z) (reads : list readOutcome) :
  delivers reads [] ->
  addsFile (File 0 mt (Opened reads)) (tree env) (tree env') ->
  goos env' = goos env -> dirPath env' = dirPath env ->
  wfTree (goos env) (tree env) = true ->
  wfTree (goos env) (tree env') = true ->
  treeReadable (tree env) = true ->
  gpgReady env entity -> gpgReady env' entity' ->
  osCreate env (dirPath env ++ ".toml") = None ->
  writeOutcome env (dirPath env ++ ".toml") 0 = None ->
  osCreate env' (dirPath env' ++ ".toml") = None ->
  writeOutcome env' (dirPath env' ++ ".toml") 0 = None ->
  exists h h',
    manifestHead (snd (main L env w)) = Some h /\
    manifestHead (snd (main L env' w')) = Some h' /\
    total_files h' = add64 (total_files h) 1 /\
    (total_files h < 2 ^ 63 - 1 -> total_files h' = total_files h + 1) /\
    total_size_bytes h' = total_size_bytes h /\
    total_directories h' = total_directories h /\
    digests (hashes h') = digests (hashes h).
Proof.
  intros [Hfail Hbytes] Hadd Ho Hr Hwf Hwf' Hread Hg Hg' Hc Hw Hc' Hw'.
  set (f := File 0 mt (Opened reads)) in *.
  assert (Hleaf : forall p, walkOrder f p = [(p, f)]) by reflexivity.
  assert (Hroot : IsNotExist (snd (StatRoot (dirPath env) (tree env))) = false)
    by (inversion Hadd; reflexivity).
  assert (Hroot' : IsNotExist (snd (StatRoot (dirPath env') (tree env'))) = false)
    by (inversion Hadd; reflexivity).
  (* what the pass sees *)
  destruct (view_insert (goos env) dataOf
              (fun comps _ _ _ _ _ _ => match comps with [] => eq_refl | _ => eq_refl end)
              f Hleaf _ _ Hadd Hwf' []) as (a & b & suf & Hne & Ea & Eb).
  assert (Hdata : dataOf (([] ++ suf)%list, f) = ([], false)).
  { simpl. destruct suf; [congruence|]. unfold dataOf, nodeChunks, nodeFails. simpl.
    now rewrite Hfail, Hbytes. }
  rewrite Hdata in Eb.
  assert (Hread' : treeReadable (tree env') = true).
  { rewrite treeReadable_dataOf in *. rewrite Ea in Hread. rewrite Eb.
    rewrite forallb_app in *. simpl. exact Hread. }
  assert (Hb : treeBytes (tree env') = treeBytes (tree env)).
  { rewrite !treeBytes_dataOf, Ea, Eb, !map_app, !concat_app. reflexivity. }
  rewrite <- Ho in Hwf'.
  destruct (main_manifest L env w entity Hroot Hwf Hread Hg Hc Hw)
    as (h & Hh & H1 & H2 & H3 & H4).
  destruct (main_manifest L env' w' entity' Hroot' Hwf' Hread' Hg' Hc' Hw')
    as (h' & Hh' & H1' & H2' & H3' & H4').
  exists h, h'. split; [exact Hh|]. split; [exact Hh'|].
  unfold inventoryFiles in *. rewrite Ho, Hr in *.
  (* the counts *)
  assert (Hrec : forall p, p <> [] ->
            nonDirs (recordOf (goos env) (dirPath env) (p, f)) <> [] /\
            List.length (nonDirs (recordOf (goos env) (dirPath env) (p, f))) = 1%nat /\
            List.length (dirs (recordOf (goos env) (dirPath env) (p, f))) = 0%nat /\
            sumSizes (nonDirs (recordOf (goos env) (dirPath env) (p, f))) = 0).
  { intros p Hp. destruct p; [congruence|]. unfold recordOf. simpl.
    repeat split; discriminate. }
  assert (HF : total_files h' = add64 (total_files h) 1).
  { rewrite H1, H1', !nonDirs_count.
    destruct (view_insert (goos env)
                (fun cn => List.length (nonDirs (recordOf (goos env) (dirPath env) cn)))
                (fun comps _ _ _ _ _ _ => match comps with [] => eq_refl | _ => eq_refl end)
                f Hleaf _ _ Hadd Hwf' []) as (a1 & b1 & s1 & Hn1 & Ea1 & Eb1).
    destruct (Hrec ([] ++ s1)%list) as (_ & Hone & _); [simpl; exact Hn1|].
    rewrite Ea1, Eb1, Hone, list_sum_insert, add64_wrap64.
    f_equal. lia. }
  split; [exact HF|]. split.
  { intros Hsmall. rewrite HF. unfold add64. apply wrap64_small.
    pose proof (wrap64_lower (Z.of_nat (List.length (nonDirs
                  (flat_map (recordOf (goos env) (dirPath env))
                     (walkOrder (tree env) [])))))) as Hl.
    rewrite <- H1 in Hl. lia. }
  split.
  { rewrite H3, H3', !nonDirs_sizes.
    destruct (view_insert (goos env)
                (fun cn => sumSizes (nonDirs (recordOf (goos env) (dirPath env) cn)))
                (fun comps _ _ _ _ _ _ => match comps with [] => eq_refl | _ => eq_refl end)
                f Hleaf _ _ Hadd Hwf' []) as (a1 & b1 & s1 & Hn1 & Ea1 & Eb1).
    destruct (Hrec ([] ++ s1)%list) as (_ & _ & _ & Hzero); [simpl; exact Hn1|].
    rewrite Ea1, Eb1, Hzero, zsum_insert. f_equal. lia. }
  split.
  { rewrite H2, H2', !dirs_count.
    destruct (view_insert (goos env)
                (fun cn => List.length (dirs (recordOf (goos env) (dirPath env) cn)))
                (fun comps _ _ _ _ _ _ => match comps with [] => eq_refl | _ => eq_refl end)
                f Hleaf _ _ Hadd Hwf' []) as (a1 & b1 & s1 & Hn1 & Ea1 & Eb1).
    destruct (Hrec ([] ++ s1)%list) as (_ & _ & Hzero & _); [simpl; exact Hn1|].
    rewrite Ea1, Eb1, Hzero, list_sum_insert. f_equal. lia. }
  now rewrite H4, H4', Hb.
Qed.

Lemma C9_empty_file_neutral_witness :
  exists h h',
    manifestHead (snd (main demoLibs (demoEnv pairTree) freshWorld)) = Some h /\
    manifestHead (snd (main demoLibs (demoEnv pairTreePlus) freshWorld)) = Some h' /\
    total_files h' = add64 (total_files h) 1 /\
    (total_files h < 2 ^ 63 - 1 -> total_files h' = total_files h + 1) /\
    total_size_bytes h' = total_size_bytes h /\
    total_directories h' = total_directories h /\
    digests (hashes h') = digests (hashes h).
Proof.
  refine (C9_empty_file_neutral demoLibs (demoEnv pairTree) (demoEnv pairTreePlus)
            freshWorld freshWorld demoEntity demoEntity 9 [] _ _ eq_refl eq_refl
            eq_refl eq_refl eq_refl (demoEnv_ready _) (demoEnv_ready _)
            eq_refl eq_refl eq_refl eq_refl).
  - split; reflexivity.
  - exact (add_here _ 4096 10 4096 11
             [("b.txt", regular "world" 3); ("a.txt", regular "hello" 2)] [] "empty.txt").
Defined.

(** * Further properties *)

(** ** The manifest file *)

Lemma torn_neq (b : TomlBlock) : forall n, TomlTorn b n <> b.
Proof.
  induction b as [h|k sz m|b IH n0]; intros n H; try discriminate.
  inversion H; subst. now apply (IH n0).
Qed.

Section ManifestFile.
Variable L : Libs.
Variable env : Env.
Variables tomlPath dirName : string.
Variable inv : DirectoryInventory.
Variable r : HashResult.
Variable w : World.

Let full : list TomlBlock := fullManifest L dirName inv r (clock env (w_ticks w)).
Let out : option error * World := createTomlFile L env tomlPath dirName inv r w.

(** X1 (createTomlFile).  When the manifest file can be created and every
    write succeeds, the call returns no error and the file holds exactly
    the template block followed by one table per non-directory record, in
    the order of the inventory; directory records give no table.  One
    clock reading is consumed; the log and the archive are untouched. *)
Theorem createTomlFile_complete :
  osCreate env tomlPath = None ->
  (forall j, (j <= List.length (nonDirs (Files inv)))%nat ->
             writeOutcome env tomlPath j = None) ->
  fst out = None /\
  w_toml (snd out) =
    Some (TomlHeader (headOf L dirName inv r (clock env (w_ticks w)))
            :: map (tableOf L) (nonDirs (Files inv))) /\
  w_log (snd out) = w_log w /\ w_ticks (snd out) = S (w_ticks w) /\
  w_zip (snd out) = w_zip w.
Proof.
  intros Hc Hall.
  destruct (createTomlFile_run L env tomlPath dirName inv r w Hc)
    as ((Hl & Ht & Hz & _) & Hok & _).
  destruct Hok as [H1 H2].
  - intros j Hj. apply Hall. unfold fullManifest in Hj. simpl in Hj.
    rewrite length_map in Hj. lia.
  - auto.
Qed.

(** X2 (createTomlFile).  When the write number [j] is the first to fail,
    the call returns that error; the file then holds the first [j] blocks
    of the manifest followed by the bytes of block [j] that the failing
    write got through, if any (the program does not look at the count):
    never the whole manifest.  Whatever the file held before is gone,
    and the error of the deferred [Close] is dropped. *)
Theorem createTomlFile_write_failure (j : nat) (e : errno) (b : TomlBlock) :
  osCreate env tomlPath = None ->
  nth_error full j = Some b ->
  writeOutcome env tomlPath j = Some e ->
  (forall i, (i < j)%nat -> writeOutcome env tomlPath i = None) ->
  fst out = Some (PathError "write" tomlPath e) /\
  w_toml (snd out) = Some (firstn j full ++ tornBlock env tomlPath j b)%list /\
  w_toml (snd out) <> Some full /\
  w_tomlClosed (snd out) = closes env tomlPath.
Proof.
  intros Hc Hj He Hb.
  destruct (createTomlFile_run L env tomlPath dirName inv r w Hc)
    as ((_ & _ & _ & Hcl) & _ & Hfail).
  destruct (Hfail j e b Hj He Hb) as [H1 H2]. fold out full in H1, H2, Hcl.
  repeat split; auto.
  rewrite H2. intros H. inversion H as [H'].
  destruct (nth_error_split full j Hj) as (l1 & l2 & Efull & Elen).
  rewrite Efull in H'. subst j. rewrite firstn_app, firstn_all, Nat.sub_diag in H'.
  simpl in H'. rewrite app_nil_r in H'. apply app_inv_head in H'.
  unfold tornBlock in H'. destruct (_ =? _)%nat; [discriminate|].
  inversion H' as [[Hb' Hl2]]. now apply torn_neq in Hb'.
Qed.

(** X3 (createTomlFile).  The call returns nil exactly when [os.Create]
    and every [WriteString] succeed, and all blocks of the manifest have
    then been written whole.  The deferred [Close] plays no part in the
    result: a nil result does not tell that the file was closed without
    error. *)
Theorem createTomlFile_nil_iff_written :
  (fst out = None <->
   osCreate env tomlPath = None /\
   forall j, (j < List.length full)%nat -> writeOutcome env tomlPath j = None) /\
  (fst out = None -> w_toml (snd out) = Some full) /\
  (osCreate env tomlPath = None -> w_tomlClosed (snd out) = closes env tomlPath).
Proof.
  destruct (osCreate env tomlPath) as [ec|] eqn:Hc.
  { subst out. unfold createTomlFile. rewrite Hc. simpl.
    repeat split; try discriminate. intros [H _]. discriminate. }
  destruct (createTomlFile_run L env tomlPath dirName inv r w Hc)
    as ((_ & _ & _ & Hcl) & Hok & Hfail).
  fold out full in Hcl, Hok, Hfail.
  destruct (first_failure (writeOutcome env tomlPath) (List.length full))
    as [Hall|(j & e & Hj & He & Hb)].
  - destruct (Hok Hall) as [H1 H2]. repeat split; auto.
  - destruct (nth_error full j) as [b|] eqn:Eb; [|apply nth_error_None in Eb; lia].
    destruct (Hfail j e b Eb He Hb) as [H1 H2].
    split; [split|split].
    + rewrite H1. discriminate.
    + intros [_ Hall]. rewrite (Hall j Hj) in He. discriminate.
    + rewrite H1. discriminate.
    + intros _. exact Hcl.
Qed.

End ManifestFile.

Lemma createTomlFile_complete_witness :
  let out := createTomlFile demoLibs (demoEnv demoTree) "release.toml" "release"
               demoInventory emptyHashResult freshWorld in
  fst out = None /\
  option_map (map tableKey) (w_toml (snd out)) = Some [""; "a/x"; "a.txt"; "b.txt"].
Proof.
  destruct (createTomlFile_complete demoLibs (demoEnv demoTree) "release.toml" "release"
              demoInventory emptyHashResult freshWorld eq_refl (fun _ _ => eq_refl))
    as (H1 & H2 & _).
  split; [exact H1|]. cbv zeta. rewrite H2. reflexivity.
Defined.

Lemma createTomlFile_write_failure_witness :
  let out := createTomlFile demoLibs (fullDiskEnv 2 demoTree) "release.toml" "release"
               demoInventory emptyHashResult freshWorld in
  fst out = Some (PathError "write" "release.toml" ENOSPC) /\
  option_map (fun bs => (map tableKey (firstn 2 bs), skipn 2 bs)) (w_toml (snd out))
  = Some ([""; "a/x"], [TomlTorn (TomlFileTable "a.txt" 5 "2006-01-02 15:04:05") 7]).
Proof.
  assert (Hb : forall i, (i < 2)%nat ->
                 writeOutcome (fullDiskEnv 2 demoTree) "release.toml" i = None).
  { intros [|[|i]] Hi; [reflexivity|reflexivity|lia]. }
  destruct (createTomlFile_write_failure demoLibs (fullDiskEnv 2 demoTree) "release.toml"
              "release" demoInventory emptyHashResult freshWorld 2 ENOSPC
              (TomlFileTable "a.txt" 5 "2006-01-02 15:04:05") eq_refl eq_refl eq_refl Hb)
    as (H1 & H2 & _).
  split; [exact H1|]. cbv zeta. rewrite H2. reflexivity.
Defined.

(** ** The digest pass: key, signature and log *)

Section PassEnd.
Variable L : Libs.
Variable env : Env.
Variable inv : DirectoryInventory.
Variable w : World.

Lemma getGPGEntity_frame (w0 : World) :
  disk (snd (getGPGEntity env w0)) = disk w0 /\
  w_ticks (snd (getGPGEntity env w0)) = w_ticks w0 /\
  w_log (snd (getGPGEntity env w0))
  = (w_log w0 ++ (if String.eqb (gpgKeyFile env) "" then
                    [LogMessage "No GPG key provided, generating a new one..."]
                  else []))%list /\
  fst (getGPGEntity env w0) = fst (getGPGEntity env w).
Proof.
  unfold getGPGEntity. destruct (String.eqb (gpgKeyFile env) ""); simpl.
  - auto.
  - rewrite app_nil_r. destruct (keyFile env); auto.
Qed.

(** X4 (generateDirectoryHashes).  Whenever the pass returns a result
    without error, no file of the inventory failed, the eleven digest
    fields are those of the bytes fed, the key id is the id of the key
    that [getGPGEntity] returned, written in upper-case hexadecimal after
    [0x], and the signature is that key's signature of the text made of
    the root, the eleven values reported (in the order of the format
    string) and the last clock reading of the pass. *)
Theorem generateDirectoryHashes_signs_report (r : HashResult) (w' : World) :
  generateDirectoryHashes L env inv w = ((r, None), w') ->
  passFailure env (Files inv) = None /\
  digests r = referenceDigests L (List.concat (passChunks env (Files inv))) /\
  exists entity n,
    fst (getGPGEntity env w) = inl entity /\
    w_ticks w' = S n /\
    GPGKeyID r = ("0x" ++ formatHex true (KeyId entity))%string /\
    signData entity
      (signedText (RootDir inv) r (Format L "2006-01-02T15:04:05Z07:00" (clock env n)))
    = inl (GPGSignature r).
Proof.
  unfold generateDirectoryHashes. simpl.
  match goal with |- context [hashFiles L env inv (Files inv) ?s] =>
    destruct (hashFiles_spec L env inv (Files inv) s) as (H1 & H2 & _);
    destruct (hashFiles L env inv (Files inv) s) as [st [e|]] end; [discriminate|].
  simpl in H1, H2.
  match goal with |- context [getGPGEntity env ?w1] =>
    destruct (getGPGEntity_frame w1) as (_ & Ht & _ & Hent);
    destruct (getGPGEntity env w1) as [[entity|ee] w3] end; [|discriminate].
  simpl in Ht, Hent.
  match goal with |- context [signData entity ?d] =>
    destruct (signData entity d) as [sig|es] eqn:Hs end; [|discriminate].
  intros H. inversion H; subst; clear H. split; [now symmetry|]. split.
  - unfold digests, referenceDigests. simpl. rewrite H1.
    rewrite fold_sha256, fold_whirlpool, fold_ripemd160, fold_sha3_256, fold_blake2b,
      fold_blake3, fold_sha512, fold_xxh64, fold_murmur3, fold_k12.
    simpl. rewrite !Hash.hcontract. reflexivity.
  - exists entity, (w_ticks w3). split; [now symmetry|]. split; [reflexivity|].
    split; [reflexivity|]. exact Hs.
Qed.

(** X5 (generateDirectoryHashes, getGPGEntity).  When every file was
    hashed but the key cannot be had, the pass returns the zero result,
    without any of the digests it computed, and the key error wrapped as
    "error with GPG key"; nothing is signed and the output files are
    left alone. *)
Theorem generateDirectoryHashes_key_failure (e : error) :
  passFailure env (Files inv) = None ->
  fst (getGPGEntity env w) = inr e ->
  exists w',
    generateDirectoryHashes L env inv w
    = ((emptyHashResult, Some (Errorf "error with GPG key" "" e)), w') /\
    disk w' = disk w.
Proof.
  intros Hf Hk. unfold generateDirectoryHashes. simpl.
  match goal with |- context [hashFiles L env inv (Files inv) ?s] =>
    destruct (hashFiles_spec L env inv (Files inv) s) as (_ & H2 & H3);
    destruct (hashFiles L env inv (Files inv) s) as [st err] end.
  simpl in *. subst err. rewrite Hf.
  match goal with |- context [getGPGEntity env ?w1] =>
    destruct (getGPGEntity_frame w1) as (Hd & _ & _ & Hent);
    destruct (getGPGEntity env w1) as [[entity|ee] w3] end;
    simpl in Hd, Hent; rewrite Hk in Hent; inversion Hent; subst.
  eexists. split; [reflexivity|]. rewrite Hd.
  destruct (showProgress env); exact H3.
Qed.

(** X6 (generateDirectoryHashes, signData).  When every file was hashed
    and the key is at hand but signing fails, the pass returns the zero
    result and the signing error wrapped as "error signing data"; the
    output files are left alone. *)
Theorem generateDirectoryHashes_sign_failure (entity : Entity) (e : error) :
  passFailure env (Files inv) = None ->
  fst (getGPGEntity env w) = inl entity ->
  (forall data, signData entity data = inr e) ->
  exists w',
    generateDirectoryHashes L env inv w
    = ((emptyHashResult, Some (Errorf "error signing data" "" e)), w') /\
    disk w' = disk w.
Proof.
  intros Hf Hk Hs. unfold generateDirectoryHashes. simpl.
  match goal with |- context [hashFiles L env inv (Files inv) ?s] =>
    destruct (hashFiles_spec L env inv (Files inv) s) as (_ & H2 & H3);
    destruct (hashFiles L env inv (Files inv) s) as [st err] end.
  simpl in *. subst err. rewrite Hf.
  match goal with |- context [getGPGEntity env ?w1] =>
    destruct (getGPGEntity_frame w1) as (Hd & _ & _ & Hent);
    destruct (getGPGEntity env w1) as [[ent|ee] w3] end;
    simpl in Hd, Hent; rewrite Hk in Hent; inversion Hent; subst.
  rewrite Hs. eexists. split; [reflexivity|].
  change (disk w3 = disk w). rewrite Hd. destruct (showProgress env); exact H3.
Qed.

End PassEnd.

Lemma generateDirectoryHashes_signs_report_witness :
  exists entity n,
    fst (getGPGEntity (demoEnv pairTree) freshWorld) = inl entity /\
    w_ticks (snd pairRun) = S n /\
    GPGKeyID (fst (fst pairRun)) = ("0x" ++ formatHex true (KeyId entity))%string /\
    signData entity
      (signedText (RootDir pairInventory) (fst (fst pairRun))
         (Format demoLibs "2006-01-02T15:04:05Z07:00" (clock (demoEnv pairTree) n)))
    = inl (GPGSignature (fst (fst pairRun))).
Proof.
  assert (E : generateDirectoryHashes demoLibs (demoEnv pairTree) pairInventory freshWorld
              = ((fst (fst pairRun), None), snd pairRun)) by (vm_compute; reflexivity).
  exact (proj2 (proj2 (generateDirectoryHashes_signs_report demoLibs (demoEnv pairTree)
                         pairInventory freshWorld _ _ E))).
Defined.

Lemma generateDirectoryHashes_key_failure_witness :
  fst (generateDirectoryHashes demoLibs (noKeyEnv pairTree) pairInventory freshWorld)
  = (emptyHashResult,
     Some (Errorf "error with GPG key" ""
             (Errorf "error reading GPG key file" ""
                (PathError "open" "missing.asc" ENOENT)))).
Proof.
  destruct (generateDirectoryHashes_key_failure demoLibs (noKeyEnv pairTree) pairInventory
              freshWorld _ eq_refl eq_refl) as (w' & E & _).
  rewrite E. reflexivity.
Defined.

Lemma generateDirectoryHashes_sign_failure_witness :
  fst (generateDirectoryHashes demoLibs (muteKeyEnv pairTree) pairInventory freshWorld)
  = (emptyHashResult,
     Some (Errorf "error signing data" "" (LibError "openpgp: signing failed"))).
Proof.
  destruct (generateDirectoryHashes_sign_failure demoLibs (muteKeyEnv pairTree)
              pairInventory freshWorld muteEntity _ eq_refl eq_refl (fun _ => eq_refl))
    as (w' & E & _).
  rewrite E. reflexivity.
Defined.

Section PassLog.
Variable L : Libs.
Variable env : Env.
Variable inv : DirectoryInventory.
Variable t0 : Z.

(** No progress line is due: there are no progress reports, or the
    clock never reads more than the interval after [t0]. *)
Hypothesis Hslow :
  showProgress env = false \/ forall n, clock env n - t0 <= progressInterval.

Lemma reportProgress_slow (processed : Z) (w : World) :
  fst (reportProgress env inv processed t0 w) = t0 /\
  w_log (snd (reportProgress env inv processed t0 w)) = w_log w.
Proof.
  unfold reportProgress. destruct (showProgress env) eqn:Es; [|auto].
  destruct Hslow as [Hf|Hc]; [discriminate|]. simpl.
  assert (Hle : (clock env (w_ticks w) - t0 >? progressInterval) = false).
  { rewrite Z.gtb_ltb. apply Z.ltb_ge. apply Hc. }
  rewrite Hle. auto.
Qed.

Lemma readChunks_slow (f : FileInfo) (reads : list readOutcome) (st : PassState L) :
  lastProgressUpdate L st = t0 ->
  lastProgressUpdate L (fst (readChunks L env inv f reads st)) = t0 /\
  w_log (world L (fst (readChunks L env inv f reads st))) = w_log (world L st).
Proof.
  revert st. induction reads as [|[chunk rerr] reads IH]; intros st Hl; simpl; [auto|].
  destruct rerr; try (simpl; auto; fail);
    (destruct (List.length chunk =? 0)%nat; [simpl; auto|];
     rewrite Hl;
     match goal with |- context [reportProgress env inv ?p t0 ?w1] =>
       destruct (reportProgress_slow p w1) as [R1 R2];
       destruct (reportProgress env inv p t0 w1) as [last w2] end;
     simpl in R1, R2; subst last;
     match goal with |- context [readChunks L env inv f reads ?s] =>
       destruct (IH s eq_refl) as [I1 I2] end;
     simpl in I2; rewrite I1, I2; auto).
Qed.

Lemma hashFiles_slow (files : list FileInfo) (st : PassState L) :
  lastProgressUpdate L st = t0 ->
  lastProgressUpdate L (fst (hashFiles L env inv files st)) = t0 /\
  w_log (world L (fst (hashFiles L env inv files st)))
  = (w_log (world L st)
     ++ (if verbose env then
           map (fun f => LogProcessing (RelPath f)) (attempted env files)
         else []))%list.
Proof.
  revert st. induction files as [|f files IH]; intros st Hl; simpl.
  - destruct (verbose env); now rewrite app_nil_r.
  - unfold fileFailure. destruct (IsDir f); [now apply IH|].
    set (st1 := if verbose env then _ else st).
    assert (Hst1 : lastProgressUpdate L st1 = t0 /\
                   w_log (world L st1)
                   = (w_log (world L st)
                      ++ (if verbose env then [LogProcessing (RelPath f)] else []))%list).
    { subst st1. destruct (verbose env); simpl; [auto|]. now rewrite app_nil_r. }
    destruct Hst1 as [Hl1 Hw1]. clearbody st1.
    destruct (Open _ _ _ _) as [reads|e]; simpl.
    + destruct (readChunks_slow f reads st1 Hl1) as [R1 R2].
      destruct (readChunks_spec L env inv f reads st1) as (_ & S2 & _).
      destruct (readChunks L env inv f reads st1) as [st2 [e|]]; simpl in *.
      * rewrite <- S2. simpl. rewrite R1, R2, Hw1. split; [reflexivity|].
        destruct (verbose env); reflexivity.
      * rewrite <- S2. simpl. destruct (IH st2 R1) as [I1 I2].
        rewrite I1, I2, R2, Hw1. split; [reflexivity|].
        destruct (verbose env); simpl; rewrite ?app_nil_r, <- ?app_assoc; reflexivity.
    + rewrite Hl1, Hw1. split; [reflexivity|]. destruct (verbose env); reflexivity.
Qed.

End PassLog.

(** X7 (generateDirectoryHashes).  The log of the digest pass when no
    progress line is due, that is when progress reports are off or the
    clock never reads more than three seconds after the start of the
    pass: with [verbose], one line per file opened, in the order of the
    inventory and up to the file on which the pass fails; then, if no
    file failed, the closing progress line (when reports are on) and the
    lines about the key.  Directories are never logged, and without
    [verbose] no file is. *)
Theorem digest_pass_log (L : Libs) (env : Env) (inv : DirectoryInventory) (w : World) :
  (showProgress env = false \/
   forall n, clock env n - clock env (w_ticks w) <= progressInterval) ->
  w_log (snd (generateDirectoryHashes L env inv w))
  = (w_log w
     ++ (if verbose env then
           map (fun f => LogProcessing (RelPath f)) (attempted env (Files inv))
         else [])
     ++ match passFailure env (Files inv) with
        | Some _ => []
        | None =>
            (if showProgress env then [LogProgressDone (TotalSize inv)] else [])
            ++ keyLog env
        end)%list.
Proof.
  intros Hslow. unfold generateDirectoryHashes. simpl.
  match goal with |- context [hashFiles L env inv (Files inv) ?s] =>
    destruct (hashFiles_slow L env inv (clock env (w_ticks w)) Hslow (Files inv) s eq_refl)
      as [_ Hlog];
    destruct (hashFiles_spec L env inv (Files inv) s) as (_ & H2 & _);
    destruct (hashFiles L env inv (Files inv) s) as [st err] end.
  simpl in Hlog, H2. subst err. destruct (passFailure env (Files inv)) as [e|]; simpl.
  - rewrite Hlog. now rewrite app_nil_r.
  - match goal with |- context [getGPGEntity env ?w1] =>
      destruct (getGPGEntity_frame env w w1) as (_ & _ & Hg & _);
      destruct (getGPGEntity env w1) as [[entity|ee] w3] end; simpl in Hg.
    + match goal with |- context [signData entity ?d] =>
        destruct (signData entity d) end; simpl; rewrite Hg;
        unfold keyLog; destruct (showProgress env); simpl; rewrite Hlog;
        rewrite <- !app_assoc; reflexivity.
    + simpl. rewrite Hg. unfold keyLog. destruct (showProgress env); simpl; rewrite Hlog;
        rewrite <- !app_assoc; reflexivity.
Qed.

Lemma digest_pass_log_witness :
  w_log (snd (generateDirectoryHashes demoLibs (frozenEnv pairTree) pairInventory
                freshWorld))
  = [LogProcessing "a.txt"; LogProcessing "b.txt"; LogProgressDone 10;
     LogMessage "Generating GPG signature...";
     LogMessage "No GPG key provided, generating a new one..."].
Proof.
  assert (Hslow : forall n : nat,
             clock (frozenEnv pairTree) n - clock (frozenEnv pairTree) (w_ticks freshWorld)
             <= progressInterval) by (intros n; vm_compute; discriminate).
  etransitivity;
    [exact (digest_pass_log demoLibs (frozenEnv pairTree) pairInventory freshWorld
              (or_intror Hslow))
    |vm_compute; reflexivity].
Defined.

(** ** The inventory and the tree *)

Lemma compsLtb_irrefl (a : list string) : compsLtb a a = false.
Proof. induction a as [|x a IH]; simpl; [reflexivity|]. now rewrite compare_refl. Qed.

Lemma sorted_relpaths_NoDup (o : OS) (l : list FileInfo) :
  StronglySorted (relPathNamesLt o) l -> NoDup (map RelPath l).
Proof.
  induction 1 as [|a l Hs IH Hall]; simpl; constructor; [|exact IH].
  intros Hin. apply in_map_iff in Hin. destruct Hin as (b & Eb & Hb).
  rewrite Forall_forall in Hall. specialize (Hall b Hb).
  unfold relPathNamesLt, compsLt in Hall. rewrite Eb, compsLtb_irrefl in Hall.
  discriminate.
Qed.

Lemma recordOf_cases (o : OS) (root : string) (cn : list string * node) :
  recordOf o root cn = [] \/ exists f, recordOf o root cn = [f].
Proof.
  unfold recordOf. destruct (fst cn); [now left|].
  destruct (callErr _ _); [now left|]. destruct (callInfo _ _); [right; eauto|now left].
Qed.

(** X8 (createDirectoryInventory).  On a tree whose directories list
    distinct plain names, the inventory holds a record exactly for the
    nodes that can be named from the root by at least one name and whose
    [lstat] and listing succeeded: nothing is recorded twice or invented,
    nothing accessible below the root is left out, and the root itself
    gets no record. *)
Theorem inventory_covers_tree (env : Env) (root : string) (w : World) (f : FileInfo) :
  wfTree (goos env) (tree env) = true ->
  (In f (Files (fst (fst (createDirectoryInventory env root w)))) <->
   exists comps n,
     comps <> [] /\ resolve (tree env) comps = Some n /\
     callErr (joinAll (goos env) root comps) n = None /\
     recordOf (goos env) root (comps, n) = [f]).
Proof.
  intros Hwf.
  destruct (inventory_run env root w) as (inv & w' & E & HF & _). rewrite E. simpl.
  rewrite HF, in_flat_map. split.
  - intros ([comps n] & Hin & Hf).
    pose proof (walkOrder_resolve (goos env) (tree env) [] Hwf) as Hres.
    rewrite Forall_forall in Hres. destruct (Hres _ Hin) as (suf & E1 & E2 & _).
    simpl in E1, E2. subst suf. exists comps, n.
    unfold recordOf in Hf |- *. simpl in Hf |- *.
    destruct comps as [|c cs]; [destruct Hf|].
    destruct (callErr _ n); [destruct Hf|]. destruct (callInfo _ n); [|destruct Hf].
    destruct Hf as [<-|[]]. repeat split; auto. discriminate.
  - intros (comps & n & Hne & Hres & _ & Hf). exists (comps, n). split.
    + exact (walkOrder_complete comps (tree env) [] n Hres).
    + rewrite Hf. now left.
Qed.

(** X9 (createDirectoryInventory).  On such a tree no two records have
    the same relative path, no record has the relative path of the root,
    and the names read back from a record's relative path lead from the
    root to a node that is a directory exactly when the record says so:
    [RelPath] is a key of the inventory. *)
Theorem inventory_relpath_key (env : Env) (root : string) (w : World) :
  wfTree (goos env) (tree env) = true ->
  let files := Files (fst (fst (createDirectoryInventory env root w))) in
  NoDup (map RelPath files) /\
  Forall (fun f =>
            RelPath f <> "." /\
            exists n, resolve (tree env) (splitOn (Separator (goos env)) (RelPath f)) = Some n /\
                      IsDir f = isDirNode n) files.
Proof.
  intros Hwf files. split.
  - apply (sorted_relpaths_NoDup (goos env)). now apply inventory_sorted.
  - subst files.
    destruct (inventory_run env root w) as (inv & w' & E & HF & _). rewrite E. simpl.
    rewrite HF, Forall_forall. intros f Hin. apply in_flat_map in Hin.
    destruct Hin as ([comps n] & Hin & Hf).
    pose proof (walkOrder_resolve (goos env) (tree env) [] Hwf) as Hres.
    rewrite Forall_forall in Hres. destruct (Hres _ Hin) as (suf & E1 & E2 & E3).
    simpl in E1, E2. subst suf.
    unfold recordOf in Hf. simpl in Hf.
    destruct comps as [|c cs]; [destruct Hf|].
    destruct n as [sz mt h|sz mt es|sz mt e|e]; cbn [callErr callInfo Lstat fst] in Hf;
      try contradiction;
      destruct Hf as [<-|[]]; cbn [RelPath IsDir];
      (split; [apply relString_not_dot; [discriminate|exact E3]|]);
      rewrite (splitOn_relString (goos env) (c :: cs)) by
        (try discriminate; now apply plain_names);
      eexists; split; try exact E2; reflexivity.
Qed.

Lemma inventory_covers_tree_witness :
  In {| Path := "release/a/x"; Size := 1; ModTime := 1; IsDir := false; RelPath := "a/x" |}
     (Files demoInventory).
Proof.
  apply (inventory_covers_tree (demoEnv demoTree) "release" freshWorld _ eq_refl).
  exists ["a"; "x"], (regular "x" 1). repeat split; discriminate.
Defined.

Lemma inventory_relpath_key_witness :
  NoDup (map RelPath (Files demoInventory)).
Proof.
  exact (proj1 (inventory_relpath_key (demoEnv demoTree) "release" freshWorld eq_refl)).
Defined.

Lemma filter_flat_map {A B : Type} (p : B -> bool) (g : A -> list B) (l : list A) :
  filter p (flat_map g l) = List.concat (map (fun x => filter p (g x)) l).
Proof.
  induction l as [|x l IH]; simpl; [reflexivity|]. now rewrite filter_app, IH.
Qed.

Lemma map_flat_map {A B C : Type} (h : B -> C) (g : A -> list B) (l : list A) :
  map h (flat_map g l) = List.concat (map (fun x => map h (g x)) l).
Proof.
  induction l as [|x l IH]; simpl; [reflexivity|]. now rewrite map_app, IH.
Qed.

Lemma concat_insert_nil {A : Type} (a b : list (list A)) :
  List.concat (a ++ [] :: b) = List.concat (a ++ b).
Proof. now rewrite !concat_app. Qed.

(** X10 (createDirectoryInventory).  An entry that cannot be accessed
    leaves no trace in the inventory: a tree with one more entry whose
    [lstat] fails, or one more directory that cannot be listed, gives the
    same file records, the same relative paths and the same three
    aggregates, and the walk still returns no error; the only difference
    is one more line in the log. *)
Theorem inaccessible_entry_only_logged (env env' : Env) (root : string) (w w' : World)
    (f : node) :
  inaccessible f = true ->
  addsFile f (tree env) (tree env') ->
  goos env' = goos env ->
  wfTree (goos env) (tree env') = true ->
  let run := createDirectoryInventory env root w in
  let run' := createDirectoryInventory env' root w' in
  nonDirs (Files (fst (fst run'))) = nonDirs (Files (fst (fst run))) /\
  map RelPath (Files (fst (fst run'))) = map RelPath (Files (fst (fst run))) /\
  TotalFiles (fst (fst run')) = TotalFiles (fst (fst run)) /\
  TotalDirs (fst (fst run')) = TotalDirs (fst (fst run)) /\
  TotalSize (fst (fst run')) = TotalSize (fst (fst run)) /\
  snd (fst run') = None /\
  exists a b path e,
    w_log (snd run) = (w_log w ++ a ++ b)%list /\
    w_log (snd run') = (w_log w' ++ a ++ LogAccessError path e :: b)%list.
Proof.
  intros Hf Hadd Ho Hwf run run'. subst run run'.
  destruct (inventory_run env root w) as (inv & w1 & E & HF & HL & _ & _ & _ & _ & _ & HA).
  destruct (inventory_run env' root w')
    as (inv' & w1' & E' & HF' & HL' & _ & _ & _ & _ & _ & HA').
  rewrite E, E'. simpl. rewrite Ho in HF', HL'.
  set (o := goos env) in *.
  assert (Hleaf : forall p, walkOrder f p = [(p, f)])
    by (destruct f; try discriminate; reflexivity).
  assert (Hrec : forall p, recordOf o root (p, f) = []).
  { intros p. unfold recordOf. simpl. destruct p; [reflexivity|].
    destruct f; try discriminate; reflexivity. }
  assert (Hnd : nonDirs (Files inv') = nonDirs (Files inv)).
  { rewrite HF, HF'. unfold nonDirs. rewrite !filter_flat_map.
    destruct (view_insert o (fun cn => filter (fun f0 => negb (IsDir f0)) (recordOf o root cn))
                (fun comps _ _ _ _ _ _ => match comps with [] => eq_refl | _ => eq_refl end)
                f Hleaf _ _ Hadd Hwf []) as (a & b & suf & _ & Ea & Eb).
    rewrite Ea, Eb, Hrec. simpl. apply concat_insert_nil. }
  split; [exact Hnd|]. split.
  { rewrite HF, HF', !map_flat_map.
    destruct (view_insert o (fun cn => map RelPath (recordOf o root cn))
                (fun comps _ _ _ _ _ _ => match comps with [] => eq_refl | _ => eq_refl end)
                f Hleaf _ _ Hadd Hwf []) as (a & b & suf & _ & Ea & Eb).
    rewrite Ea, Eb, Hrec. simpl. apply concat_insert_nil. }
  destruct HA as (A1 & A2 & A3). destruct HA' as (A1' & A2' & A3').
  split; [rewrite A1, A1', Hnd; reflexivity|].
  split.
  { rewrite A2, A2', HF, HF', !dirs_count.
    destruct (view_insert o (fun cn => List.length (dirs (recordOf o root cn)))
                (fun comps _ _ _ _ _ _ => match comps with [] => eq_refl | _ => eq_refl end)
                f Hleaf _ _ Hadd Hwf []) as (a & b & suf & _ & Ea & Eb).
    rewrite Ea, Eb, Hrec, list_sum_insert. simpl. now rewrite Nat.add_0_r. }
  split; [rewrite A3, A3', Hnd; reflexivity|].
  split; [reflexivity|].
  destruct (view_insert o (accessErrorOf o root)
              (fun comps _ _ _ _ _ _ => eq_refl)
              f Hleaf _ _ Hadd Hwf []) as (a & b & suf & _ & Ea & Eb).
  assert (Herr : exists path e, accessErrorOf o root (([] ++ suf)%list, f)
                                = [LogAccessError path e]).
  { unfold accessErrorOf. simpl. destruct f; try discriminate; simpl; eauto. }
  destruct Herr as (path & e & Herr). rewrite Herr in Eb.
  exists (List.concat a), (List.concat b), path, e.
  rewrite HL, HL', !flat_map_concat_map, Ea, Eb, !concat_app. simpl. auto.
Qed.

Lemma inaccessible_entry_only_logged_witness :
  let run := createDirectoryInventory (demoEnv lockedTree) "release" freshWorld in
  let run' := createDirectoryInventory (demoEnv brokenTree) "release" freshWorld in
  map RelPath (Files (fst (fst run'))) = map RelPath (Files (fst (fst run))) /\
  TotalFiles (fst (fst run')) = TotalFiles (fst (fst run)) /\
  snd (fst run') = None.
Proof.
  destruct (inaccessible_entry_only_logged (demoEnv lockedTree) (demoEnv brokenTree)
              "release" freshWorld freshWorld (NoStat ENOENT) eq_refl
              (add_here _ 4096 10 4096 10 [("a.txt", regular "hello" 2)]
                 [("locked", DirUnreadable 4096 7 EACCES); ("z.txt", regular "world" 3)]
                 "gone")
              eq_refl eq_refl)
    as (_ & H2 & H3 & _ & _ & H6 & _).
  split; [exact H2|]. split; [exact H3|exact H6].
Defined.

(** ** A whole run *)

Section WholeRun.
Variable L : Libs.
Variable env : Env.

Hypothesis Hwf : wfTree (goos env) (tree env) = true.

(** The pass fails on no record exactly when every node reads to its
    end. *)
Lemma passFailure_nodes (l : list (list string * node)) :
  (forall cn, In cn l -> In cn (walkOrder (tree env) [])) ->
  passFailure env (flat_map (recordOf (goos env) (dirPath env)) l) = None ->
  forallb (fun cn => negb (nodeFails cn)) l = true.
Proof.
  induction l as [|cn l IH]; intros Hsub Hpass; simpl; [reflexivity|].
  assert (Hcn : In cn (walkOrder (tree env) [])) by (apply Hsub; now left).
  simpl in Hpass.
  destruct (recordOf_cases (goos env) (dirPath env) cn) as [E|[f E]]; rewrite E in Hpass;
    simpl in Hpass.
  - rewrite IH; [|intros; apply Hsub; now right|exact Hpass].
    rewrite andb_true_r. destruct cn as [comps n]. unfold recordOf, nodeFails in *.
    simpl in *. destruct comps; [reflexivity|].
    destruct n as [sz mt h|sz mt es|sz mt e|e]; simpl in E; try discriminate; reflexivity.
  - destruct (record_of_node env Hwf cn f Hcn) as [_ Hf]; [rewrite E; now left|].
    destruct (fileFailure env f) as [e|]; [discriminate|].
    rewrite (proj1 Hf eq_refl). simpl. apply IH; [intros; apply Hsub; now right|exact Hpass].
Qed.

Lemma treeReadable_pass :
  treeReadable (tree env) = true <-> passFailure env (inventoryFiles env) = None.
Proof.
  unfold treeReadable, inventoryFiles. split.
  - intros H. now apply (pass_of_nodes env Hwf (walkOrder (tree env) []) (fun cn H => H)).
  - apply passFailure_nodes. auto.
Qed.

Variable w : World.
Variable entity : Entity.

Hypothesis Hroot : IsNotExist (snd (StatRoot (dirPath env) (tree env))) = false.
Hypothesis Hgpg : gpgReady env entity.
Hypothesis Hctoml : osCreate env (dirPath env ++ ".toml") = None.
Hypothesis Hwtoml : forall j, writeOutcome env (dirPath env ++ ".toml") j = None.
Hypothesis Hczip : osCreate env (dirPath env ++ ".zip") = None.
Hypothesis Hwzip : forall k, writeOutcome env (dirPath env ++ ".zip") k = None.
Hypothesis Hcopy : forall k j, copyOutcome env (dirPath env ++ ".zip") k j = None.

(** With a usable key and outputs that can be written, the run returns
    when every file reads to its end and every node can be archived, and
    is fatal otherwise. *)
Lemma main_healthy :
  if treeReadable (tree env) && treeArchivable env then
    exists h w0 n,
      main L env w = (Returned, logf (LogCompleted (clock env n - clock env (w_ticks w))) w0) /\
      w_toml w0 = Some (TomlHeader h :: map (tableOf L) (nonDirs (inventoryFiles env))) /\
      total_files h = wrap64 (Z.of_nat (List.length (nonDirs (inventoryFiles env)))) /\
      total_directories h = wrap64 (Z.of_nat (List.length (dirs (inventoryFiles env)))) /\
      total_size_bytes h = wrap64 (sumSizes (nonDirs (inventoryFiles env))) /\
      digests (hashes h) = referenceDigests L (treeBytes (tree env)) /\
      w_tomlClosed w0 = closes env (dirPath env ++ ".toml") /\
      w_zip w0 = Some {| z_entries := map (memberOf env) (tl (walkOrder (tree env) []));
                         z_closed := closes env (dirPath env ++ ".zip") |}
  else fst (main L env w) = Fatal.
Proof.
  unfold main. simpl. rewrite Hroot.
  match goal with |- context [createDirectoryInventory env (dirPath env) ?w2] =>
    destruct (inventory_run env (dirPath env) w2)
      as (inv & w3 & E & HF & _ & _ & _ & _ & _ & _ & HA) end.
  rewrite E. fold (inventoryFiles env) in HF.
  destruct (treeReadable (tree env)) eqn:Hread; simpl.
  2: { destruct (passFailure env (Files inv)) as [e|] eqn:Hp.
       - match goal with |- context [generateDirectoryHashes L env inv ?w5] =>
           destruct (generateDirectoryHashes_failure L env inv w5 e Hp) as (w6 & E2 & _) end.
         rewrite E2. reflexivity.
       - rewrite HF in Hp. apply treeReadable_pass in Hp. congruence. }
  destruct (pass_of_nodes env Hwf (walkOrder (tree env) []) (fun cn H => H) Hread)
    as [P1 P2].
  fold (inventoryFiles env) in P1, P2. rewrite <- HF in P1, P2.
  match goal with |- context [generateDirectoryHashes L env inv ?w5] =>
    destruct (generateDirectoryHashes_success L env inv w5 entity P1 Hgpg)
      as (r & w6 & E2 & D & _) end.
  rewrite E2.
  set (dirName := if (_ || _ || _ || _)%bool then _ else _).
  match goal with |- context [createTomlFile L env ?p dirName inv r ?w8] =>
    destruct (createTomlFile_run L env p dirName inv r w8 Hctoml)
      as ((_ & _ & _ & Hcl) & Hok & _);
    destruct (Hok (fun j _ => Hwtoml j)) as [T1 T2];
    destruct (createTomlFile L env p dirName inv r w8) as [terr w9] end.
  simpl in T1, T2, Hcl. subst terr.
  match goal with |- context [zipDirectory env (dirPath env) ?zp ?w11] =>
    destruct (zipDirectory_run env zp Hwf w11) as (Z1 & Z2 & Ztoml & _);
    destruct (zipDirectory_left env zp w11) as (_ & Zcl & _);
    destruct (zipDirectory env (dirPath env) zp w11) as [zerr w12] end.
  simpl in Z1, Z2, Ztoml, Zcl.
  destruct (treeArchivable env) eqn:Harch.
  - rewrite (Z2 eq_refl Hczip Hwzip Hcopy) in *. destruct (Z1 eq_refl) as [Zent _].
    eexists _, _, _. split; [reflexivity|]. simpl.
    rewrite Ztoml, T2, Zcl, Hcl. unfold fullManifest. rewrite HF.
    split; [reflexivity|]. destruct HA as (A1 & A2 & A3). simpl.
    rewrite A1, A2, A3, HF, D, P2. repeat split; auto.
  - destruct zerr as [e|]; [reflexivity|]. destruct (Z1 eq_refl) as [_ Habs]. discriminate.
Qed.

End WholeRun.

(** X11 (main).  With a root that exists, a usable key, and output files
    that can be created and written, the run returns normally exactly
    when every file below the root opens and reads to its end and every
    node can be archived; it is fatal otherwise.  When it returns, the
    manifest holds the template block with the aggregates of the
    inventory and the digests of the bytes of the tree, followed by one
    table per file; the archive holds one member per node below the
    root; each file is closed or not as its deferred [Close] succeeded;
    and the last log line reports the time between the first and the
    last clock reading. *)
Theorem main_returns_iff (L : Libs) (env : Env) (w : World) (entity : Entity) :
  wfTree (goos env) (tree env) = true ->
  IsNotExist (snd (StatRoot (dirPath env) (tree env))) = false ->
  gpgReady env entity ->
  osCreate env (dirPath env ++ ".toml") = None ->
  (forall j, writeOutcome env (dirPath env ++ ".toml") j = None) ->
  osCreate env (dirPath env ++ ".zip") = None ->
  (forall k, writeOutcome env (dirPath env ++ ".zip") k = None) ->
  (forall k j, copyOutcome env (dirPath env ++ ".zip") k j = None) ->
  (fst (main L env w) = Returned <->
   treeReadable (tree env) = true /\ treeArchivable env = true) /\
  (fst (main L env w) = Returned ->
   exists h w0 n,
     snd (main L env w) = logf (LogCompleted (clock env n - clock env (w_ticks w))) w0 /\
     w_toml w0 = Some (TomlHeader h :: map (tableOf L) (nonDirs (inventoryFiles env))) /\
     total_files h = wrap64 (Z.of_nat (List.length (nonDirs (inventoryFiles env)))) /\
     total_directories h = wrap64 (Z.of_nat (List.length (dirs (inventoryFiles env)))) /\
     total_size_bytes h = wrap64 (sumSizes (nonDirs (inventoryFiles env))) /\
     digests (hashes h) = referenceDigests L (treeBytes (tree env)) /\
     w_tomlClosed w0 = closes env (dirPath env ++ ".toml") /\
     w_zip w0 = Some {| z_entries := map (memberOf env) (tl (walkOrder (tree env) []));
                        z_closed := closes env (dirPath env ++ ".zip") |}).
Proof.
  intros Hwf Hroot Hgpg Hct Hwt Hcz Hwz Hcp.
  pose proof (main_healthy L env Hwf w entity Hroot Hgpg Hct Hwt Hcz Hwz Hcp) as H.
  destruct (treeReadable (tree env) && treeArchivable env) eqn:Hb.
  - destruct H as (h & w0 & n & E & Hrest). apply andb_true_iff in Hb.
    split.
    + split; [intros _; exact Hb|intros _; now rewrite E].
    + intros _. exists h, w0, n. split; [now rewrite E|exact Hrest].
  - split.
    + split.
      * intros HR. rewrite H in HR. discriminate.
      * intros [H1 H2]. rewrite H1, H2 in Hb. discriminate.
    + intros HR. rewrite H in HR. discriminate.
Qed.

Lemma main_returns_iff_witness :
  fst (main demoLibs (demoEnv archiveTree) freshWorld) = Returned /\
  fst (main demoLibs (demoEnv failingTree) freshWorld) = Fatal.
Proof.
  destruct (main_returns_iff demoLibs (demoEnv archiveTree) freshWorld demoEntity
              eq_refl eq_refl (demoEnv_ready _) eq_refl (fun _ => eq_refl) eq_refl
              (fun _ => eq_refl) (fun _ _ => eq_refl)) as [[_ H1] _].
  destruct (main_returns_iff demoLibs (demoEnv failingTree) freshWorld demoEntity
              eq_refl eq_refl (demoEnv_ready _) eq_refl (fun _ => eq_refl) eq_refl
              (fun _ => eq_refl) (fun _ _ => eq_refl)) as [[H2 _] _].
  split.
  - apply H1. split; vm_compute; reflexivity.
  - destruct (fst (main demoLibs (demoEnv failingTree) freshWorld)); [|reflexivity].
    destruct (H2 eq_refl) as [Hr _]. vm_compute in Hr. discriminate.
Defined.

(** X12 (main).  The program never checks that the root is a directory.
    With a root that is a regular file, a usable key and outputs that can
    be written, the run returns normally: the inventory is empty, the
    manifest holds the template block alone, with zero files, zero
    directories and zero bytes and the digests of no bytes at all, and
    the archive has no member.  The bytes of the file are never read. *)
Theorem main_on_file_root (L : Libs) (env : Env) (w : World) (entity : Entity)
    (sz mt : Z) (h : openOutcome) :
  tree env = File sz mt h ->
  gpgReady env entity ->
  osCreate env (dirPath env ++ ".toml") = None ->
  writeOutcome env (dirPath env ++ ".toml") 0 = None ->
  osCreate env (dirPath env ++ ".zip") = None ->
  fst (main L env w) = Returned /\
  exists hd,
    w_toml (snd (main L env w)) = Some [TomlHeader hd] /\
    total_files hd = 0 /\ total_directories hd = 0 /\ total_size_bytes hd = 0 /\
    digests (hashes hd) = referenceDigests L [] /\
    w_zip (snd (main L env w))
    = Some {| z_entries := []; z_closed := closes env (dirPath env ++ ".zip") |}.
Proof.
  intros Ht Hgpg Hct Hwt Hcz.
  unfold main. simpl. rewrite Ht. simpl.
  match goal with |- context [createDirectoryInventory env (dirPath env) ?w2] =>
    destruct (inventory_run env (dirPath env) w2)
      as (inv & w3 & E & HF & _ & _ & _ & _ & _ & _ & HA) end.
  rewrite E. rewrite Ht in HF. simpl in HF.
  assert (P1 : passFailure env (Files inv) = None) by now rewrite HF.
  assert (P2 : passChunks env (Files inv) = []) by now rewrite HF.
  match goal with |- context [generateDirectoryHashes L env inv ?w5] =>
    destruct (generateDirectoryHashes_success L env inv w5 entity P1 Hgpg)
      as (r & w6 & E2 & D & _) end.
  rewrite E2. rewrite P2 in D. simpl in D.
  set (dirName := if (_ || _ || _ || _)%bool then _ else _).
  match goal with |- context [createTomlFile L env ?p dirName inv r ?w8] =>
    destruct (createTomlFile_run L env p dirName inv r w8 Hct) as (_ & Hok & _);
    destruct Hok as [T1 T2];
    [unfold fullManifest; rewrite HF; simpl; intros [|j] Hj; [exact Hwt|lia]|];
    destruct (createTomlFile L env p dirName inv r w8) as [terr w9] end.
  simpl in T1, T2. subst terr. unfold fullManifest in T2. rewrite HF in T2. simpl in T2.
  unfold zipDirectory. rewrite Hcz. unfold Walk. rewrite Ht. simpl.
  unfold Rel. rewrite String.eqb_refl. simpl.
  split; [reflexivity|]. eexists. split; [exact T2|]. simpl.
  destruct HA as (A1 & A2 & A3). rewrite HF in A1, A2, A3.
  rewrite A1, A2, A3, D. repeat split; reflexivity.
Qed.

Lemma main_on_file_root_witness :
  fst (main demoLibs (demoEnv (regular "secret" 1)) freshWorld) = Returned /\
  option_map (fun z => z_entries z)
    (w_zip (snd (main demoLibs (demoEnv (regular "secret" 1)) freshWorld))) = Some [].
Proof.
  destruct (main_on_file_root demoLibs (demoEnv (regular "secret" 1)) freshWorld demoEntity
              _ _ _ eq_refl (demoEnv_ready _) eq_refl eq_refl eq_refl)
    as (H1 & hd & _ & _ & _ & _ & _ & Hz).
  split; [exact H1|]. rewrite Hz. reflexivity.
Defined.
